(** * Hangman: a shallow embedding of [src/main.cpp]

    The development follows the layout of the C++ source: machine integers,
    characters and strings first, then the records [WordItem], [GameState]
    and [PlayerState], the console (standard input as a list of lines,
    standard output as a list of printed messages), the helper functions,
    the per-guess functions and finally the game loops of the single-player,
    interactive and two-player modes.  Theorems come last. *)

From Stdlib Require Import ZArith List Ascii String Bool Lia Permutation.
From Stdlib Require Import Floats Uint63.
Import ListNotations.
Open Scope Z_scope.

(** ** Machine integers

    [int] is a 32-bit two's-complement integer.  Signed overflow is undefined
    in C++; the model wraps, as the usual targets do, and every theorem that
    depends on a counter says in which range it is stated. *)
Module Int.

Definition INT_MAX : Z := 2147483647.
Definition INT_MIN : Z := -2147483648.

Definition wrap (z : Z) : Z := (z + 2147483648) mod 4294967296 - 2147483648.

Definition add (a b : Z) : Z := wrap (a + b).
Definition sub (a b : Z) : Z := wrap (a - b).
Definition mul (a b : Z) : Z := wrap (a * b).
(* [/] on int truncates toward zero *)
Definition div (a b : Z) : Z := wrap (Z.quot a b).
Definition incr (a : Z) : Z := add a 1.

Definition in_range (z : Z) : Prop := INT_MIN <= z <= INT_MAX.

End Int.

(** ** Doubles

    [double] is IEEE 754 binary64, which is what Rocq's primitive floats
    are.  An [int] converts exactly. *)
Definition double : Type := float.

Definition double_of_int (z : Z) : double :=
  if z <? 0 then PrimFloat.opp (PrimFloat.of_uint63 (Uint63.of_Z (- z)))
  else PrimFloat.of_uint63 (Uint63.of_Z z).

(** ** Characters and strings

    [char] is [ascii]; [std::string] is a list of characters.  [cstr] reads a
    literal. *)
Definition str : Type := list ascii.

Definition cstr (s : string) : str := list_ascii_of_string s.

Definition char_eqb (a b : ascii) : bool := Ascii.eqb a b.

(* [toupper] and [isdigit] of <cctype>, in the "C" locale *)
Definition toupper (c : ascii) : ascii :=
  let n := nat_of_ascii c in
  if (Nat.leb 97 n && Nat.leb n 122)%bool then ascii_of_nat (n - 32) else c.

Definition isdigit (c : ascii) : bool :=
  let n := nat_of_ascii c in (Nat.leb 48 n && Nat.leb n 57)%bool.

Definition islower (c : ascii) : bool :=
  let n := nat_of_ascii c in (Nat.leb 97 n && Nat.leb n 122)%bool.

(* [s.find(c) != string::npos] *)
Definition contains (s : str) (c : ascii) : bool := existsb (char_eqb c) s.

(* [s.find(c)]: the position of the first [c], [None] for [npos] *)
Fixpoint find (s : str) (c : ascii) : option nat :=
  match s with
  | [] => None
  | x :: s' => if char_eqb x c then Some 0%nat
               else match find s' c with Some i => Some (S i) | None => None end
  end.

(* [s[0]]: since C++11 the position [size()] reads as the null character *)
Definition front (s : str) : ascii :=
  match s with [] => Ascii.zero | c :: _ => c end.

Fixpoint str_eqb (a b : str) : bool :=
  match a, b with
  | [], [] => true
  | x :: a', y :: b' => (char_eqb x y && str_eqb a' b')%bool
  | _, _ => false
  end.

(** [convertToUpper]: every character is replaced by its [toupper]. *)
Definition convertToUpper (s : str) : str := map toupper s.

(** ** Data model *)

(** [struct WordItem] *)
Record WordItem : Type := mkWordItem {
  word : str;   (* the word to be guessed *)
  hint : str    (* a hint to help the player *)
}.

(** [struct GameState].  The constructor [GameState(int maxGuesses)] is
    [newGameState]. *)
Record GameState : Type := mkGameState {
  chosenWord : str;
  guessedLetters : str;
  chosenHint : str;
  incorrectGuesses : Z;
  maxGuesses : Z;
  wordGuessed : bool;
  wonRounds : Z;
  lostRounds : Z;
  totalRounds : Z;
  winRate : double;
  lossRate : double
}.

Definition newGameState (maxGuesses : Z) : GameState :=
  {| chosenWord := []; guessedLetters := []; chosenHint := [];
     incorrectGuesses := 0; maxGuesses := maxGuesses; wordGuessed := false;
     wonRounds := 0; lostRounds := 0; totalRounds := 0;
     winRate := 0%float; lossRate := 0%float |}.

(* field assignments *)
Definition set_chosenWord (s : GameState) (w : str) : GameState :=
  mkGameState w (guessedLetters s) (chosenHint s) (incorrectGuesses s) (maxGuesses s)
    (wordGuessed s) (wonRounds s) (lostRounds s) (totalRounds s) (winRate s) (lossRate s).
Definition set_guessedLetters (s : GameState) (g : str) : GameState :=
  mkGameState (chosenWord s) g (chosenHint s) (incorrectGuesses s) (maxGuesses s)
    (wordGuessed s) (wonRounds s) (lostRounds s) (totalRounds s) (winRate s) (lossRate s).
Definition set_chosenHint (s : GameState) (h : str) : GameState :=
  mkGameState (chosenWord s) (guessedLetters s) h (incorrectGuesses s) (maxGuesses s)
    (wordGuessed s) (wonRounds s) (lostRounds s) (totalRounds s) (winRate s) (lossRate s).
Definition set_incorrectGuesses (s : GameState) (n : Z) : GameState :=
  mkGameState (chosenWord s) (guessedLetters s) (chosenHint s) n (maxGuesses s)
    (wordGuessed s) (wonRounds s) (lostRounds s) (totalRounds s) (winRate s) (lossRate s).
Definition set_wordGuessed (s : GameState) (b : bool) : GameState :=
  mkGameState (chosenWord s) (guessedLetters s) (chosenHint s) (incorrectGuesses s)
    (maxGuesses s) b (wonRounds s) (lostRounds s) (totalRounds s) (winRate s) (lossRate s).
Definition set_wonRounds (s : GameState) (n : Z) : GameState :=
  mkGameState (chosenWord s) (guessedLetters s) (chosenHint s) (incorrectGuesses s)
    (maxGuesses s) (wordGuessed s) n (lostRounds s) (totalRounds s) (winRate s) (lossRate s).
Definition set_lostRounds (s : GameState) (n : Z) : GameState :=
  mkGameState (chosenWord s) (guessedLetters s) (chosenHint s) (incorrectGuesses s)
    (maxGuesses s) (wordGuessed s) (wonRounds s) n (totalRounds s) (winRate s) (lossRate s).
Definition set_totalRounds (s : GameState) (n : Z) : GameState :=
  mkGameState (chosenWord s) (guessedLetters s) (chosenHint s) (incorrectGuesses s)
    (maxGuesses s) (wordGuessed s) (wonRounds s) (lostRounds s) n (winRate s) (lossRate s).
Definition set_winRate (s : GameState) (r : double) : GameState :=
  mkGameState (chosenWord s) (guessedLetters s) (chosenHint s) (incorrectGuesses s)
    (maxGuesses s) (wordGuessed s) (wonRounds s) (lostRounds s) (totalRounds s) r (lossRate s).
Definition set_lossRate (s : GameState) (r : double) : GameState :=
  mkGameState (chosenWord s) (guessedLetters s) (chosenHint s) (incorrectGuesses s)
    (maxGuesses s) (wordGuessed s) (wonRounds s) (lostRounds s) (totalRounds s) (winRate s) r.

(** [struct PlayerState] *)
Record PlayerState : Type := mkPlayerState {
  state : GameState;
  playerName : str;
  totalWins : Z;
  totalLosses : Z
}.

Definition newPlayerState (st : GameState) (name : str) : PlayerState :=
  {| state := st; playerName := name; totalWins := 0; totalLosses := 0 |}.

Definition set_state (p : PlayerState) (st : GameState) : PlayerState :=
  mkPlayerState st (playerName p) (totalWins p) (totalLosses p).
Definition set_totalWins (p : PlayerState) (n : Z) : PlayerState :=
  mkPlayerState (state p) (playerName p) n (totalLosses p).
Definition set_totalLosses (p : PlayerState) (n : Z) : PlayerState :=
  mkPlayerState (state p) (playerName p) (totalWins p) n.

(** The outcome of a round is not stored: the loops test
    [incorrectGuesses < maxGuesses && !wordGuessed] to go on, and
    [endGameDisplay] reads [wordGuessed] first and the counter second. *)
Inductive Outcome : Type := Unresolved | Won | Lost.

Definition outcome (s : GameState) : Outcome :=
  if wordGuessed s then Won
  else if maxGuesses s <=? incorrectGuesses s then Lost
  else Unresolved.

(* the guard of every game loop *)
Definition active (s : GameState) : bool :=
  ((incorrectGuesses s <? maxGuesses s) && negb (wordGuessed s))%bool.

(** ** The console

    What the program writes is kept as a list of messages, one per output
    statement, carrying the values that were printed.  The wording of the
    fixed banners and prompts is shortened; the screen clearing and the
    drawings of the gallows stages are left out. *)
Inductive Output : Type :=
| Text (s : str)                         (* a fixed banner *)
| Prompt (s : str)                       (* the prompt of getValidatedInput *)
| InvalidResponse (validOptions : str)
| AlreadyGuessedMsg (c : ascii)          (* You have already guessed 'c'. No penalty. *)
| LetterIncorrectMsg (c : ascii)         (* "c" is incorrect! *)
| LetterCorrectMsg (c : ascii)           (* "c" is correct! *)
| WordCorrectMsg (w : str)               (* Correct! The word was: w *)
| WordIncorrectMsg (w : str)             (* Incorrect! The correct word was: w *)
| GallowsStage (index : Z)               (* stages[index] *)
| GallowsInvalid                         (* cerr: Invalid parameters for drawGallows *)
| HintLine (h : str)                     (* Hint: h *)
| GuessedLettersLine (g : str)           (* Guessed Letters: g *)
| WordLine (w : str)                     (* the word, one glyph and one blank per letter *)
| RemainingMsg (n : Z)                   (* You have n incorrect guesses remaining. *)
| CongratulationsMsg (w : str)
| HangedMsg (w : str)
| RoundsMsg (won lost : Z)
| RatesMsg (winRate lossRate : double)
| TurnMsg (name : str)
| PlayerCongratulationsMsg (name w : str)
| PlayerHangedMsg (name w : str)
| PlayerInvalidStateMsg (name : str)     (* cerr: Invalid game state for player *)
| PlayerRoundsMsg (name : str) (wins losses : Z)
| MultiplayerStatsMsg (wins1 losses1 wins2 losses2 : Z).

(** Functions that only write: the value and what was printed. *)
Definition Cout (A : Type) : Type := (A * list Output)%type.

(** Functions that also read.  Standard input is the list of the lines still
    to come.  [Starved]: the input ended inside [getValidatedInput], whose
    loop then never exits.  [Undefined]: the program did something C++ gives
    no meaning to (a remainder by zero, an index outside a vector).
    [Timeout]: the step budget of a modelled loop is used up. *)
Inductive Res (A : Type) : Type :=
| Ret (a : A) (rest : list str) (out : list Output)
| Starved (out : list Output)
| Undefined (out : list Output)
| Timeout.
Arguments Ret {A} a rest out.
Arguments Starved {A} out.
Arguments Undefined {A} out.
Arguments Timeout {A}.

Definition IO (A : Type) : Type := list str -> Res A.

Definition emit {A : Type} (pre : list Output) (r : Res A) : Res A :=
  match r with
  | Ret a rest out => Ret a rest (pre ++ out)
  | Starved out => Starved (pre ++ out)
  | Undefined out => Undefined (pre ++ out)
  | Timeout => Timeout
  end.

Definition ret {A : Type} (a : A) : IO A := fun inp => Ret a inp [].

Definition bind {A B : Type} (m : IO A) (k : A -> IO B) : IO B :=
  fun inp =>
    match m inp with
    | Ret a rest out => emit out (k a rest)
    | Starved out => Starved out
    | Undefined out => Undefined out
    | Timeout => Timeout
    end.

Definition print (o : Output) : IO unit := fun inp => Ret tt inp [o].

Definition lift {A : Type} (c : Cout A) : IO A := fun inp => Ret (fst c) inp (snd c).

Definition undefined {A : Type} : IO A := fun _ => Undefined [].

(* [getline(cin, s)]: at the end of the input the string is left empty *)
Definition getline : IO str :=
  fun inp => match inp with
             | [] => Ret [] [] []
             | l :: rest => Ret l rest []
             end.

Declare Scope io_scope.
Delimit Scope io_scope with io.
Notation "x <- m ;; k" := (bind m (fun x => k))
  (at level 61, m at next level, right associativity) : io_scope.
Notation "m ;;; k" := (bind m (fun _ => k))
  (at level 61, right associativity) : io_scope.
Notation "' pat <- m ;; k" := (bind m (fun x => match x with pat => k end))
  (at level 61, pat pattern, m at next level, right associativity) : io_scope.

Open Scope io_scope.

(** ** Helper functions *)

(** [getValidatedInput]: the loop reads one line per iteration.  A line is
    accepted when its first character is a digit listed in [validOptions], or
    when it is a single character whose upper case is listed or which is
    ['1']; the second case returns the upper case. *)
Fixpoint getValidatedInput_loop (validOptions : str) (inp : list str) : Res ascii :=
  match inp with
  | [] => Starved []
  | input :: rest =>
      if (isdigit (front input) && contains validOptions (front input))%bool then
        Ret (front input) rest []
      else if ((List.length input =? 1)%nat &&
               (contains validOptions (toupper (front input))
                || char_eqb (front input) "1"%char))%bool then
        Ret (toupper (front input)) rest []
      else
        emit [InvalidResponse validOptions] (getValidatedInput_loop validOptions rest)
  end.

Definition getValidatedInput (prompt validOptions : str) : IO ascii :=
  fun inp => emit [Prompt prompt] (getValidatedInput_loop validOptions inp).

(** [readIntoWordItem], on the lines of the file: a line is split at its
    first comma, a line without a comma is skipped.  A file that cannot be
    opened leaves the list as it is, which is the result for no lines. *)
Fixpoint split_at_comma (line : str) : option (str * str) :=
  match line with
  | [] => None
  | c :: line' =>
      if char_eqb c ","%char then Some ([], line')
      else match split_at_comma line' with
           | Some (w, h) => Some (c :: w, h)
           | None => None
           end
  end.

Fixpoint readIntoWordItem (wordList : list WordItem) (lines : list str) : list WordItem :=
  match lines with
  | [] => wordList
  | line :: lines' =>
      match split_at_comma line with
      | Some (w, h) => readIntoWordItem (wordList ++ [mkWordItem w h]) lines'
      | None => readIntoWordItem wordList lines'
      end
  end.

(** [appendWord] writes a newline, then the upper-cased word, a comma and the
    upper-cased hint: the line it adds to the file. *)
Definition appendWord_line (w h : str) : str :=
  convertToUpper w ++ [","%char] ++ convertToUpper h.

(** ** Game functions *)

(** [gameStats] *)
Definition gameStats (s : GameState) : GameState :=
  let s1 := if ((0 <? wonRounds s) || (0 <? lostRounds s))%bool
            then set_totalRounds s (Int.add (wonRounds s) (lostRounds s))
            else s in
  let s2 := set_winRate s1
              (if totalRounds s1 =? 0 then double_of_int 0
               else PrimFloat.mul
                      (PrimFloat.div (double_of_int (wonRounds s1))
                                     (double_of_int (totalRounds s1)))
                      (double_of_int 100)) in
  set_lossRate s2
    (if totalRounds s2 =? 0 then double_of_int 0
     else PrimFloat.mul
            (PrimFloat.div (double_of_int (lostRounds s2))
                           (double_of_int (totalRounds s2)))
            (double_of_int 100)).

(** [selectDifficultyLevel] *)
Definition DEFAULT_LEVEL : Z := 8.
Definition INTERMEDIATE_LEVEL : Z := 4.
Definition VETERAN_LEVEL : Z := 2.

Definition difficulty_prompt : str :=
  cstr "Select a difficulty level: 1. Noob (8 guesses) 2. Intermediate (4 guesses) 3. Veteran (2 guesses)".

Definition selectDifficultyLevel : IO Z :=
  choice <- getValidatedInput difficulty_prompt (cstr "123") ;;
  if char_eqb choice "1"%char then ret DEFAULT_LEVEL
  else if char_eqb choice "2"%char then ret INTERMEDIATE_LEVEL
  else if char_eqb choice "3"%char then ret VETERAN_LEVEL
  else print (Text (cstr "Invalid input. Defaulting to Noob level (8 guesses).")) ;;;
       ret DEFAULT_LEVEL.

(** [setupDifficulty] stores the selected level in its reference argument. *)
Definition setupDifficulty : IO Z := selectDifficultyLevel.

(** [drawGallows]: nine stages, the index is
    [incorrectGuesses * 8 / maxGuesses], capped at 8. *)
Definition MAX_GUESS_STAGE : Z := 9.

Definition drawGallows (incorrectGuesses maxGuesses : Z) : list Output :=
  let totalStages := MAX_GUESS_STAGE in
  if ((incorrectGuesses <? 0) || (maxGuesses <=? 0))%bool then [GallowsInvalid]
  else
    let index := Int.div (Int.mul incorrectGuesses (Int.sub totalStages 1)) maxGuesses in
    let index := Z.min index (Int.sub totalStages 1) in
    [GallowsStage index].

(** The two projections that [displayGameState] prints: the hint, and the
    word with one glyph per letter, each followed by a blank. *)
Definition renderedHint (s : GameState) : str :=
  if incorrectGuesses s =? 0 then [] else chosenHint s.

Definition glyph (s : GameState) (letter : ascii) : ascii :=
  if contains (guessedLetters s) letter then letter else "_"%char.

Definition revealedWord (s : GameState) : str :=
  flat_map (fun letter => [glyph s letter; " "%char]) (chosenWord s).

(** [displayGameState] *)
Definition displayGameState (s : GameState) : Cout unit :=
  (tt, drawGallows (incorrectGuesses s) (maxGuesses s)
         ++ [HintLine (renderedHint s);
             GuessedLettersLine (guessedLetters s);
             WordLine (revealedWord s)]).

(** [wordGuess] *)
Definition wordGuess (s : GameState) (fullGuess : str) : Cout (bool * GameState) :=
  if str_eqb fullGuess (chosenWord s) then
    ((true, set_wordGuessed s true), [WordCorrectMsg (chosenWord s)])
  else
    ((false, set_incorrectGuesses s (maxGuesses s)), [WordIncorrectMsg (chosenWord s)]).

(** [checkWordGuessed] *)
Definition checkWordGuessed (s : GameState) : bool * GameState :=
  if forallb (contains (guessedLetters s)) (chosenWord s)
  then (true, set_wordGuessed s true)
  else (false, s).

(** [handleCharacterGuess] *)
Definition handleCharacterGuess (s : GameState) (guess : ascii) : Cout (bool * GameState) :=
  if contains (guessedLetters s) guess then
    ((false, s), [AlreadyGuessedMsg guess])
  else
    let s1 := set_guessedLetters s (guessedLetters s ++ [guess]) in
    if negb (contains (chosenWord s1) guess) then
      ((false, set_incorrectGuesses s1 (Int.incr (incorrectGuesses s1))),
       [LetterIncorrectMsg guess])
    else
      (checkWordGuessed s1, [LetterCorrectMsg guess]).

(** [processPlayerGuess] *)
Definition guess_prompt : str :=
  cstr "Enter your guess 'A-Z' or enter '1' to guess the entire word.".

Definition ALPHABET : str := cstr "ABCDEFGHIJKLMNOPQRSTUVWXYZ".

Definition processPlayerGuess (s : GameState) : IO (bool * GameState) :=
  guess <- getValidatedInput guess_prompt ALPHABET ;;
  if char_eqb guess "1"%char then
    print (Text (cstr "Type your guess for the word.")) ;;;
    fullGuess <- getline ;;
    lift (wordGuess s (convertToUpper fullGuess))
  else
    lift (handleCharacterGuess s guess).

(** [endGameDisplay], in the two steps of its body: the tally of the round,
    then the total and the two rates. *)
Definition endGame_tally (s : GameState) : Cout GameState :=
  if wordGuessed s then
    (set_wonRounds s (Int.incr (wonRounds s)), [CongratulationsMsg (chosenWord s)])
  else if maxGuesses s <=? incorrectGuesses s then
    (set_lostRounds s (Int.incr (lostRounds s)),
     drawGallows (incorrectGuesses s) (maxGuesses s) ++ [HangedMsg (chosenWord s)])
  else (s, []).

Definition endGame_rates (s : GameState) : GameState :=
  let s := set_totalRounds s (Int.add (wonRounds s) (lostRounds s)) in
  let s := set_winRate s
             (if 0 <? totalRounds s
              then PrimFloat.mul
                     (PrimFloat.div (double_of_int (wonRounds s))
                                    (double_of_int (totalRounds s)))
                     100%float
              else 0%float) in
  set_lossRate s
    (if 0 <? totalRounds s
     then PrimFloat.mul
            (PrimFloat.div (double_of_int (lostRounds s))
                           (double_of_int (totalRounds s)))
            100%float
     else 0%float).

Definition endGameDisplay (s : GameState) : Cout GameState :=
  let s1 := fst (endGame_tally s) in
  let s2 := endGame_rates s1 in
  (s2, snd (endGame_tally s)
         ++ [RoundsMsg (wonRounds s2) (lostRounds s2);
             RatesMsg (winRate s2) (lossRate s2)]).

(** [promptToPlayAgain] *)
Definition promptToPlayAgain : IO bool :=
  response <- getValidatedInput (cstr "Would you like to play again? (Y/N) ") (cstr "YyNn") ;;
  ret (char_eqb response "Y"%char || char_eqb response "y"%char)%bool.

(** ** Random draws

    [rand()] returns a non-negative [int]; the k-th call of a run returns
    [rand k].  [rand() % wordList.size()] is computed on [size_t] and stored
    in an [int]. *)
Definition draw (r : nat) (size : nat) : option Z :=
  match size with
  | O => None                                    (* remainder by zero *)
  | _ => Some (Int.wrap (Z.of_nat (r mod size)))
  end.

(* [wordList[wordIndex]] *)
Definition at_index (wordList : list WordItem) (wordIndex : Z) : option WordItem :=
  if wordIndex <? 0 then None else nth_error wordList (Z.to_nat wordIndex).

(** ** Single-player mode *)

(** The game loop shared by [playSingleplayer] and
    [playInteractiveMultiplayer]:
    [while (incorrectGuesses < maxGuesses && !wordGuessed)]. *)
Fixpoint gameLoop_fuel (fuel : nat) (s : GameState) : IO GameState :=
  match fuel with
  | O => fun _ => Timeout
  | S fuel' =>
      if active s then
        lift (displayGameState s) ;;;
        r <- processPlayerGuess s ;;
        (if negb (fst r)
         then print (RemainingMsg (Int.sub (maxGuesses (snd r)) (incorrectGuesses (snd r))))
         else ret tt) ;;;
        gameLoop_fuel fuel' (snd r)
      else ret s
  end.

(* every iteration reads at least one line, so one more step than there are
   lines is enough *)
Definition gameLoop (s : GameState) : IO GameState :=
  fun inp => gameLoop_fuel (S (List.length inp)) s inp.

(** Round setup of [playSingleplayer]: a fresh state, a word drawn from the
    list, word and hint converted to upper case. *)
Definition singleplayerSetup (maxGuesses : Z) (wordList : list WordItem) (r : nat)
  : option GameState :=
  match draw r (List.length wordList) with
  | None => None
  | Some wordIndex =>
      match at_index wordList wordIndex with
      | None => None
      | Some item =>
          let s := newGameState maxGuesses in
          let s := set_chosenWord s (word item) in
          let s := set_chosenHint s (hint item) in
          let s := set_chosenWord s (convertToUpper (chosenWord s)) in
          let s := set_chosenHint s (convertToUpper (chosenHint s)) in
          Some s
      end
  end.

(* the body of the do-while loop, up to [endGameDisplay] *)
Definition singleplayerRound (maxGuesses : Z) (wordList : list WordItem) (r : nat)
  : IO GameState :=
  match singleplayerSetup maxGuesses wordList r with
  | None => undefined
  | Some s =>
      print (Text (cstr "Welcome to Hangman!")) ;;;
      s' <- gameLoop s ;;
      lift (endGameDisplay s')
  end.

Fixpoint playSingleplayer_fuel (fuel : nat) (maxGuesses : Z) (wordList : list WordItem)
    (rand : nat -> nat) (k : nat) : IO unit :=
  match fuel with
  | O => fun _ => Timeout
  | S fuel' =>
      singleplayerRound maxGuesses wordList (rand k) ;;;
      again <- promptToPlayAgain ;;
      if again then playSingleplayer_fuel fuel' maxGuesses wordList rand (S k)
      else ret tt
  end.

(** [playSingleplayer] *)
Definition playSingleplayer (wordList : list WordItem) (rand : nat -> nat) : IO unit :=
  print (Text (cstr "Starting the singleplayer game")) ;;;
  maxGuesses <- setupDifficulty ;;
  fun inp => playSingleplayer_fuel (S (List.length inp)) maxGuesses wordList rand 0 inp.

(** ** Interactive two-player mode *)

(** Round setup of [playInteractiveMultiplayer]: the word and the hint that
    player 1 typed, converted to upper case. *)
Definition interactiveSetup (maxGuesses : Z) (w h : str) : GameState :=
  let s := newGameState maxGuesses in
  let s := set_chosenWord s w in
  let s := set_chosenHint s h in
  let s := set_chosenWord s (convertToUpper (chosenWord s)) in
  let s := set_chosenHint s (convertToUpper (chosenHint s)) in
  s.

Definition interactiveRound (maxGuesses : Z) : IO GameState :=
  print (Text (cstr "Welcome to Hangman Interactive Multiplayer!")) ;;;
  print (Text (cstr "Player 1, please enter the word to be guessed: ")) ;;;
  w <- getline ;;
  print (Text (cstr "Player 1, please enter a hint for the word: ")) ;;;
  h <- getline ;;
  print (Text (cstr "Player 2, you will now guess the word.")) ;;;
  s' <- gameLoop (interactiveSetup maxGuesses w h) ;;
  lift (endGameDisplay s').

Fixpoint playInteractiveMultiplayer_fuel (fuel : nat) (maxGuesses : Z) : IO unit :=
  match fuel with
  | O => fun _ => Timeout
  | S fuel' =>
      interactiveRound maxGuesses ;;;
      again <- promptToPlayAgain ;;
      if again then playInteractiveMultiplayer_fuel fuel' maxGuesses else ret tt
  end.

(** [playInteractiveMultiplayer] *)
Definition playInteractiveMultiplayer : IO unit :=
  maxGuesses <- setupDifficulty ;;
  fun inp => playInteractiveMultiplayer_fuel (S (List.length inp)) maxGuesses inp.

(** ** Two-player mode *)

(** [multiplayerEndGameDisplay] *)
Definition multiplayerEndGameDisplay (p : PlayerState) : Cout PlayerState :=
  let '(p1, out1) :=
    if wordGuessed (state p) then
      (set_totalWins p (Int.incr (totalWins p)),
       [PlayerCongratulationsMsg (playerName p) (chosenWord (state p))])
    else if incorrectGuesses (state p) =? maxGuesses (state p) then
      (set_totalLosses p (Int.incr (totalLosses p)),
       drawGallows (incorrectGuesses (state p)) (maxGuesses (state p))
         ++ [PlayerHangedMsg (playerName p) (chosenWord (state p))])
    else (p, [PlayerInvalidStateMsg (playerName p)]) in
  (p1, out1 ++ [PlayerRoundsMsg (playerName p1) (totalWins p1) (totalLosses p1)]).

(** [printMultiplayerStats] *)
Definition printMultiplayerStats (player1 player2 : PlayerState) : Cout unit :=
  (tt, [MultiplayerStatsMsg (totalWins player1) (totalLosses player1)
                            (totalWins player2) (totalLosses player2)]).

(** [multiplayerSetup]: one draw, the drawn word and hint copied into both
    states. *)
Definition multiplayerSetup (state1 state2 : GameState) (wordList : list WordItem) (r : nat)
  : option (GameState * GameState) :=
  match draw r (List.length wordList) with
  | None => None
  | Some wordIndex =>
      match at_index wordList wordIndex with
      | None => None
      | Some item =>
          let state1 := set_chosenWord state1 (word item) in
          let state1 := set_chosenHint state1 (hint item) in
          let state2 := set_chosenWord state2 (word item) in
          let state2 := set_chosenHint state2 (hint item) in
          Some (state1, state2)
      end
  end.

(** The body of [for (auto& currentPlayer : {&player1, &player2})] for one
    player.  The boolean tells whether the [break] was taken. *)
Definition playerTurn (currentPlayer : PlayerState) : IO (PlayerState * bool) :=
  if (negb (wordGuessed (state currentPlayer)) &&
      (incorrectGuesses (state currentPlayer) <? maxGuesses (state currentPlayer)))%bool
  then
    print (TurnMsg (playerName currentPlayer)) ;;;
    lift (displayGameState (state currentPlayer)) ;;;
    r <- processPlayerGuess (state currentPlayer) ;;
    let currentPlayer := set_state currentPlayer (snd r) in
    print (RemainingMsg (Int.sub (maxGuesses (state currentPlayer))
                                 (incorrectGuesses (state currentPlayer)))) ;;;
    if wordGuessed (state currentPlayer) then
      p <- lift (multiplayerEndGameDisplay currentPlayer) ;;
      ret (p, true)
    else if maxGuesses (state currentPlayer) <=? incorrectGuesses (state currentPlayer) then
      p <- lift (multiplayerEndGameDisplay currentPlayer) ;;
      ret (p, false)
    else ret (currentPlayer, false)
  else ret (currentPlayer, false).

(** One pass of the [for] loop over both players, followed by the update of
    [gameActive] that ends the body of [while (gameActive)]. *)
Definition turnCycle (player1 player2 : PlayerState)
  : IO (PlayerState * PlayerState * bool) :=
  t1 <- playerTurn player1 ;;
  let player1 := fst t1 in
  if snd t1 then
    (* gameActive = false; break; *)
    ret (player1, player2, (false && (active (state player1) || active (state player2)))%bool)
  else
    t2 <- playerTurn player2 ;;
    let player2 := fst t2 in
    if snd t2 then
      ret (player1, player2, (false && (active (state player1) || active (state player2)))%bool)
    else
      ret (player1, player2, (true && (active (state player1) || active (state player2)))%bool).

(** [while (gameActive)] *)
Fixpoint multiplayerRound_fuel (fuel : nat) (player1 player2 : PlayerState)
  : IO (PlayerState * PlayerState) :=
  match fuel with
  | O => fun _ => Timeout
  | S fuel' =>
      c <- turnCycle player1 player2 ;;
      let '(player1, player2, gameActive) := c in
      if gameActive then multiplayerRound_fuel fuel' player1 player2
      else ret (player1, player2)
  end.

(* a cycle that leaves the game active has read at least one line *)
Definition multiplayerRound (player1 player2 : PlayerState) : IO (PlayerState * PlayerState) :=
  fun inp => multiplayerRound_fuel (S (List.length inp)) player1 player2 inp.

(** The do-while loop of [playMultiplayer].  Its condition reads [playAgain],
    which the function never assigns: the value is a parameter here. *)
Fixpoint playMultiplayer_fuel (fuel : nat) (maxGuesses : Z) (wordList : list WordItem)
    (rand : nat -> nat) (k : nat) (playAgain : bool) (player1 player2 : PlayerState)
  : IO unit :=
  match fuel with
  | O => fun _ => Timeout
  | S fuel' =>
      print (Text (cstr "Welcome to Hangman Multiplayer!")) ;;;
      ps <- multiplayerRound player1 player2 ;;
      let '(player1, player2) := ps in
      lift (printMultiplayerStats player1 player2) ;;;
      again <- promptToPlayAgain ;;
      if again then
        match multiplayerSetup (newGameState maxGuesses) (newGameState maxGuesses)
                               wordList (rand k) with
        | None => undefined
        | Some (s1, s2) =>
            if playAgain then
              playMultiplayer_fuel fuel' maxGuesses wordList rand (S k) playAgain
                (set_state player1 s1) (set_state player2 s2)
            else ret tt
        end
      else ret tt
  end.

(** [playMultiplayer] *)
Definition playMultiplayer (wordList : list WordItem) (rand : nat -> nat) (playAgain : bool)
  : IO unit :=
  maxGuesses <- setupDifficulty ;;
  let player1 := newPlayerState (newGameState maxGuesses) (cstr "Player 1") in
  let player2 := newPlayerState (newGameState maxGuesses) (cstr "Player 2") in
  match multiplayerSetup (state player1) (state player2) wordList (rand 0%nat) with
  | None => undefined
  | Some (s1, s2) =>
      fun inp =>
        playMultiplayer_fuel (S (List.length inp)) maxGuesses wordList rand 1 playAgain
          (set_state player1 s1) (set_state player2 s2) inp
  end.

(** The start of a two-player round as [playMultiplayer] builds it. *)
Definition multiplayerStart (maxGuesses : Z) (wordList : list WordItem) (r : nat)
  : option (PlayerState * PlayerState) :=
  let player1 := newPlayerState (newGameState maxGuesses) (cstr "Player 1") in
  let player2 := newPlayerState (newGameState maxGuesses) (cstr "Player 2") in
  match multiplayerSetup (state player1) (state player2) wordList r with
  | None => None
  | Some (s1, s2) => Some (set_state player1 s1, set_state player2 s2)
  end.

(** ** The word file *)

(** The file named by [filename].  Opening it for reading fails when it is
    absent or access is denied; opening it for appending creates it when
    absent and fails when access is denied. *)
Inductive FileState : Type :=
| Absent
| Present (content : str)
| Denied.

Definition open_for_read (f : FileState) : option str :=
  match f with Present content => Some content | _ => None end.

Definition open_for_append (f : FileState) : option str :=
  match f with Absent => Some [] | Present content => Some content | Denied => None end.

Definition newline : ascii := "010"%char.

(** The lines that [while (getline(inputFile, line))] reads: the text before
    each newline, and the text after the last newline when there is some. *)
Fixpoint file_lines (content : str) : list str :=
  match content with
  | [] => []
  | c :: content' =>
      if char_eqb c newline then [] :: file_lines content'
      else match file_lines content' with
           | [] => [[c]]
           | line :: lines => (c :: line) :: lines
           end
  end.

(** [readIntoWordItem] with its file: a file that cannot be opened leaves
    the list as it is. *)
Definition readIntoWordItem_file (wordList : list WordItem) (f : FileState)
  : Cout (list WordItem) :=
  match open_for_read f with
  | None => (wordList, [Text (cstr "Failed to open file: data.csv")])
  | Some content => (readIntoWordItem wordList (file_lines content), [])
  end.

(** [displayWords]: every line of the file is printed as it is. *)
Definition displayWords (f : FileState) : Cout unit :=
  match open_for_read f with
  | None => (tt, [Text (cstr "Failed to open file for reading: data.csv")])
  | Some content =>
      (tt, Text (cstr "Existing Words and Hints:") :: map Text (file_lines content))
  end.

(** [appendWord]: the file is opened first; the word and the hint are then
    read, converted to upper case and written after a newline. *)
Definition appendWord (f : FileState) : IO FileState :=
  match open_for_append f with
  | None =>
      print (Text (cstr "Failed to open file for appending: data.csv")) ;;; ret f
  | Some content =>
      print (Text (cstr "Enter a new word: ")) ;;;
      w <- getline ;;
      print (Text (cstr "Enter a hint for the word: ")) ;;;
      h <- getline ;;
      print (Text (cstr "New word and hint added successfully.")) ;;;
      ret (Present (content ++ [newline] ++ appendWord_line w h))
  end.

(** [clearInputBuffer]: [cin.ignore] up to the next newline drops one line. *)
Definition clearInputBuffer : IO unit := fun inp => Ret tt (tl inp) [].

(** [manageWordList] *)
Definition manage_prompt : str := cstr "Choose an option (1-View, 2-Add, 3-Return):".

Fixpoint manageWordList_fuel (fuel : nat) (f : FileState) : IO FileState :=
  match fuel with
  | O => fun _ => Timeout
  | S fuel' =>
      print (Text (cstr "Word List Management: 1. View Words 2. Add Word 3. Return to Main Menu")) ;;;
      choice <- getValidatedInput manage_prompt (cstr "123") ;;
      r <- (if char_eqb choice "1"%char then
              lift (displayWords f) ;;; ret (f, true)
            else if char_eqb choice "2"%char then
              f' <- appendWord f ;; ret (f', true)
            else if char_eqb choice "3"%char then
              ret (f, false)
            else
              print (Text (cstr "Invalid option selected. Please try again.")) ;;;
              ret (f, true)) ;;
      (if (char_eqb choice "1"%char || char_eqb choice "2"%char)%bool then
         print (Text (cstr "Press enter to continue...")) ;;; clearInputBuffer
       else ret tt) ;;;
      if snd r then manageWordList_fuel fuel' (fst r) else ret (fst r)
  end.

(* every pass reads at least one line *)
Definition manageWordList (f : FileState) : IO FileState :=
  fun inp => manageWordList_fuel (S (List.length inp)) f inp.

(** ** The main menu *)

(** [enum GameMode] *)
Inductive GameMode : Type :=
| EXIT_GAME
| SINGLE_PLAYER
| TWO_PLAYER
| INTERACTIVE_TWO_PLAYER
| MANAGE_WORDLIST.

Definition menu_prompt : str :=
  cstr "Select a game mode: 1. Single Player 2. Two Player 3. Interactive Two Player 4. Manage Word List ['0'to exit]".

Definition invalid_mode_msg : Output :=
  Text (cstr "Invalid game mode selected. Defaulting to Single Player.").

Definition invalid_level_msg : Output :=
  Text (cstr "Invalid input. Defaulting to Noob level (8 guesses).").

(** [modeMenu]: the choice is the character returned minus ['0']. *)
Definition modeMenu : IO GameMode :=
  print (Text (cstr "Welcome to Hangman!")) ;;;
  c <- getValidatedInput menu_prompt (cstr "01234") ;;
  let choice := Z.of_nat (nat_of_ascii c) - 48 in
  if choice =? 0 then ret EXIT_GAME
  else if choice =? 1 then ret SINGLE_PLAYER
  else if choice =? 2 then ret TWO_PLAYER
  else if choice =? 3 then ret INTERACTIVE_TWO_PLAYER
  else if choice =? 4 then ret MANAGE_WORDLIST
  else print invalid_mode_msg ;;; ret SINGLE_PLAYER.

(** [playGame].  The list of words is the one it was given, for every game
    of the run; only [manageWordList] touches the file.  The draws of the
    k-th mode run are [rand k], and [playAgain k] is what its unassigned
    variable holds. *)
Definition runMode (wordList : list WordItem) (rand : nat -> nat) (playAgain : bool)
    (mode : GameMode) (f : FileState) : IO FileState :=
  match mode with
  | SINGLE_PLAYER => playSingleplayer wordList rand ;;; ret f
  | TWO_PLAYER => playMultiplayer wordList rand playAgain ;;; ret f
  | INTERACTIVE_TWO_PLAYER => playInteractiveMultiplayer ;;; ret f
  | MANAGE_WORDLIST => manageWordList f
  | EXIT_GAME => ret f
  end.

Fixpoint playGame_fuel (fuel : nat) (wordList : list WordItem)
    (rand : nat -> nat -> nat) (playAgain : nat -> bool) (k : nat)
    (mode : GameMode) (f : FileState) : IO FileState :=
  match fuel with
  | O => fun _ => Timeout
  | S fuel' =>
      match mode with
      | EXIT_GAME => print (Text (cstr "Thank you for playing!")) ;;; ret f
      | _ =>
          f' <- runMode wordList (rand k) (playAgain k) mode f ;;
          mode' <- modeMenu ;;
          playGame_fuel fuel' wordList rand playAgain (S k) mode' f'
      end
  end.

Definition playGame (wordList : list WordItem) (rand : nat -> nat -> nat)
    (playAgain : nat -> bool) (f : FileState) : IO FileState :=
  mode <- modeMenu ;;
  fun inp => playGame_fuel (S (List.length inp)) wordList rand playAgain 0 mode f inp.

(** [main]: the word list is read once, before the menu. *)
Definition main (rand : nat -> nat -> nat) (playAgain : nat -> bool) (f : FileState)
  : IO FileState :=
  wordList <- lift (readIntoWordItem_file [] f) ;;
  playGame wordList rand playAgain f.

(** ** Notions used in the statements *)

Close Scope io_scope.

(** The state that a letter guess leaves, and the state after a sequence of
    letter guesses made one after the other. *)
Definition afterLetter (s : GameState) (c : ascii) : GameState :=
  snd (fst (handleCharacterGuess s c)).

Definition afterLetters (s : GameState) (letters : list ascii) : GameState :=
  fold_left afterLetter letters s.

(** The full-word guess as [processPlayerGuess] makes it: the typed line is
    converted to upper case and handed to [wordGuess]. *)
Definition fullWordGuess (s : GameState) (line : str) : Cout (bool * GameState) :=
  wordGuess s (convertToUpper line).

(** The three ways a letter guess can go.  [handleCharacterGuess] returns a
    boolean, false for two of them; the message printed tells them apart. *)
Inductive GuessResult : Type := AlreadyGuessed | Correct | Incorrect.

Definition guessResult (s : GameState) (c : ascii) : option GuessResult :=
  match snd (handleCharacterGuess s c) with
  | [AlreadyGuessedMsg _] => Some AlreadyGuessed
  | [LetterCorrectMsg _] => Some Correct
  | [LetterIncorrectMsg _] => Some Incorrect
  | _ => None
  end.

(** A round start: nothing guessed, no incorrect guess, word not guessed. *)
Definition roundStart (s : GameState) : Prop :=
  guessedLetters s = [] /\ incorrectGuesses s = 0 /\ wordGuessed s = false.

(** Every character of the word is among the guessed letters. *)
Definition allGuessed (s : GameState) : Prop :=
  forall ch : ascii, In ch (chosenWord s) -> In ch (guessedLetters s).

(** The letters of a sequence are correct guesses: each occurs in the word,
    none was guessed before and none is repeated. *)
Definition correctLetters (s : GameState) (letters : list ascii) : Prop :=
  NoDup letters /\
  forall c, In c letters -> In c (chosenWord s) /\ ~ In c (guessedLetters s).

(** No character of the string is a lower-case letter. *)
Definition upperCased (s : str) : Prop := existsb islower s = false.

(** The rate as the specification words it: zero when no round is recorded,
    otherwise the count divided by the total, times one hundred, in
    double-precision arithmetic. *)
Definition spec_rate (count total : Z) : double :=
  if total =? 0 then 0%float
  else PrimFloat.mul (PrimFloat.div (double_of_int count) (double_of_int total)) 100%float.

(** Input lines holding one letter each. *)
Definition lines_of (letters : list ascii) : list str := map (fun c => [c]) letters.

(** What one iteration of the single-player game loop prints for a letter
    guess, and what a two-player turn prints before the end-of-round
    report. *)
Definition letterTurnOutput (s : GameState) (c : ascii) : list Output :=
  snd (displayGameState s)
    ++ (Prompt guess_prompt :: snd (handleCharacterGuess s c))
    ++ (if negb (fst (fst (handleCharacterGuess s c)))
        then [RemainingMsg (Int.sub (maxGuesses (afterLetter s c))
                                    (incorrectGuesses (afterLetter s c)))]
        else []).

Definition turnOutput (p : PlayerState) (guessOut : list Output) (s' : GameState)
  : list Output :=
  TurnMsg (playerName p) :: snd (displayGameState (state p))
    ++ guessOut ++ [RemainingMsg (Int.sub (maxGuesses s') (incorrectGuesses s'))].

(** A computation that never runs out of steps and, when it returns, has
    read at least [n] lines. *)
Definition consumes {A : Type} (n : nat) (m : IO A) : Prop :=
  forall inp : list str,
    m inp <> Timeout /\
    forall a rest out, m inp = Ret a rest out ->
                       (List.length rest + n <= List.length inp)%nat.

(** All 256 characters. *)
Definition all_chars : list ascii := map ascii_of_nat (seq 0 256).

(** ** Example rounds *)

(** The round of the spec's examples: the word CAT typed in lower case, a
    fresh state, no incorrect guess yet, eight allowed. *)
Definition fresh_cat : GameState := interactiveSetup 8 (cstr "cat") (cstr "a pet").

(** A word list of three entries. *)
Definition small_catalog : list WordItem :=
  [ mkWordItem (cstr "DOG") (cstr "BARKS");
    mkWordItem (cstr "CAT") (cstr "PURRS");
    mkWordItem (cstr "ZEBRA") (cstr "AFRICAN ANIMAL") ].

(** A state about to record its third win, one loss recorded; and one about
    to record its first win, two losses recorded. *)
Definition third_win : GameState :=
  set_wordGuessed (set_lostRounds (set_wonRounds fresh_cat 2) 1) true.

Definition one_win_two_losses : GameState :=
  set_wordGuessed (set_lostRounds fresh_cat 2) true.

(** ** Notions used in the further properties *)

(** The test that the loop of [getValidatedInput] makes on one line: the
    character it returns for a line it accepts, nothing for a line it
    rejects. *)
Definition accepted (validOptions : str) (input : str) : option ascii :=
  if (isdigit (front input) && contains validOptions (front input))%bool then
    Some (front input)
  else if ((List.length input =? 1)%nat &&
           (contains validOptions (toupper (front input))
            || char_eqb (front input) "1"%char))%bool then
    Some (toupper (front input))
  else None.

(** The line that a list entry comes from. *)
Definition entry_line (item : WordItem) : str := word item ++ ","%char :: hint item.

(** The file holds what it held, or that followed by appended text; a file
    that is absent counts as empty once it is created. *)
Definition file_grows (f f' : FileState) : Prop :=
  f' = f \/
  exists content added : str,
    open_for_append f = Some content /\ f' = Present (content ++ added) /\
    upperCased added.

(** All guessed letters are letters of the alphabet. *)
Definition lettersValid (s : GameState) : Prop :=
  Forall (fun c => In c ALPHABET) (guessedLetters s).

(** The tallies of a player after a round against those before it, by the
    outcome of the player's round. *)
Definition tallyMatches (before after : PlayerState) : Prop :=
  match outcome (state after) with
  | Unresolved =>
      totalWins after = totalWins before /\ totalLosses after = totalLosses before
  | Won =>
      totalWins after = Int.incr (totalWins before) /\
      totalLosses after = totalLosses before
  | Lost =>
      totalWins after = totalWins before /\
      totalLosses after = Int.incr (totalLosses before) /\
      incorrectGuesses (state after) = maxGuesses (state after)
  end.

(** The invariant of a round that the game loops keep: word, hint, maximum
    and round counters stay, the count of incorrect guesses stays between
    its start and the maximum, and the guessed letters are distinct letters
    of the alphabet. *)
Definition roundInvariant (s0 s : GameState) : Prop :=
  chosenWord s = chosenWord s0 /\ chosenHint s = chosenHint s0 /\
  maxGuesses s = maxGuesses s0 /\
  wonRounds s = wonRounds s0 /\ lostRounds s = lostRounds s0 /\
  incorrectGuesses s0 <= incorrectGuesses s <= maxGuesses s0 /\
  lettersValid s /\ NoDup (guessedLetters s).

(** The report of a state that has counted one round and no more: one win
    and a win rate of 100, or one loss and a loss rate of 100. *)
Definition oneRoundReport (s : GameState) : Prop :=
  outcome s = Won /\ wonRounds s = 1 /\ lostRounds s = 0 /\ totalRounds s = 1 /\
    winRate s = 100%float /\ lossRate s = 0%float
  \/
  outcome s = Lost /\ wonRounds s = 0 /\ lostRounds s = 1 /\ totalRounds s = 1 /\
    winRate s = 0%float /\ lossRate s = 100%float.

(** A message other than the one for an invalid game state. *)
Definition notInvalidState (o : Output) : Prop :=
  match o with PlayerInvalidStateMsg _ => False | _ => True end.

(** A player who can play: the round is open, the count of incorrect guesses
    is not negative and the maximum is an [int]. *)
Definition playable (p : PlayerState) : Prop :=
  outcome (state p) = Unresolved /\
  0 <= incorrectGuesses (state p) /\ maxGuesses (state p) <= Int.INT_MAX.

(** The two players of a round on the word DOG with four incorrect guesses
    allowed, as [playMultiplayer] sets them up. *)
Definition dog_state : GameState :=
  set_chosenHint (set_chosenWord (newGameState 4) (cstr "DOG")) (cstr "BARKS").

Definition dog_player1 : PlayerState :=
  set_state (newPlayerState (newGameState 4) (cstr "Player 1")) dog_state.

Definition dog_player2 : PlayerState :=
  set_state (newPlayerState (newGameState 4) (cstr "Player 2")) dog_state.

(** A player whose word holds a lower-case letter and is not guessed, with
    letters of the alphabet as guessed letters. *)
Definition stuckOnLowerCase (p : PlayerState) : Prop :=
  wordGuessed (state p) = false /\ lettersValid (state p) /\
  existsb islower (chosenWord (state p)) = true.

(** The two players of a round on the lower-case entry cat, two incorrect
    guesses allowed, as [playMultiplayer] sets them up. *)
Definition cat_lower_state : GameState :=
  set_chosenHint (set_chosenWord (newGameState 2) (cstr "cat")) (cstr "a pet").

Definition cat_lower_player1 : PlayerState :=
  set_state (newPlayerState (newGameState 2) (cstr "Player 1")) cat_lower_state.

Definition cat_lower_player2 : PlayerState :=
  set_state (newPlayerState (newGameState 2) (cstr "Player 2")) cat_lower_state.


(** The letters of a sequence of guesses that are new when they are guessed,
    in the order of their first guess, given the letters guessed before. *)
Fixpoint newLetters (seen : str) (letters : list ascii) : str :=
  match letters with
  | [] => []
  | c :: letters' =>
      if contains seen c then newLetters seen letters'
      else c :: newLetters (seen ++ [c]) letters'
  end.

(** The letters among them that are not in the word. *)
Definition wrongLetters (s : GameState) (letters : list ascii) : str :=
  filter (fun c => negb (contains (chosenWord s) c)) (newLetters (guessedLetters s) letters).

(** * Properties *)

(** ** Integers and strings *)

Lemma Int_wrap_id (z : Z) : Int.in_range z -> Int.wrap z = z.
Proof.
  unfold Int.in_range, Int.wrap, Int.INT_MIN, Int.INT_MAX; intros H.
  rewrite Z.mod_small by lia. lia.
Qed.

Lemma Int_wrap_range (z : Z) : Int.in_range (Int.wrap z).
Proof.
  unfold Int.in_range, Int.wrap, Int.INT_MIN, Int.INT_MAX.
  pose proof (Z.mod_pos_bound (z + 2147483648) 4294967296 ltac:(lia)). lia.
Qed.

Lemma Int_incr_small (z : Z) : Int.INT_MIN <= z < Int.INT_MAX -> Int.incr z = z + 1.
Proof.
  intros H. unfold Int.incr, Int.add. apply Int_wrap_id.
  unfold Int.in_range, Int.INT_MIN, Int.INT_MAX in *. lia.
Qed.

Lemma contains_In (s : str) (c : ascii) : contains s c = true <-> In c s.
Proof.
  unfold contains, char_eqb. rewrite existsb_exists. split.
  - intros [x [Hin Heq]]. apply Ascii.eqb_eq in Heq. now subst.
  - intros Hin. exists c. split; [assumption | apply Ascii.eqb_refl].
Qed.

Lemma contains_false (s : str) (c : ascii) : contains s c = false <-> ~ In c s.
Proof.
  rewrite <- contains_In. destruct (contains s c); split; congruence.
Qed.

Lemma find_contains (s : str) (c : ascii) :
  contains s c = match find s c with Some _ => true | None => false end.
Proof.
  induction s as [|x s IH]; simpl; [reflexivity|].
  unfold char_eqb at 1. rewrite Ascii.eqb_sym. fold (char_eqb x c).
  destruct (char_eqb x c); simpl; [reflexivity|].
  fold (contains s c). rewrite IH. now destruct (find s c).
Qed.

Lemma str_eqb_eq (a b : str) : str_eqb a b = true <-> a = b.
Proof.
  revert b. induction a as [|x a IH]; intros [|y b]; simpl;
    try (split; congruence).
  rewrite andb_true_iff, IH. unfold char_eqb. rewrite Ascii.eqb_eq.
  split; [intros []; congruence | intros H; inversion H; auto].
Qed.

Lemma str_eqb_neq (a b : str) : str_eqb a b = false <-> a <> b.
Proof.
  rewrite <- str_eqb_eq. destruct (str_eqb a b); split; congruence.
Qed.

(** ** Characters *)

Lemma toupper_not_lower (c : ascii) : islower (toupper c) = false.
Proof. destruct c as [[] [] [] [] [] [] [] []]; reflexivity. Qed.

Lemma toupper_idempotent (c : ascii) : toupper (toupper c) = toupper c.
Proof. destruct c as [[] [] [] [] [] [] [] []]; reflexivity. Qed.

Lemma convertToUpper_no_lower (s : str) : existsb islower (convertToUpper s) = false.
Proof.
  induction s as [|c s IH]; simpl; [reflexivity|].
  now rewrite toupper_not_lower, IH.
Qed.

Lemma convertToUpper_length (s : str) : List.length (convertToUpper s) = List.length s.
Proof. apply length_map. Qed.

Lemma all_chars_complete (c : ascii) : In c all_chars.
Proof.
  unfold all_chars. rewrite <- (ascii_nat_embedding c).
  apply in_map, in_seq. pose proof (nat_ascii_bounded c). lia.
Qed.

(** A list of characters without repetition has at most 256 elements. *)
Lemma NoDup_chars_length (l : list ascii) : NoDup l -> (List.length l <= 256)%nat.
Proof.
  intros H.
  replace 256%nat with (List.length all_chars)
    by (unfold all_chars; now rewrite length_map, length_seq).
  apply NoDup_incl_length; [assumption|].
  intros c _. apply all_chars_complete.
Qed.

(** ** The state after a guess *)

Lemma afterLetters_app (s : GameState) (l1 l2 : list ascii) :
  afterLetters s (l1 ++ l2) = afterLetters (afterLetters s l1) l2.
Proof. apply fold_left_app. Qed.

Lemma afterLetters_cons (s : GameState) (c : ascii) (l : list ascii) :
  afterLetters s (c :: l) = afterLetters (afterLetter s c) l.
Proof. reflexivity. Qed.

Lemma afterLetters_snoc (s : GameState) (c : ascii) (l : list ascii) :
  afterLetters s (l ++ [c]) = afterLetter (afterLetters s l) c.
Proof. now rewrite afterLetters_app. Qed.

(** The three cases of [handleCharacterGuess], one equation each. *)
Lemma handle_already (s : GameState) (c : ascii) :
  In c (guessedLetters s) ->
  handleCharacterGuess s c = ((false, s), [AlreadyGuessedMsg c]).
Proof.
  intros H. unfold handleCharacterGuess.
  apply contains_In in H. now rewrite H.
Qed.

Lemma handle_incorrect (s : GameState) (c : ascii) :
  ~ In c (guessedLetters s) -> ~ In c (chosenWord s) ->
  handleCharacterGuess s c =
    ((false, set_incorrectGuesses (set_guessedLetters s (guessedLetters s ++ [c]))
               (Int.incr (incorrectGuesses s))),
     [LetterIncorrectMsg c]).
Proof.
  intros Hg Hw. unfold handleCharacterGuess.
  apply contains_false in Hg. apply contains_false in Hw.
  rewrite Hg. simpl. now rewrite Hw.
Qed.

Lemma handle_correct (s : GameState) (c : ascii) :
  ~ In c (guessedLetters s) -> In c (chosenWord s) ->
  handleCharacterGuess s c =
    (checkWordGuessed (set_guessedLetters s (guessedLetters s ++ [c])),
     [LetterCorrectMsg c]).
Proof.
  intros Hg Hw. unfold handleCharacterGuess.
  apply contains_false in Hg. apply contains_In in Hw.
  rewrite Hg. simpl. now rewrite Hw.
Qed.

(** What no letter guess touches. *)
Lemma afterLetter_frame (s : GameState) (c : ascii) :
  chosenWord (afterLetter s c) = chosenWord s /\
  chosenHint (afterLetter s c) = chosenHint s /\
  maxGuesses (afterLetter s c) = maxGuesses s.
Proof.
  unfold afterLetter, handleCharacterGuess, checkWordGuessed.
  destruct (contains (guessedLetters s) c); simpl; [auto|].
  destruct (contains (chosenWord s) c); simpl; [|auto].
  match goal with |- context [if ?b then _ else _] => destruct b end; simpl; auto.
Qed.

Lemma afterLetters_frame (s : GameState) (l : list ascii) :
  chosenWord (afterLetters s l) = chosenWord s /\
  chosenHint (afterLetters s l) = chosenHint s /\
  maxGuesses (afterLetters s l) = maxGuesses s.
Proof.
  revert s. induction l as [|c l IH]; intros s; [simpl; auto|].
  rewrite afterLetters_cons.
  destruct (IH (afterLetter s c)) as (Hw & Hh & Hm).
  destruct (afterLetter_frame s c) as (Hw' & Hh' & Hm').
  repeat split; congruence.
Qed.

(** The guessed letters after one guess. *)
Lemma afterLetter_guessed (s : GameState) (c : ascii) :
  guessedLetters (afterLetter s c) =
    if contains (guessedLetters s) c then guessedLetters s else guessedLetters s ++ [c].
Proof.
  unfold afterLetter, handleCharacterGuess, checkWordGuessed.
  destruct (contains (guessedLetters s) c); simpl; [reflexivity|].
  destruct (contains (chosenWord s) c); simpl; [|reflexivity].
  match goal with |- context [if ?b then _ else _] => destruct b end; reflexivity.
Qed.

(** ** Input lines that [getValidatedInput] accepts *)

Lemma alphabet_letter_accepted (c : ascii) (rest : list str) :
  In c ALPHABET ->
  getValidatedInput guess_prompt ALPHABET ([c] :: rest) = Ret c rest [Prompt guess_prompt].
Proof.
  intros H. unfold getValidatedInput.
  assert (E : getValidatedInput_loop ALPHABET ([c] :: rest) = Ret c rest []).
  { unfold ALPHABET in H. simpl in H.
    repeat (destruct H as [H | H]; [subst c; reflexivity|]). contradiction. }
  now rewrite E.
Qed.

Lemma alphabet_letter_not_one (c : ascii) : In c ALPHABET -> char_eqb c "1"%char = false.
Proof.
  intros H. unfold ALPHABET in H. simpl in H.
  repeat (destruct H as [H | H]; [subst c; reflexivity|]). contradiction.
Qed.

(** A line holding one letter of the alphabet makes [processPlayerGuess] a
    letter guess. *)
Lemma processPlayerGuess_letter (s : GameState) (c : ascii) (rest : list str) :
  In c ALPHABET ->
  processPlayerGuess s ([c] :: rest) =
    Ret (fst (handleCharacterGuess s c)) rest
        (Prompt guess_prompt :: snd (handleCharacterGuess s c)).
Proof.
  intros H. unfold processPlayerGuess, bind.
  rewrite (alphabet_letter_accepted c rest H).
  now rewrite (alphabet_letter_not_one c H).
Qed.

(** The line [1] followed by a line of text makes it a full-word guess. *)
Lemma processPlayerGuess_word (s : GameState) (line : str) (rest : list str) :
  processPlayerGuess s (cstr "1" :: line :: rest) =
    Ret (fst (fullWordGuess s line)) rest
        ([Prompt guess_prompt; Text (cstr "Type your guess for the word.")]
           ++ snd (fullWordGuess s line)).
Proof. reflexivity. Qed.

(** ** Full-word guesses *)

Lemma outcome_Unresolved (s : GameState) :
  outcome s = Unresolved <-> wordGuessed s = false /\ incorrectGuesses s < maxGuesses s.
Proof.
  unfold outcome. destruct (wordGuessed s).
  - split; [discriminate | intros []; discriminate].
  - destruct (Z.leb_spec (maxGuesses s) (incorrectGuesses s)).
    + split; [discriminate | intros []; lia].
    + split; [intros _; split; [reflexivity | assumption] | reflexivity].
Qed.

Lemma outcome_Lost (s : GameState) :
  outcome s = Lost <-> wordGuessed s = false /\ maxGuesses s <= incorrectGuesses s.
Proof.
  unfold outcome. destruct (wordGuessed s).
  - split; [discriminate | intros []; discriminate].
  - destruct (Z.leb_spec (maxGuesses s) (incorrectGuesses s)).
    + split; [intros _; split; [reflexivity | assumption] | reflexivity].
    + split; [discriminate | intros []; lia].
Qed.

Lemma outcome_Won (s : GameState) : outcome s = Won <-> wordGuessed s = true.
Proof.
  unfold outcome. destruct (wordGuessed s); [split; reflexivity|].
  destruct (maxGuesses s <=? incorrectGuesses s); split; discriminate.
Qed.

Lemma active_Unresolved (s : GameState) : active s = true <-> outcome s = Unresolved.
Proof.
  rewrite outcome_Unresolved. unfold active.
  rewrite andb_true_iff, Z.ltb_lt, negb_true_iff. tauto.
Qed.

(** C1.  In an unresolved round, a full-word guess whose upper-cased text
    differs from the target returns false, sets the count of incorrect
    guesses to the maximum and leaves the round lost, whatever the count was
    before.  This is what [processPlayerGuess] does on the input lines [1]
    and the candidate. *)
Theorem wrong_word_guess_loses_round (s : GameState) (candidate : str) (rest : list str) :
  outcome s = Unresolved ->
  convertToUpper candidate <> chosenWord s ->
  exists s' : GameState,
    wordGuess s (convertToUpper candidate) = ((false, s'), [WordIncorrectMsg (chosenWord s)]) /\
    processPlayerGuess s (cstr "1" :: candidate :: rest) =
      Ret (false, s') rest
          [Prompt guess_prompt; Text (cstr "Type your guess for the word.");
           WordIncorrectMsg (chosenWord s)] /\
    incorrectGuesses s' = maxGuesses s /\
    maxGuesses s' = maxGuesses s /\
    outcome s' = Lost.
Proof.
  intros Hu Hne.
  apply outcome_Unresolved in Hu. destruct Hu as [Hw _].
  apply str_eqb_neq in Hne.
  exists (set_incorrectGuesses s (maxGuesses s)).
  assert (E : wordGuess s (convertToUpper candidate) =
              ((false, set_incorrectGuesses s (maxGuesses s)),
               [WordIncorrectMsg (chosenWord s)])).
  { unfold wordGuess. now rewrite Hne. }
  split; [exact E|].
  split.
  { rewrite processPlayerGuess_word. unfold fullWordGuess. now rewrite E. }
  split; [reflexivity|]. split; [reflexivity|].
  apply outcome_Lost. simpl. split; [assumption | lia].
Qed.

Lemma wrong_word_guess_loses_round_witness :
  outcome fresh_cat = Unresolved /\
  incorrectGuesses fresh_cat = 0 /\
  exists s' : GameState,
    wordGuess fresh_cat (convertToUpper (cstr "dog")) =
      ((false, s'), [WordIncorrectMsg (chosenWord fresh_cat)]) /\
    processPlayerGuess fresh_cat [cstr "1"; cstr "dog"] =
      Ret (false, s') []
          [Prompt guess_prompt; Text (cstr "Type your guess for the word.");
           WordIncorrectMsg (chosenWord fresh_cat)] /\
    incorrectGuesses s' = maxGuesses fresh_cat /\
    maxGuesses s' = maxGuesses fresh_cat /\
    outcome s' = Lost.
Proof.
  split; [reflexivity|]. split; [reflexivity|].
  apply (wrong_word_guess_loses_round fresh_cat (cstr "dog") []).
  - reflexivity.
  - vm_compute. discriminate.
Defined.

(** ** Repeated letters *)

(** C5.  Guessing a letter that is already among the guessed letters prints
    the no-penalty message, returns false and leaves the whole state as it
    was: the count of incorrect guesses, the guessed letters and the outcome
    are those of before, whether the letter is in the word or not. *)
Theorem repeated_letter_changes_nothing (s : GameState) (c : ascii) :
  In c (guessedLetters s) ->
  handleCharacterGuess s c = ((false, s), [AlreadyGuessedMsg c]) /\
  guessResult s c = Some AlreadyGuessed /\
  afterLetter s c = s /\
  incorrectGuesses (afterLetter s c) = incorrectGuesses s /\
  guessedLetters (afterLetter s c) = guessedLetters s /\
  outcome (afterLetter s c) = outcome s.
Proof.
  intros H.
  assert (E := handle_already s c H).
  assert (E' : afterLetter s c = s) by (unfold afterLetter; now rewrite E).
  split; [exact E|]. split; [unfold guessResult; now rewrite E|].
  rewrite E'. repeat split.
Qed.

Lemma repeated_letter_changes_nothing_witness :
  let s := afterLetters fresh_cat [ "C"; "Z" ]%char in
  In "Z"%char (guessedLetters s) /\
  handleCharacterGuess s "Z" = ((false, s), [AlreadyGuessedMsg "Z"]) /\
  guessResult s "Z" = Some AlreadyGuessed /\
  afterLetter s "Z" = s /\
  incorrectGuesses (afterLetter s "Z") = incorrectGuesses s /\
  guessedLetters (afterLetter s "Z") = guessedLetters s /\
  outcome (afterLetter s "Z") = outcome s.
Proof.
  split.
  - vm_compute. auto.
  - apply (repeated_letter_changes_nothing (afterLetters fresh_cat [ "C"; "Z" ]%char) "Z").
    vm_compute. auto.
Defined.

(** After any letter guess the letter is among the guessed letters, so the
    same guess made again is a repeated one. *)
Lemma afterLetter_In (s : GameState) (c : ascii) : In c (guessedLetters (afterLetter s c)).
Proof.
  rewrite afterLetter_guessed.
  destruct (contains (guessedLetters s) c) eqn:E.
  - now apply contains_In.
  - apply in_or_app. right. now left.
Qed.

Lemma second_guess_is_repeated (s : GameState) (c : ascii) :
  handleCharacterGuess (afterLetter s c) c =
    ((false, afterLetter s c), [AlreadyGuessedMsg c]).
Proof. apply handle_already, afterLetter_In. Qed.

(** ** The guessed letters *)

Lemma afterLetter_NoDup (s : GameState) (c : ascii) :
  NoDup (guessedLetters s) -> NoDup (guessedLetters (afterLetter s c)).
Proof.
  intros H. rewrite afterLetter_guessed.
  destruct (contains (guessedLetters s) c) eqn:E; [assumption|].
  apply contains_false in E.
  apply NoDup_rev in H. rewrite <- (rev_involutive (guessedLetters s ++ [c])).
  apply NoDup_rev. rewrite rev_app_distr. simpl.
  constructor; [|assumption]. now rewrite <- in_rev.
Qed.

Lemma afterLetter_extends (s : GameState) (c : ascii) :
  exists added : str,
    guessedLetters (afterLetter s c) = guessedLetters s ++ added /\ incl added [c].
Proof.
  rewrite afterLetter_guessed.
  destruct (contains (guessedLetters s) c).
  - exists []. split; [now rewrite app_nil_r | intros x []].
  - exists [c]. split; [reflexivity | apply incl_refl].
Qed.

Lemma afterLetters_extends (s : GameState) (l : list ascii) :
  exists added : str,
    guessedLetters (afterLetters s l) = guessedLetters s ++ added /\ incl added l.
Proof.
  revert s. induction l as [|c l IH]; intros s.
  - exists []. split; [simpl; now rewrite app_nil_r | intros x []].
  - rewrite afterLetters_cons.
    destruct (IH (afterLetter s c)) as (a2 & E2 & I2).
    destruct (afterLetter_extends s c) as (a1 & E1 & I1).
    exists (a1 ++ a2). split.
    + rewrite E2, E1. now rewrite app_assoc.
    + intros x Hx. apply in_app_or in Hx. destruct Hx as [Hx | Hx].
      * apply I1 in Hx. destruct Hx as [<- | []]. now left.
      * right. now apply I2.
Qed.

Lemma afterLetters_NoDup (s : GameState) (l : list ascii) :
  NoDup (guessedLetters s) -> NoDup (guessedLetters (afterLetters s l)).
Proof.
  revert s. induction l as [|c l IH]; intros s H; [assumption|].
  rewrite afterLetters_cons. apply IH. now apply afterLetter_NoDup.
Qed.

Lemma wordGuess_guessed (s : GameState) (w : str) :
  guessedLetters (snd (fst (wordGuess s w))) = guessedLetters s.
Proof. unfold wordGuess. now destruct (str_eqb w (chosenWord s)). Qed.

(** Every round starts with no guessed letter. *)
Lemma round_starts_empty :
  (forall m, guessedLetters (newGameState m) = []) /\
  (forall m w h, guessedLetters (interactiveSetup m w h) = []) /\
  (forall m wl r s, singleplayerSetup m wl r = Some s -> guessedLetters s = []) /\
  (forall m wl r p1 p2, multiplayerStart m wl r = Some (p1, p2) ->
     guessedLetters (state p1) = [] /\ guessedLetters (state p2) = []).
Proof.
  split; [reflexivity|]. split; [reflexivity|]. split.
  - intros m wl r s. unfold singleplayerSetup.
    destruct (draw r (List.length wl)); [|discriminate].
    destruct (at_index wl z); [|discriminate].
    intros H. injection H as <-. reflexivity.
  - intros m wl r p1 p2. unfold multiplayerStart, multiplayerSetup. simpl.
    destruct (draw r (List.length wl)); [|discriminate].
    destruct (at_index wl z); [|discriminate].
    intros H. injection H as <- <-. split; reflexivity.
Qed.

(** C10.  The guessed letters never hold a letter twice and only grow: from
    a state whose guessed letters are duplicate-free (as the empty string of
    a round start is), any sequence of letter guesses leaves them
    duplicate-free and only appends to them; one guess appends nothing when
    the letter was there and exactly that letter otherwise; a full-word
    guess leaves them alone. *)
Theorem guessedLetters_duplicate_free_growing (s : GameState) (letters : list ascii) :
  NoDup (guessedLetters s) ->
  NoDup (guessedLetters (afterLetters s letters)) /\
  (exists added : str,
     guessedLetters (afterLetters s letters) = guessedLetters s ++ added /\
     incl added letters) /\
  (forall c : ascii,
     guessedLetters (afterLetter s c) =
       if contains (guessedLetters s) c then guessedLetters s
       else guessedLetters s ++ [c]) /\
  (forall w : str, guessedLetters (snd (fst (wordGuess s w))) = guessedLetters s).
Proof.
  intros H. split; [now apply afterLetters_NoDup|].
  split; [apply afterLetters_extends|].
  split; [apply afterLetter_guessed | apply wordGuess_guessed].
Qed.

Lemma guessedLetters_duplicate_free_growing_witness :
  let s := newGameState 8 in
  let letters := [ "C"; "Z"; "C"; "A"; "Z" ]%char in
  NoDup (guessedLetters s) /\
  NoDup (guessedLetters (afterLetters s letters)) /\
  (exists added : str,
     guessedLetters (afterLetters s letters) = guessedLetters s ++ added /\
     incl added letters) /\
  (forall c : ascii,
     guessedLetters (afterLetter s c) =
       if contains (guessedLetters s) c then guessedLetters s
       else guessedLetters s ++ [c]) /\
  (forall w : str, guessedLetters (snd (fst (wordGuess s w))) = guessedLetters s).
Proof.
  split.
  - simpl. constructor.
  - apply (guessedLetters_duplicate_free_growing (newGameState 8)
             [ "C"; "Z"; "C"; "A"; "Z" ]%char).
    simpl. constructor.
Defined.

(** ** Wrong letters and the loss threshold *)

Lemma wrong_letters_count (letters : list ascii) :
  forall s : GameState,
    NoDup letters ->
    (forall c, In c letters -> ~ In c (chosenWord s) /\ ~ In c (guessedLetters s)) ->
    Int.INT_MIN <= incorrectGuesses s ->
    incorrectGuesses s + Z.of_nat (List.length letters) <= Int.INT_MAX ->
    incorrectGuesses (afterLetters s letters)
      = incorrectGuesses s + Z.of_nat (List.length letters) /\
    wordGuessed (afterLetters s letters) = wordGuessed s /\
    guessedLetters (afterLetters s letters) = guessedLetters s ++ letters.
Proof.
  induction letters as [|c l IH]; intros s Hnd Hw Hlo Hhi.
  - simpl. rewrite app_nil_r. repeat split; lia.
  - rewrite afterLetters_cons.
    destruct (Hw c (or_introl eq_refl)) as [Hcw Hcg].
    assert (E : afterLetter s c =
                set_incorrectGuesses (set_guessedLetters s (guessedLetters s ++ [c]))
                  (Int.incr (incorrectGuesses s))).
    { unfold afterLetter. now rewrite (handle_incorrect s c Hcg Hcw). }
    assert (El : Z.of_nat (List.length (c :: l)) = Z.of_nat (List.length l) + 1)
      by (simpl List.length; lia).
    rewrite El in *.
    assert (Ei : Int.incr (incorrectGuesses s) = incorrectGuesses s + 1)
      by (apply Int_incr_small; lia).
    inversion Hnd as [|? ? Hnotin Hnd']; subst.
    destruct (IH (afterLetter s c)) as (H1 & H2 & H3).
    + assumption.
    + intros d Hd. rewrite E. simpl. destruct (Hw d (or_intror Hd)) as [Hdw Hdg].
      split; [assumption|]. intros Hin. apply in_app_or in Hin.
      destruct Hin as [Hin | [-> | []]]; [now apply Hdg | now apply Hnotin].
    + rewrite E. simpl. lia.
    + rewrite E. simpl. lia.
    + rewrite H1, H2, H3. rewrite E. simpl. rewrite Ei, <- app_assoc. simpl.
      repeat split. lia.
Qed.

(** C3.  From a round start, after any sequence of distinct letters that do
    not occur in the word, the count of incorrect guesses is the number of
    letters; the round is still unresolved while that number is below the
    maximum, it is lost when the number equals the maximum, and it is lost
    only from then on; one more such letter raises the count by exactly one. *)
Theorem loss_exactly_at_threshold (s : GameState) (letters : list ascii) :
  roundStart s ->
  NoDup letters ->
  Forall (fun c => ~ In c (chosenWord s)) letters ->
  incorrectGuesses (afterLetters s letters) = Z.of_nat (List.length letters) /\
  (Z.of_nat (List.length letters) < maxGuesses s ->
     outcome (afterLetters s letters) = Unresolved) /\
  (Z.of_nat (List.length letters) = maxGuesses s ->
     outcome (afterLetters s letters) = Lost) /\
  (outcome (afterLetters s letters) = Lost <->
     maxGuesses s <= Z.of_nat (List.length letters)) /\
  (forall c : ascii,
     ~ In c letters -> ~ In c (chosenWord s) ->
     incorrectGuesses (afterLetter (afterLetters s letters) c)
       = incorrectGuesses (afterLetters s letters) + 1).
Proof.
  intros (Hg & Hi & Hw) Hnd Hwrong.
  rewrite Forall_forall in Hwrong.
  pose proof (NoDup_chars_length letters Hnd) as Hlen.
  destruct (wrong_letters_count letters s Hnd) as (Hc & Hwg & Hgl).
  { intros c Hc. split; [now apply Hwrong | rewrite Hg; intros []]. }
  { rewrite Hi. unfold Int.INT_MIN. lia. }
  { rewrite Hi. unfold Int.INT_MAX. lia. }
  rewrite Hi in Hc. simpl in Hc. rewrite Hg in Hgl. simpl in Hgl.
  destruct (afterLetters_frame s letters) as (Hcw & _ & Hm).
  split; [exact Hc|].
  split; [intros Hlt; apply outcome_Unresolved; rewrite Hwg, Hc, Hm; auto|].
  split; [intros Heq; apply outcome_Lost; rewrite Hwg, Hc, Hm; split; [auto | lia]|].
  split.
  - rewrite outcome_Lost, Hwg, Hc, Hm. tauto.
  - intros c Hnin Hcw'.
    assert (Hnd' : NoDup (letters ++ [c])).
    { apply NoDup_rev in Hnd. rewrite <- (rev_involutive (letters ++ [c])).
      apply NoDup_rev. rewrite rev_app_distr. simpl.
      constructor; [now rewrite <- in_rev | assumption]. }
    pose proof (NoDup_chars_length _ Hnd') as Hlen'.
    destruct (wrong_letters_count (letters ++ [c]) s Hnd') as (Hc' & _ & _).
    { intros d Hd. split; [|rewrite Hg; intros []].
      apply in_app_or in Hd. destruct Hd as [Hd | [<- | []]]; auto. }
    { rewrite Hi. unfold Int.INT_MIN. lia. }
    { rewrite Hi. unfold Int.INT_MAX. lia. }
    rewrite afterLetters_snoc in Hc'. rewrite Hc', Hc, Hi.
    rewrite length_app, Nat2Z.inj_add. simpl. lia.
Qed.

Lemma loss_exactly_at_threshold_witness :
  let s := interactiveSetup 2 (cstr "cat") (cstr "a pet") in
  let letters := [ "Z"; "Q" ]%char in
  roundStart s /\
  NoDup letters /\
  Forall (fun c => ~ In c (chosenWord s)) letters /\
  incorrectGuesses (afterLetters s letters) = Z.of_nat (List.length letters) /\
  (Z.of_nat (List.length letters) < maxGuesses s ->
     outcome (afterLetters s letters) = Unresolved) /\
  (Z.of_nat (List.length letters) = maxGuesses s ->
     outcome (afterLetters s letters) = Lost) /\
  (outcome (afterLetters s letters) = Lost <->
     maxGuesses s <= Z.of_nat (List.length letters)) /\
  (forall c : ascii,
     ~ In c letters -> ~ In c (chosenWord s) ->
     incorrectGuesses (afterLetter (afterLetters s letters) c)
       = incorrectGuesses (afterLetters s letters) + 1).
Proof.
  assert (Hs : roundStart (interactiveSetup 2 (cstr "cat") (cstr "a pet")))
    by (repeat split).
  assert (Hn : NoDup [ "Z"; "Q" ]%char).
  { constructor; [simpl; intros [H | []]; discriminate|].
    constructor; [intros []|constructor]. }
  assert (Hf : Forall (fun c => ~ In c (chosenWord (interactiveSetup 2 (cstr "cat") (cstr "a pet"))))
                 [ "Z"; "Q" ]%char).
  { repeat constructor; simpl; intros H;
      repeat (destruct H as [H | H]; [discriminate|]); exact H. }
  split; [exact Hs|]. split; [exact Hn|]. split; [exact Hf|].
  exact (loss_exactly_at_threshold
           (interactiveSetup 2 (cstr "cat") (cstr "a pet")) [ "Z"; "Q" ]%char Hs Hn Hf).
Defined.

(** ** The single-player game loop on letter guesses *)

Lemma emit_emit {A : Type} (a b : list Output) (r : Res A) :
  emit a (emit b r) = emit (a ++ b) r.
Proof. destruct r; simpl; now rewrite ?app_assoc. Qed.

Lemma emit_nil {A : Type} (r : Res A) : emit [] r = r.
Proof. now destruct r. Qed.

Lemma gameLoop_fuel_letter (fuel : nat) (s : GameState) (c : ascii) (rest : list str) :
  active s = true -> In c ALPHABET ->
  gameLoop_fuel (S fuel) s ([c] :: rest) =
    emit (letterTurnOutput s c) (gameLoop_fuel fuel (afterLetter s c) rest).
Proof.
  intros Ha Hc. cbn [gameLoop_fuel]. rewrite Ha.
  unfold bind at 1. unfold lift at 1. cbn [fst snd].
  unfold bind at 1. rewrite (processPlayerGuess_letter s c rest Hc).
  unfold letterTurnOutput, afterLetter.
  destruct (handleCharacterGuess s c) as [[ok s'] out]. cbn [fst snd].
  destruct ok; cbn [negb]; unfold bind, print, ret; cbn [emit];
    rewrite !emit_emit; f_equal; cbn [app];
    rewrite ?app_nil_r, <- ?app_assoc; reflexivity.
Qed.

Lemma gameLoop_fuel_done (fuel : nat) (s : GameState) (inp : list str) :
  active s = false -> gameLoop_fuel (S fuel) s inp = Ret s inp [].
Proof. intros Ha. cbn [gameLoop_fuel]. now rewrite Ha. Qed.

Lemma gameLoop_fuel_starved (fuel : nat) (s : GameState) :
  active s = true ->
  gameLoop_fuel (S fuel) s [] = Starved (snd (displayGameState s) ++ [Prompt guess_prompt]).
Proof.
  intros Ha. cbn [gameLoop_fuel]. rewrite Ha. reflexivity.
Qed.

(** The loop of [playSingleplayer], fed distinct wrong letters of the
    alphabet from a state with [n] guesses left: it reads exactly [n] of
    them and stops lost; fed fewer, it asks for more. *)
Lemma gameLoop_wrong_letters (letters : list ascii) :
  forall (s : GameState) (fuel : nat) (rest : list str),
    (List.length letters < fuel)%nat ->
    wordGuessed s = false ->
    Int.INT_MIN <= incorrectGuesses s ->
    maxGuesses s <= Int.INT_MAX ->
    NoDup letters ->
    (forall c, In c letters ->
       In c ALPHABET /\ ~ In c (chosenWord s) /\ ~ In c (guessedLetters s)) ->
    incorrectGuesses s + Z.of_nat (List.length letters) = maxGuesses s ->
    exists out : list Output,
      gameLoop_fuel fuel s (lines_of letters ++ rest)
        = Ret (afterLetters s letters) rest out /\
      outcome (afterLetters s letters) = Lost.
Proof.
  induction letters as [|c l IH]; intros s fuel rest Hf Hw Hlo Hmax Hnd Hall Hsum.
  - simpl in Hsum. destruct fuel as [|fuel]; [simpl in Hf; lia|].
    exists []. change (afterLetters s []) with s. split.
    + apply gameLoop_fuel_done. unfold active.
      destruct (Z.ltb_spec (incorrectGuesses s) (maxGuesses s)); [lia | reflexivity].
    + apply outcome_Lost. split; [assumption | lia].
  - destruct fuel as [|fuel]; [simpl in Hf; lia|].
    assert (El : Z.of_nat (List.length (c :: l)) = Z.of_nat (List.length l) + 1)
      by (simpl List.length; lia).
    rewrite El in Hsum.
    destruct (Hall c (or_introl eq_refl)) as (Hca & Hcw & Hcg).
    assert (Ha : active s = true).
    { unfold active. rewrite Hw.
      destruct (Z.ltb_spec (incorrectGuesses s) (maxGuesses s)); [reflexivity | lia]. }
    assert (E : afterLetter s c =
                set_incorrectGuesses (set_guessedLetters s (guessedLetters s ++ [c]))
                  (Int.incr (incorrectGuesses s))).
    { unfold afterLetter. now rewrite (handle_incorrect s c Hcg Hcw). }
    assert (Ei : Int.incr (incorrectGuesses s) = incorrectGuesses s + 1)
      by (apply Int_incr_small; lia).
    inversion Hnd as [|? ? Hnotin Hnd']; subst.
    destruct (IH (afterLetter s c) fuel rest) as (out & Hrun & Hout).
    + simpl in Hf. lia.
    + rewrite E. assumption.
    + rewrite E. simpl. lia.
    + rewrite E. assumption.
    + assumption.
    + intros d Hd. rewrite E. simpl. destruct (Hall d (or_intror Hd)) as (Hda & Hdw & Hdg).
      split; [assumption|]. split; [assumption|].
      intros Hin. apply in_app_or in Hin.
      destruct Hin as [Hin | [-> | []]]; [now apply Hdg | now apply Hnotin].
    + rewrite E. simpl. lia.
    + exists (letterTurnOutput s c ++ out). split; [|exact Hout].
      change (lines_of (c :: l) ++ rest) with ([c] :: (lines_of l ++ rest)).
      rewrite (gameLoop_fuel_letter fuel s c _ Ha Hca), Hrun. reflexivity.
Qed.

Lemma lines_of_length (letters : list ascii) : List.length (lines_of letters) = List.length letters.
Proof. apply length_map. Qed.

(** From a round start with a maximum of [n], the loop of [playSingleplayer]
    reads [n] distinct wrong letters and returns a lost round; the lines that
    follow are left unread. *)
Lemma singleplayer_loop_lost_at_threshold
    (s : GameState) (letters : list ascii) (rest : list str) :
  roundStart s ->
  maxGuesses s <= Int.INT_MAX ->
  NoDup letters ->
  (forall c, In c letters -> In c ALPHABET /\ ~ In c (chosenWord s)) ->
  Z.of_nat (List.length letters) = maxGuesses s ->
  exists out : list Output,
    gameLoop s (lines_of letters ++ rest) = Ret (afterLetters s letters) rest out /\
    outcome (afterLetters s letters) = Lost.
Proof.
  intros (Hg & Hi & Hw) Hmax Hnd Hall Hlen. unfold gameLoop.
  apply gameLoop_wrong_letters; try assumption.
  - rewrite length_app, lines_of_length. lia.
  - rewrite Hi. unfold Int.INT_MIN. lia.
  - intros c Hc. destruct (Hall c Hc). rewrite Hg. repeat split; auto.
  - rewrite Hi. lia.
Qed.

(** Fed fewer distinct wrong letters than the maximum and nothing more, the
    loop has read them all and waits for the next guess: the round is still
    open. *)
Lemma gameLoop_wrong_letters_open (letters : list ascii) :
  forall (s : GameState) (fuel : nat),
    (List.length letters < fuel)%nat ->
    wordGuessed s = false ->
    Int.INT_MIN <= incorrectGuesses s ->
    maxGuesses s <= Int.INT_MAX ->
    NoDup letters ->
    (forall c, In c letters ->
       In c ALPHABET /\ ~ In c (chosenWord s) /\ ~ In c (guessedLetters s)) ->
    incorrectGuesses s + Z.of_nat (List.length letters) < maxGuesses s ->
    exists out : list Output, gameLoop_fuel fuel s (lines_of letters) = Starved out.
Proof.
  induction letters as [|c l IH]; intros s fuel Hf Hw Hlo Hmax Hnd Hall Hsum.
  - simpl in Hsum. destruct fuel as [|fuel]; [simpl in Hf; lia|].
    eexists. apply gameLoop_fuel_starved. unfold active. rewrite Hw.
    destruct (Z.ltb_spec (incorrectGuesses s) (maxGuesses s)); [reflexivity | lia].
  - destruct fuel as [|fuel]; [simpl in Hf; lia|].
    assert (El : Z.of_nat (List.length (c :: l)) = Z.of_nat (List.length l) + 1)
      by (simpl List.length; lia).
    rewrite El in Hsum.
    destruct (Hall c (or_introl eq_refl)) as (Hca & Hcw & Hcg).
    assert (Ha : active s = true).
    { unfold active. rewrite Hw.
      destruct (Z.ltb_spec (incorrectGuesses s) (maxGuesses s)); [reflexivity | lia]. }
    assert (E : afterLetter s c =
                set_incorrectGuesses (set_guessedLetters s (guessedLetters s ++ [c]))
                  (Int.incr (incorrectGuesses s))).
    { unfold afterLetter. now rewrite (handle_incorrect s c Hcg Hcw). }
    assert (Ei : Int.incr (incorrectGuesses s) = incorrectGuesses s + 1)
      by (apply Int_incr_small; lia).
    inversion Hnd as [|? ? Hnotin Hnd']; subst.
    destruct (IH (afterLetter s c) fuel) as (out & Hrun).
    + simpl in Hf. lia.
    + rewrite E. assumption.
    + rewrite E. simpl. lia.
    + rewrite E. assumption.
    + assumption.
    + intros d Hd. rewrite E. simpl. destruct (Hall d (or_intror Hd)) as (Hda & Hdw & Hdg).
      split; [assumption|]. split; [assumption|].
      intros Hin. apply in_app_or in Hin.
      destruct Hin as [Hin | [-> | []]]; [now apply Hdg | now apply Hnotin].
    + rewrite E. simpl. lia.
    + exists (letterTurnOutput s c ++ out).
      change (lines_of (c :: l)) with ([c] :: lines_of l).
      rewrite (gameLoop_fuel_letter fuel s c _ Ha Hca), Hrun. reflexivity.
Qed.

Lemma singleplayer_loop_open_below_threshold (s : GameState) (letters : list ascii) :
  roundStart s ->
  maxGuesses s <= Int.INT_MAX ->
  NoDup letters ->
  (forall c, In c letters -> In c ALPHABET /\ ~ In c (chosenWord s)) ->
  Z.of_nat (List.length letters) < maxGuesses s ->
  exists out : list Output, gameLoop s (lines_of letters) = Starved out.
Proof.
  intros (Hg & Hi & Hw) Hmax Hnd Hall Hlen. unfold gameLoop.
  apply gameLoop_wrong_letters_open; try assumption.
  - rewrite lines_of_length. lia.
  - rewrite Hi. unfold Int.INT_MIN. lia.
  - intros c Hc. destruct (Hall c Hc). rewrite Hg. repeat split; auto.
  - rewrite Hi. lia.
Qed.

(** ** Correct letters and the win *)

Lemma forallb_contains (g w : str) :
  forallb (contains g) w = true <-> (forall ch, In ch w -> In ch g).
Proof.
  rewrite forallb_forall. split; intros H ch Hin.
  - apply contains_In. now apply H.
  - apply contains_In. now apply H.
Qed.

Lemma checkWordGuessed_spec (s : GameState) :
  (allGuessed s -> checkWordGuessed s = (true, set_wordGuessed s true)) /\
  (~ allGuessed s -> checkWordGuessed s = (false, s)).
Proof.
  unfold checkWordGuessed, allGuessed.
  destruct (forallb (contains (guessedLetters s)) (chosenWord s)) eqn:E.
  - split; [reflexivity|]. intros H. exfalso. apply H. now apply forallb_contains.
  - split; [|reflexivity]. intros H. apply forallb_contains in H. congruence.
Qed.

(** One correct letter: it is appended, nothing is counted as incorrect,
    and the word is guessed afterwards exactly if it was before or every
    character of the word is now among the guessed letters. *)
Lemma afterLetter_correct (s : GameState) (c : ascii) :
  In c (chosenWord s) -> ~ In c (guessedLetters s) ->
  guessedLetters (afterLetter s c) = guessedLetters s ++ [c] /\
  incorrectGuesses (afterLetter s c) = incorrectGuesses s /\
  chosenWord (afterLetter s c) = chosenWord s /\
  (wordGuessed (afterLetter s c) = true <->
     wordGuessed s = true \/ allGuessed (afterLetter s c)).
Proof.
  intros Hw Hg. unfold afterLetter. rewrite (handle_correct s c Hg Hw). cbn [fst snd].
  set (s1 := set_guessedLetters s (guessedLetters s ++ [c])).
  destruct (checkWordGuessed_spec s1) as [Hyes Hno].
  destruct (forallb (contains (guessedLetters s1)) (chosenWord s1)) eqn:E.
  - assert (Ha : allGuessed s1) by (unfold allGuessed; now apply forallb_contains).
    rewrite (Hyes Ha). cbn. repeat split; auto.
  - assert (Ha : ~ allGuessed s1).
    { intros Ha. unfold allGuessed in Ha. apply forallb_contains in Ha. congruence. }
    rewrite (Hno Ha). cbn. repeat split; auto.
    intros [H | H]; [assumption | contradiction].
Qed.

Lemma correct_letters_win (letters : list ascii) :
  forall s : GameState,
    NoDup letters ->
    (forall c, In c letters -> In c (chosenWord s) /\ ~ In c (guessedLetters s)) ->
    guessedLetters (afterLetters s letters) = guessedLetters s ++ letters /\
    incorrectGuesses (afterLetters s letters) = incorrectGuesses s /\
    (wordGuessed (afterLetters s letters) = true <->
       wordGuessed s = true \/ (letters <> [] /\ allGuessed (afterLetters s letters))).
Proof.
  induction letters as [|c l IH]; intros s Hnd Hall.
  - simpl. rewrite app_nil_r. repeat split; auto.
    intros [H | [H _]]; [assumption | congruence].
  - rewrite afterLetters_cons.
    destruct (Hall c (or_introl eq_refl)) as [Hcw Hcg].
    destruct (afterLetter_correct s c Hcw Hcg) as (Eg & Ei & Ew & Hwon).
    inversion Hnd as [|? ? Hnotin Hnd']; subst.
    destruct (IH (afterLetter s c) Hnd') as (Eg' & Ei' & Hwon').
    { intros d Hd. destruct (Hall d (or_intror Hd)) as [Hdw Hdg].
      rewrite Ew, Eg. split; [assumption|].
      intros Hin. apply in_app_or in Hin.
      destruct Hin as [Hin | [-> | []]]; [now apply Hdg | now apply Hnotin]. }
    split; [rewrite Eg', Eg, <- app_assoc; reflexivity|].
    split; [congruence|].
    rewrite Hwon', Hwon. split.
    + intros [[H | H] | [Hne H]].
      * left. exact H.
      * right. split; [discriminate|].
        intros ch Hch. rewrite Eg'. apply in_or_app. left.
        apply H. destruct (afterLetters_frame (afterLetter s c) l) as (Ef & _ & _).
        now rewrite <- Ef.
      * right. split; [discriminate | assumption].
    + intros [H | [_ H]]; [left; left; exact H|].
      destruct l as [|d l]; [left; right; exact H|].
      right. split; [discriminate | assumption].
Qed.

Lemma correctLetters_prefix (s : GameState) (p q : list ascii) :
  correctLetters s (p ++ q) -> correctLetters s p.
Proof.
  intros [Hnd Hall]. split.
  - now apply NoDup_app_remove_r in Hnd.
  - intros c Hc. apply Hall, in_or_app. now left.
Qed.

Lemma correctLetters_perm (s : GameState) (l l' : list ascii) :
  Permutation l l' -> correctLetters s l -> correctLetters s l'.
Proof.
  intros Hp [Hnd Hall]. split.
  - now apply (Permutation_NoDup Hp).
  - intros c Hc. apply Hall. apply (Permutation_in c (Permutation_sym Hp) Hc).
Qed.

Lemma bool_eq_iff (a b : bool) : (a = true <-> b = true) -> a = b.
Proof.
  destruct a, b; intros [H1 H2]; try reflexivity.
  - symmetry. now apply H1.
  - now apply H2.
Qed.

(** C4.  From a state in which the word is not yet guessed, after any
    non-empty sequence of correct letter guesses the round is won exactly if
    every character of the word is among the guessed letters; it is not won
    after any prefix that leaves a character of the word unguessed; and the
    order of the letters does not matter. *)
Theorem won_exactly_when_word_covered (s : GameState) (letters : list ascii) :
  wordGuessed s = false ->
  letters <> [] ->
  correctLetters s letters ->
  (outcome (afterLetters s letters) = Won <-> allGuessed (afterLetters s letters)) /\
  guessedLetters (afterLetters s letters) = guessedLetters s ++ letters /\
  (forall p q : list ascii,
     letters = p ++ q -> ~ allGuessed (afterLetters s p) ->
     outcome (afterLetters s p) = outcome s) /\
  (forall letters' : list ascii,
     Permutation letters letters' ->
     outcome (afterLetters s letters') = outcome (afterLetters s letters)).
Proof.
  intros Hw Hne [Hnd Hall].
  destruct (correct_letters_win letters s Hnd Hall) as (Eg & Ei & Hwon).
  assert (Hiff : wordGuessed (afterLetters s letters) = true <->
                 allGuessed (afterLetters s letters)).
  { rewrite Hwon. split.
    - intros [H | [_ H]]; [congruence | assumption].
    - intros H. right. split; assumption. }
  split; [now rewrite outcome_Won|]. split; [exact Eg|]. split.
  - intros p q -> Hnot.
    destruct (correctLetters_prefix s p q (conj Hnd Hall)) as [Hndp Hallp].
    destruct (correct_letters_win p s Hndp Hallp) as (_ & Eip & Hwonp).
    destruct (afterLetters_frame s p) as (_ & _ & Emp).
    assert (Ewp : wordGuessed (afterLetters s p) = false).
    { destruct (wordGuessed (afterLetters s p)); [|reflexivity].
      destruct (proj1 Hwonp eq_refl) as [H | [_ H]]; [congruence | contradiction]. }
    unfold outcome. now rewrite Ewp, Eip, Emp, Hw.
  - intros letters' Hp.
    destruct (correctLetters_perm s letters letters' Hp (conj Hnd Hall)) as [Hnd' Hall'].
    destruct (correct_letters_win letters' s Hnd' Hall') as (Eg' & Ei' & Hwon').
    destruct (afterLetters_frame s letters) as (Ec & _ & Em).
    destruct (afterLetters_frame s letters') as (Ec' & _ & Em').
    assert (Hne' : letters' <> []).
    { intros ->. apply Permutation_sym, Permutation_nil in Hp. contradiction. }
    assert (Ewg : wordGuessed (afterLetters s letters') = wordGuessed (afterLetters s letters)).
    { apply bool_eq_iff. rewrite Hwon', Hiff. unfold allGuessed.
      rewrite Ec, Ec', Eg, Eg'. split.
      - intros [H | [_ H]]; [congruence|].
        intros ch Hch. specialize (H ch Hch). apply in_app_or in H. apply in_or_app.
        destruct H as [H | H]; [now left | right].
        apply (Permutation_in ch (Permutation_sym Hp) H).
      - intros H. right. split; [assumption|].
        intros ch Hch. specialize (H ch Hch). apply in_app_or in H. apply in_or_app.
        destruct H as [H | H]; [now left | right].
        apply (Permutation_in ch Hp H). }
    unfold outcome. now rewrite Ewg, Ei, Ei', Em, Em'.
Qed.

Lemma cat_letters_correct : correctLetters fresh_cat [ "C"; "A"; "T" ]%char.
Proof.
  split.
  - constructor; [simpl; intros [H | [H | []]]; discriminate|].
    constructor; [simpl; intros [H | []]; discriminate|].
    constructor; [intros []|constructor].
  - intros c Hc. split; [|intros []].
    simpl in Hc. destruct Hc as [<- | [<- | [<- | []]]]; simpl; auto.
Qed.

Lemma won_exactly_when_word_covered_witness :
  let s := fresh_cat in
  let letters := [ "C"; "A"; "T" ]%char in
  wordGuessed s = false /\
  (outcome (afterLetters s letters) = Won <-> allGuessed (afterLetters s letters)) /\
  guessedLetters (afterLetters s letters) = guessedLetters s ++ letters /\
  (forall p q : list ascii,
     letters = p ++ q -> ~ allGuessed (afterLetters s p) ->
     outcome (afterLetters s p) = outcome s) /\
  (forall letters' : list ascii,
     Permutation letters letters' ->
     outcome (afterLetters s letters') = outcome (afterLetters s letters)).
Proof.
  split; [reflexivity|].
  apply (won_exactly_when_word_covered fresh_cat [ "C"; "A"; "T" ]%char).
  - reflexivity.
  - discriminate.
  - exact cat_letters_correct.
Defined.

(** The word CAT: won after C, A, T in each of the six orders, unresolved
    after any two of the three letters. *)
Lemma cat_won_in_any_order :
  map (fun l => outcome (afterLetters fresh_cat l))
      [ [ "C"; "A"; "T" ]; [ "C"; "T"; "A" ]; [ "A"; "C"; "T" ];
        [ "A"; "T"; "C" ]; [ "T"; "C"; "A" ]; [ "T"; "A"; "C" ] ]%char
    = [Won; Won; Won; Won; Won; Won] /\
  map (fun l => outcome (afterLetters fresh_cat l))
      [ []; [ "C" ]; [ "A" ]; [ "T" ]; [ "C"; "A" ]; [ "A"; "C" ]; [ "C"; "T" ];
        [ "T"; "C" ]; [ "A"; "T" ]; [ "T"; "A" ] ]%char
    = [Unresolved; Unresolved; Unresolved; Unresolved; Unresolved;
       Unresolved; Unresolved; Unresolved; Unresolved; Unresolved].
Proof. split; vm_compute; reflexivity. Qed.

(** From a round start on a non-empty word the same holds for every
    sequence of correct letter guesses, the empty one included: the round is
    won exactly if the guessed letters cover the word. *)
Lemma won_iff_covered_from_round_start (s : GameState) (letters : list ascii) :
  roundStart s -> chosenWord s <> [] -> correctLetters s letters ->
  (outcome (afterLetters s letters) = Won <-> allGuessed (afterLetters s letters)).
Proof.
  intros (Hg & _ & Hw) Hne [Hnd Hall].
  destruct (correct_letters_win letters s Hnd Hall) as (_ & _ & Hwon).
  rewrite outcome_Won, Hwon. split.
  - intros [H | [_ H]]; [congruence | assumption].
  - intros H. destruct letters as [|c l].
    + exfalso. destruct (chosenWord s) as [|ch w] eqn:E; [congruence|].
      specialize (H ch). simpl in H. rewrite E, Hg in H. apply H. now left.
    + right. split; [discriminate | assumption].
Qed.

(** An empty word has no correct letter: every letter guess is an incorrect
    one, and the word is guessed by the full-word guess of an empty line
    only. *)
Lemma empty_word_has_no_correct_letter (s : GameState) (letters : list ascii) :
  chosenWord s = [] -> correctLetters s letters -> letters = [].
Proof.
  intros He [_ Hall]. destruct letters as [|c l]; [reflexivity|].
  destruct (Hall c (or_introl eq_refl)) as [Hin _]. rewrite He in Hin. contradiction.
Qed.

(** ** Round setup *)

(** A draw from a non-empty list picks one of its entries. *)
Lemma draw_at_index (wordList : list WordItem) (r : nat) :
  wordList <> [] ->
  Z.of_nat (List.length wordList) <= Int.INT_MAX ->
  exists (wordIndex : Z) (item : WordItem),
    draw r (List.length wordList) = Some wordIndex /\
    at_index wordList wordIndex = Some item /\
    nth_error wordList (r mod List.length wordList) = Some item /\
    In item wordList.
Proof.
  intros Hne Hlen.
  assert (Hn : List.length wordList <> 0%nat) by (destruct wordList; [congruence | discriminate]).
  pose proof (Nat.mod_upper_bound r (List.length wordList) Hn) as Hlt.
  destruct (nth_error wordList (r mod List.length wordList)) as [item|] eqn:E.
  2:{ apply nth_error_None in E. lia. }
  exists (Z.of_nat (r mod List.length wordList)), item.
  split.
  - unfold draw. destruct (List.length wordList) eqn:El; [congruence|].
    rewrite Int_wrap_id; [reflexivity|].
    unfold Int.in_range, Int.INT_MIN, Int.INT_MAX in *. lia.
  - split; [|split; [reflexivity | now apply nth_error_In in E]].
    unfold at_index.
    destruct (Z.ltb_spec (Z.of_nat (r mod List.length wordList)) 0); [lia|].
    now rewrite Nat2Z.id.
Qed.

(** C7.  For a non-empty word list and any draw, the two-player setup
    succeeds and gives both players the word and the hint of one and the
    same entry of the list, the one at position [r mod size]. *)
Theorem two_player_setup_same_word
    (maxG : Z) (wordList : list WordItem) (r : nat) :
  wordList <> [] ->
  Z.of_nat (List.length wordList) <= Int.INT_MAX ->
  exists (p1 p2 : PlayerState) (item : WordItem),
    multiplayerStart maxG wordList r = Some (p1, p2) /\
    multiplayerSetup (newGameState maxG) (newGameState maxG) wordList r
      = Some (state p1, state p2) /\
    nth_error wordList (r mod List.length wordList) = Some item /\
    chosenWord (state p1) = word item /\ chosenWord (state p2) = word item /\
    chosenHint (state p1) = hint item /\ chosenHint (state p2) = hint item /\
    chosenWord (state p1) = chosenWord (state p2) /\
    chosenHint (state p1) = chosenHint (state p2).
Proof.
  intros Hne Hlen.
  destruct (draw_at_index wordList r Hne Hlen) as (i & item & Hd & Ha & Hn & _).
  unfold multiplayerStart, multiplayerSetup. cbn [state newPlayerState].
  rewrite Hd, Ha.
  eexists _, _, item. split; [reflexivity|]. cbn.
  repeat split; auto.
Qed.

Lemma two_player_setup_same_word_witness :
  exists (p1 p2 : PlayerState) (item : WordItem),
    multiplayerStart 4 small_catalog 7 = Some (p1, p2) /\
    multiplayerSetup (newGameState 4) (newGameState 4) small_catalog 7
      = Some (state p1, state p2) /\
    nth_error small_catalog (7 mod List.length small_catalog) = Some item /\
    chosenWord (state p1) = word item /\ chosenWord (state p2) = word item /\
    chosenHint (state p1) = hint item /\ chosenHint (state p2) = hint item /\
    chosenWord (state p1) = chosenWord (state p2) /\
    chosenHint (state p1) = chosenHint (state p2).
Proof.
  apply (two_player_setup_same_word 4 small_catalog 7).
  - discriminate.
  - simpl. unfold Int.INT_MAX. lia.
Defined.

(** Whatever the list, a setup that succeeds gives both players the same
    word and the same hint. *)
Lemma multiplayerSetup_same (s1 s2 s1' s2' : GameState) (wordList : list WordItem) (r : nat) :
  multiplayerSetup s1 s2 wordList r = Some (s1', s2') ->
  chosenWord s1' = chosenWord s2' /\ chosenHint s1' = chosenHint s2'.
Proof.
  unfold multiplayerSetup.
  destruct (draw r (List.length wordList)); [|discriminate].
  destruct (at_index wordList z); [|discriminate].
  intros H. injection H as <- <-. split; reflexivity.
Qed.

(** With an empty list the draw is a remainder by zero. *)
Lemma multiplayerSetup_empty (s1 s2 : GameState) (r : nat) :
  multiplayerSetup s1 s2 [] r = None.
Proof. reflexivity. Qed.

(** *** Upper case *)

(** The single-player and the interactive setup convert word and hint. *)
Lemma singleplayerSetup_upper (maxG : Z) (wordList : list WordItem) (r : nat) (s : GameState) :
  singleplayerSetup maxG wordList r = Some s ->
  upperCased (chosenWord s) /\ upperCased (chosenHint s).
Proof.
  unfold singleplayerSetup.
  destruct (draw r (List.length wordList)); [|discriminate].
  destruct (at_index wordList z); [|discriminate].
  intros H. injection H as <-. cbn. split; apply convertToUpper_no_lower.
Qed.

Lemma interactiveSetup_upper (maxG : Z) (w h : str) :
  upperCased (chosenWord (interactiveSetup maxG w h)) /\
  upperCased (chosenHint (interactiveSetup maxG w h)).
Proof. cbn. split; apply convertToUpper_no_lower. Qed.

(** [readIntoWordItem] stores the two parts of a line as they are. *)
Lemma readIntoWordItem_keeps_case :
  readIntoWordItem [] [cstr "cat,a pet"] = [mkWordItem (cstr "cat") (cstr "a pet")].
Proof. reflexivity. Qed.

(** C6.  The two-player setup copies word and hint of the list entry as they
    are: with the file line [cat,a pet] both players' words are [cat], in
    lower case, where the single-player setup on the same list gives [CAT];
    the letter C, which is what a typed c becomes, is then counted as an
    incorrect guess. *)
Theorem two_player_setup_keeps_lower_case :
  let wordList := readIntoWordItem [] [cstr "cat,a pet"] in
  exists p1 p2 : PlayerState,
    multiplayerStart 8 wordList 0 = Some (p1, p2) /\
    chosenWord (state p1) = cstr "cat" /\ chosenWord (state p2) = cstr "cat" /\
    chosenHint (state p1) = cstr "a pet" /\ chosenHint (state p2) = cstr "a pet" /\
    existsb islower (chosenWord (state p1)) = true /\
    existsb islower (chosenHint (state p2)) = true /\
    option_map chosenWord (singleplayerSetup 8 wordList 0) = Some (cstr "CAT") /\
    processPlayerGuess (state p1) [cstr "c"] =
      Ret (false, afterLetter (state p1) "C") []
          [Prompt guess_prompt; LetterIncorrectMsg "C"] /\
    incorrectGuesses (afterLetter (state p1) "C") = 1.
Proof.
  cbv zeta. eexists _, _. split; [reflexivity|].
  repeat split.
Qed.

(** ** Statistics *)

Lemma endGame_rates_spec (s : GameState) :
  0 <= wonRounds s -> 0 <= lostRounds s ->
  wonRounds s + lostRounds s <= Int.INT_MAX ->
  wonRounds (endGame_rates s) = wonRounds s /\
  lostRounds (endGame_rates s) = lostRounds s /\
  totalRounds (endGame_rates s) = wonRounds s + lostRounds s /\
  winRate (endGame_rates s) = spec_rate (wonRounds s) (wonRounds s + lostRounds s) /\
  lossRate (endGame_rates s) = spec_rate (lostRounds s) (wonRounds s + lostRounds s).
Proof.
  intros Hw Hl Hmax.
  assert (E : Int.add (wonRounds s) (lostRounds s) = wonRounds s + lostRounds s).
  { unfold Int.add. apply Int_wrap_id.
    unfold Int.in_range, Int.INT_MIN, Int.INT_MAX in *. lia. }
  unfold endGame_rates, spec_rate. cbn [wonRounds lostRounds totalRounds winRate lossRate
    set_totalRounds set_winRate set_lossRate].
  rewrite E.
  destruct (Z.ltb_spec 0 (wonRounds s + lostRounds s));
    destruct (Z.eqb_spec (wonRounds s + lostRounds s) 0); try lia; repeat split.
Qed.

(** C8.  After [endGameDisplay], with counters that are counts (not negative,
    their sum an [int]), both rates are 0.0 when no round is recorded, and
    otherwise the win rate is won / (won + lost) * 100 and the loss rate is
    lost / (won + lost) * 100, computed in doubles; these are the rates that
    are printed. *)
Theorem rates_follow_the_formula (s : GameState) :
  let s' := fst (endGameDisplay s) in
  0 <= wonRounds s' -> 0 <= lostRounds s' ->
  wonRounds s' + lostRounds s' <= Int.INT_MAX ->
  (wonRounds s' + lostRounds s' = 0 -> winRate s' = 0%float /\ lossRate s' = 0%float) /\
  (wonRounds s' + lostRounds s' <> 0 ->
     winRate s' = PrimFloat.mul
                    (PrimFloat.div (double_of_int (wonRounds s'))
                                   (double_of_int (wonRounds s' + lostRounds s')))
                    100%float /\
     lossRate s' = PrimFloat.mul
                     (PrimFloat.div (double_of_int (lostRounds s'))
                                    (double_of_int (wonRounds s' + lostRounds s')))
                     100%float) /\
  winRate s' = spec_rate (wonRounds s') (wonRounds s' + lostRounds s') /\
  lossRate s' = spec_rate (lostRounds s') (wonRounds s' + lostRounds s') /\
  In (RatesMsg (winRate s') (lossRate s')) (snd (endGameDisplay s)).
Proof.
  cbv zeta. unfold endGameDisplay. cbn [fst snd].
  set (s1 := fst (endGame_tally s)).
  assert (Hw1 : wonRounds (endGame_rates s1) = wonRounds s1) by reflexivity.
  assert (Hl1 : lostRounds (endGame_rates s1) = lostRounds s1) by reflexivity.
  rewrite Hw1, Hl1. intros Hw Hl Hmax.
  destruct (endGame_rates_spec s1 Hw Hl Hmax) as (_ & _ & _ & Ewin & Eloss).
  rewrite Ewin, Eloss. unfold spec_rate.
  split; [intros ->; split; reflexivity|].
  split.
  - intros Hne. destruct (Z.eqb_spec (wonRounds s1 + lostRounds s1) 0); [contradiction|].
    split; reflexivity.
  - split; [reflexivity|]. split; [reflexivity|].
    apply in_or_app. right. right. left.
    fold (spec_rate (wonRounds s1) (wonRounds s1 + lostRounds s1)).
    fold (spec_rate (lostRounds s1) (wonRounds s1 + lostRounds s1)).
    now rewrite <- Ewin, <- Eloss.
Qed.

Lemma rates_follow_the_formula_witness :
  let s' := fst (endGameDisplay third_win) in
  (wonRounds s' = 3 /\ lostRounds s' = 1 /\
   winRate s' = 75%float /\ lossRate s' = 25%float /\
   PrimFloat.add (winRate s') (lossRate s') = 100%float) /\
  (wonRounds s' + lostRounds s' = 0 -> winRate s' = 0%float /\ lossRate s' = 0%float) /\
  (wonRounds s' + lostRounds s' <> 0 ->
     winRate s' = PrimFloat.mul
                    (PrimFloat.div (double_of_int (wonRounds s'))
                                   (double_of_int (wonRounds s' + lostRounds s')))
                    100%float /\
     lossRate s' = PrimFloat.mul
                     (PrimFloat.div (double_of_int (lostRounds s'))
                                    (double_of_int (wonRounds s' + lostRounds s')))
                     100%float) /\
  winRate s' = spec_rate (wonRounds s') (wonRounds s' + lostRounds s') /\
  lossRate s' = spec_rate (lostRounds s') (wonRounds s' + lostRounds s') /\
  In (RatesMsg (winRate s') (lossRate s')) (snd (endGameDisplay third_win)).
Proof.
  split; [repeat split; reflexivity|].
  apply (rates_follow_the_formula third_win).
  - vm_compute. discriminate.
  - vm_compute. discriminate.
  - vm_compute. discriminate.
Defined.

(** Three rounds won and one lost: 75.0 and 25.0, which add up to 100.0;
    no round recorded: 0.0 and 0.0. *)
Lemma rates_three_won_one_lost :
  let s' := fst (endGameDisplay third_win) in
  wonRounds s' = 3 /\ lostRounds s' = 1 /\
  winRate s' = 75%float /\ lossRate s' = 25%float /\
  PrimFloat.add (winRate s') (lossRate s') = 100%float.
Proof. vm_compute. repeat split. Qed.

Lemma rates_no_round :
  let s' := fst (endGameDisplay (newGameState 8)) in
  wonRounds s' = 0 /\ lostRounds s' = 0 /\
  winRate s' = 0%float /\ lossRate s' = 0%float.
Proof. vm_compute. repeat split. Qed.

(** The two rates are rounded separately, so their sum is 100.0 only up to
    rounding: with one round won and two lost it is just below. *)
Lemma rates_sum_is_rounded :
  let s' := fst (endGameDisplay one_win_two_losses) in
  wonRounds s' = 1 /\ lostRounds s' = 2 /\
  PrimFloat.ltb (PrimFloat.add (winRate s') (lossRate s')) 100%float = true /\
  PrimFloat.ltb 99.5%float (PrimFloat.add (winRate s') (lossRate s')) = true.
Proof. vm_compute. repeat split. Qed.

(** [gameStats], which nothing calls, computes the same rates from counters
    that are counts, provided the stored total is zero while no round is
    recorded. *)
Lemma gameStats_spec (s : GameState) :
  0 <= wonRounds s -> 0 <= lostRounds s ->
  wonRounds s + lostRounds s <= Int.INT_MAX ->
  (wonRounds s + lostRounds s = 0 -> totalRounds s = 0) ->
  winRate (gameStats s) = spec_rate (wonRounds s) (wonRounds s + lostRounds s) /\
  lossRate (gameStats s) = spec_rate (lostRounds s) (wonRounds s + lostRounds s).
Proof.
  intros Hw Hl Hmax Htot.
  assert (E : Int.add (wonRounds s) (lostRounds s) = wonRounds s + lostRounds s).
  { unfold Int.add. apply Int_wrap_id.
    unfold Int.in_range, Int.INT_MIN, Int.INT_MAX in *. lia. }
  assert (E100 : double_of_int 100 = 100%float) by reflexivity.
  assert (E0 : double_of_int 0 = 0%float) by reflexivity.
  unfold gameStats, spec_rate.
  destruct (Z.ltb_spec 0 (wonRounds s)) as [Hw'|Hw'];
    destruct (Z.ltb_spec 0 (lostRounds s)) as [Hl'|Hl'];
    cbn [orb wonRounds lostRounds totalRounds winRate lossRate
         set_totalRounds set_winRate set_lossRate];
    rewrite ?E, ?E100, ?E0.
  1-3: destruct (Z.eqb_spec (wonRounds s + lostRounds s) 0); [lia | split; reflexivity].
  assert (Hz : wonRounds s + lostRounds s = 0) by lia.
  rewrite (Htot Hz), Hz. split; reflexivity.
Qed.

(** ** The display *)

Lemma nth_error_glyphs (f : ascii -> ascii) (w : str) :
  forall (i : nat) (ch : ascii),
    nth_error w i = Some ch ->
    nth_error (flat_map (fun letter => [f letter; " "%char]) w) (2 * i) = Some (f ch) /\
    nth_error (flat_map (fun letter => [f letter; " "%char]) w) (2 * i + 1) = Some " "%char.
Proof.
  induction w as [|x w IH]; intros i ch H.
  - destruct i; discriminate.
  - destruct i as [|i].
    + injection H as <-. split; reflexivity.
    + replace (2 * S i)%nat with (S (S (2 * i))) by lia.
      replace (S (S (2 * i)) + 1)%nat with (S (S (2 * i + 1))) by lia.
      simpl in H. cbn [flat_map app nth_error]. now apply IH.
Qed.

Lemma length_glyphs (f : ascii -> ascii) (w : str) :
  List.length (flat_map (fun letter => [f letter; " "%char]) w) = (2 * List.length w)%nat.
Proof. induction w as [|x w IH]; simpl; [reflexivity | rewrite IH; lia]. Qed.

(** C9.  [displayGameState] prints the gallows, the hint line, the guessed
    letters and the word.  The hint printed is empty when no incorrect guess
    was made and is the round's hint when the count is positive.  The word
    is printed one glyph and one blank per character: the character itself
    if it is among the guessed letters, the underscore otherwise. *)
Theorem display_hides_hint_and_unguessed_letters (s : GameState) :
  snd (displayGameState s) =
    drawGallows (incorrectGuesses s) (maxGuesses s)
      ++ [HintLine (renderedHint s); GuessedLettersLine (guessedLetters s);
          WordLine (revealedWord s)] /\
  (incorrectGuesses s = 0 -> renderedHint s = []) /\
  (0 < incorrectGuesses s -> renderedHint s = chosenHint s) /\
  List.length (revealedWord s) = (2 * List.length (chosenWord s))%nat /\
  (forall (i : nat) (ch : ascii),
     nth_error (chosenWord s) i = Some ch ->
     nth_error (revealedWord s) (2 * i) = Some (glyph s ch) /\
     nth_error (revealedWord s) (2 * i + 1) = Some " "%char) /\
  (forall ch : ascii,
     (In ch (guessedLetters s) -> glyph s ch = ch) /\
     (~ In ch (guessedLetters s) -> glyph s ch = "_"%char) /\
     (ch <> "_"%char -> (glyph s ch = ch <-> In ch (guessedLetters s)))).
Proof.
  split; [reflexivity|].
  split; [intros H; unfold renderedHint; now rewrite H|].
  split.
  { intros H. unfold renderedHint.
    destruct (Z.eqb_spec (incorrectGuesses s) 0); [lia | reflexivity]. }
  split; [apply length_glyphs|].
  split; [intros i ch H; now apply nth_error_glyphs|].
  intros ch. unfold glyph.
  destruct (contains (guessedLetters s) ch) eqn:E.
  - apply contains_In in E. repeat split; auto. contradiction.
  - apply contains_false in E. repeat split; auto.
    + contradiction.
    + intros H'. congruence.
    + contradiction.
Qed.

(** The display of the spec's round after the guesses C and Z. *)
Lemma display_example :
  let s := afterLetters fresh_cat [ "C"; "Z" ]%char in
  snd (displayGameState s) =
    [GallowsStage 1; HintLine (cstr "A PET"); GuessedLettersLine (cstr "CZ");
     WordLine (cstr "C _ _ ")] /\
  snd (displayGameState fresh_cat) =
    [GallowsStage 0; HintLine []; GuessedLettersLine []; WordLine (cstr "_ _ _ ")].
Proof. split; reflexivity. Qed.

(** ** The two-player round *)

Lemma turn_guard (s : GameState) :
  (negb (wordGuessed s) && (incorrectGuesses s <? maxGuesses s))%bool = active s.
Proof. unfold active. apply andb_comm. Qed.

(** A player whose round is over is skipped. *)
Lemma playerTurn_skip (p : PlayerState) (inp : list str) :
  active (state p) = false -> playerTurn p inp = Ret (p, false) inp [].
Proof. intros H. unfold playerTurn. rewrite turn_guard, H. reflexivity. Qed.

(** The turn of a player whose round is open, by the result of the guess. *)
Lemma playerTurn_play (p : PlayerState) (inp : list str) :
  active (state p) = true ->
  playerTurn p inp =
    match processPlayerGuess (state p) inp with
    | Ret r rest guessOut =>
        let cp := set_state p (snd r) in
        let pre := turnOutput p guessOut (snd r) in
        if wordGuessed (snd r) then
          Ret (fst (multiplayerEndGameDisplay cp), true) rest
              (pre ++ snd (multiplayerEndGameDisplay cp))
        else if maxGuesses (snd r) <=? incorrectGuesses (snd r) then
          Ret (fst (multiplayerEndGameDisplay cp), false) rest
              (pre ++ snd (multiplayerEndGameDisplay cp))
        else Ret (cp, false) rest pre
    | Starved guessOut =>
        Starved (TurnMsg (playerName p) :: snd (displayGameState (state p)) ++ guessOut)
    | Undefined guessOut =>
        Undefined (TurnMsg (playerName p) :: snd (displayGameState (state p)) ++ guessOut)
    | Timeout => Timeout
    end.
Proof.
  intros H. unfold playerTurn. rewrite turn_guard, H.
  unfold bind at 1. unfold print at 1. unfold bind at 1. unfold lift at 1.
  cbn [fst snd]. unfold bind at 1.
  destruct (processPlayerGuess (state p) inp) as [r rest guessOut | o | o |];
    try reflexivity.
  unfold turnOutput. cbn [state set_state].
  unfold bind at 1. unfold print at 1.
  destruct (wordGuessed (snd r)).
  - unfold bind, lift, ret. cbn [emit fst snd app].
    rewrite ?app_nil_r, <- ?app_assoc. reflexivity.
  - destruct (maxGuesses (snd r) <=? incorrectGuesses (snd r)).
    + unfold bind, lift, ret. cbn [emit fst snd app].
      rewrite ?app_nil_r, <- ?app_assoc. reflexivity.
    + unfold ret. cbn [emit fst snd app].
      rewrite ?app_nil_r, <- ?app_assoc. reflexivity.
Qed.

Lemma bind_Ret {A B : Type} (m : IO A) (k : A -> IO B) (inp : list str)
    (b : B) (rest : list str) (out : list Output) :
  bind m k inp = Ret b rest out ->
  exists (a : A) (rest0 : list str) (out0 out1 : list Output),
    m inp = Ret a rest0 out0 /\ k a rest0 = Ret b rest out1 /\ out = out0 ++ out1.
Proof.
  unfold bind. destruct (m inp) as [a rest0 out0 | | |]; try discriminate.
  destruct (k a rest0) as [b' rest' out1 | | |] eqn:E; try discriminate.
  cbn [emit]. intros H. injection H as <- <- <-.
  exists a, rest0, out0, out1. auto.
Qed.

Lemma multiplayerEndGameDisplay_state (p : PlayerState) :
  state (fst (multiplayerEndGameDisplay p)) = state p /\
  playerName (fst (multiplayerEndGameDisplay p)) = playerName p.
Proof.
  unfold multiplayerEndGameDisplay.
  destruct (wordGuessed (state p)); [split; reflexivity|].
  destruct (incorrectGuesses (state p) =? maxGuesses (state p)); split; reflexivity.
Qed.

Lemma multiplayerEndGameDisplay_won (p : PlayerState) :
  wordGuessed (state p) = true ->
  totalWins (fst (multiplayerEndGameDisplay p)) = Int.incr (totalWins p) /\
  totalLosses (fst (multiplayerEndGameDisplay p)) = totalLosses p.
Proof.
  intros H. unfold multiplayerEndGameDisplay. rewrite H. split; reflexivity.
Qed.

(** What a turn returns: the [break] is taken exactly when the player's word
    is guessed after the turn; a turn that breaks was played by a player
    whose round was open, and it records a win and no loss. *)
Lemma playerTurn_result (p p' : PlayerState) (b : bool) (inp rest : list str)
    (out : list Output) :
  playerTurn p inp = Ret (p', b) rest out ->
  (b = true ->
     active (state p) = true /\ wordGuessed (state p') = true /\
     totalWins p' = Int.incr (totalWins p) /\ totalLosses p' = totalLosses p) /\
  (b = false -> wordGuessed (state p') = wordGuessed (state p)
                \/ (active (state p) = true /\ wordGuessed (state p') = false)) /\
  (active (state p) = true -> (b = true <-> wordGuessed (state p') = true)).
Proof.
  destruct (active (state p)) eqn:Ha.
  - rewrite (playerTurn_play p inp Ha).
    destruct (processPlayerGuess (state p) inp) as [r rest0 guessOut | | |];
      try discriminate.
    cbv zeta. destruct (wordGuessed (snd r)) eqn:Ew.
    + intros H. injection H as <- <- <- <-.
      destruct (multiplayerEndGameDisplay_state (set_state p (snd r))) as [Es _].
      destruct (multiplayerEndGameDisplay_won (set_state p (snd r)) Ew) as [Ewin Eloss].
      rewrite Es. cbn [state set_state]. rewrite Ew.
      split; [intros _; repeat split; assumption|].
      split; [discriminate|]. intros _. split; reflexivity.
    + destruct (maxGuesses (snd r) <=? incorrectGuesses (snd r)).
      * intros H. injection H as <- <- <- <-.
        destruct (multiplayerEndGameDisplay_state (set_state p (snd r))) as [Es _].
        rewrite Es. cbn [state set_state]. rewrite Ew.
        split; [discriminate|]. split; [intros _; right; split; reflexivity|].
        intros _. split; discriminate.
      * intros H. injection H as <- <- <- <-. cbn [state set_state]. rewrite Ew.
        split; [discriminate|]. split; [intros _; right; split; reflexivity|].
        intros _. split; discriminate.
  - rewrite (playerTurn_skip p inp Ha). intros H. injection H as <- <- <- <-.
    split; [discriminate|]. split; [intros _; now left | discriminate].
Qed.

(** The cycle in which player 1's turn breaks, and the one in which player
    2's turn does. *)
Lemma turnCycle_first_wins (p1 p2 p1' : PlayerState) (inp rest : list str)
    (out : list Output) :
  playerTurn p1 inp = Ret (p1', true) rest out ->
  turnCycle p1 p2 inp = Ret (p1', p2, false) rest out.
Proof.
  intros H. unfold turnCycle, bind. rewrite H. cbn [fst snd].
  unfold ret. cbn [emit andb]. now rewrite app_nil_r.
Qed.

Lemma turnCycle_second_wins (p1 p2 p1' p2' : PlayerState) (inp rest1 rest2 : list str)
    (out1 out2 : list Output) :
  playerTurn p1 inp = Ret (p1', false) rest1 out1 ->
  playerTurn p2 rest1 = Ret (p2', true) rest2 out2 ->
  turnCycle p1 p2 inp = Ret (p1', p2', false) rest2 (out1 ++ out2).
Proof.
  intros H1 H2. unfold turnCycle, bind. rewrite H1. cbn [fst snd].
  rewrite H2. cbn [fst snd]. unfold ret. cbn [emit andb]. now rewrite app_nil_r.
Qed.

Lemma turnCycle_no_win (p1 p2 p1' p2' : PlayerState) (inp rest1 rest2 : list str)
    (out1 out2 : list Output) :
  playerTurn p1 inp = Ret (p1', false) rest1 out1 ->
  playerTurn p2 rest1 = Ret (p2', false) rest2 out2 ->
  turnCycle p1 p2 inp =
    Ret (p1', p2', (active (state p1') || active (state p2'))%bool) rest2 (out1 ++ out2).
Proof.
  intros H1 H2. unfold turnCycle, bind. rewrite H1. cbn [fst snd].
  rewrite H2. cbn [fst snd]. unfold ret. cbn [emit andb]. now rewrite app_nil_r.
Qed.

Lemma multiplayerRound_fuel_stop (fuel : nat) (p1 p2 q1 q2 : PlayerState)
    (inp rest : list str) (out : list Output) :
  turnCycle p1 p2 inp = Ret (q1, q2, false) rest out ->
  multiplayerRound_fuel (S fuel) p1 p2 inp = Ret (q1, q2) rest out.
Proof.
  intros H. cbn [multiplayerRound_fuel]. unfold bind. rewrite H.
  unfold ret. cbn [emit]. now rewrite app_nil_r.
Qed.

(** C2, as amended.  When a player's turn ends with that player's word
    guessed, the round is over at once: [multiplayerRound] returns with the
    input lines after that guess unread, whatever they are, so no guess of
    the other player is processed in that cycle or in a later one, and the
    other player's state and tallies are those of before the winning guess.
    For player 1 the other player is as at the start of the cycle; for
    player 2 the other player is as player 1's own turn of that cycle left
    it.  A turn ends the round in this way exactly when it leaves the
    player's round won. *)
Theorem win_ends_round_at_once (fuel : nat) (p1 p2 : PlayerState) (inp : list str) :
  (forall (p1' : PlayerState) (rest : list str) (out : list Output),
     playerTurn p1 inp = Ret (p1', true) rest out ->
     outcome (state p1') = Won /\
     totalLosses p1' = totalLosses p1 /\
     multiplayerRound_fuel (S fuel) p1 p2 inp = Ret (p1', p2) rest out) /\
  (forall (p1' p2' : PlayerState) (rest1 rest2 : list str) (out1 out2 : list Output),
     playerTurn p1 inp = Ret (p1', false) rest1 out1 ->
     playerTurn p2 rest1 = Ret (p2', true) rest2 out2 ->
     outcome (state p2') = Won /\
     totalLosses p2' = totalLosses p2 /\
     multiplayerRound_fuel (S fuel) p1 p2 inp = Ret (p1', p2') rest2 (out1 ++ out2)) /\
  (forall (p p' : PlayerState) (b : bool) (rest0 rest : list str) (out : list Output),
     active (state p) = true ->
     playerTurn p rest0 = Ret (p', b) rest out ->
     (b = true <-> outcome (state p') = Won)).
Proof.
  split; [|split].
  - intros p1' rest out H.
    destruct (playerTurn_result _ _ _ _ _ _ H) as (Hb & _ & _).
    destruct (Hb eq_refl) as (_ & Hw & _ & Hl).
    split; [now apply outcome_Won|]. split; [exact Hl|].
    apply multiplayerRound_fuel_stop. now apply turnCycle_first_wins.
  - intros p1' p2' rest1 rest2 out1 out2 H1 H2.
    destruct (playerTurn_result _ _ _ _ _ _ H2) as (Hb & _ & _).
    destruct (Hb eq_refl) as (_ & Hw & _ & Hl).
    split; [now apply outcome_Won|]. split; [exact Hl|].
    apply multiplayerRound_fuel_stop. now apply (turnCycle_second_wins _ _ _ _ _ rest1).
  - intros p p' b rest0 rest out Ha H.
    destruct (playerTurn_result _ _ _ _ _ _ H) as (_ & _ & Hiff).
    rewrite outcome_Won. now apply Hiff.
Qed.

Lemma win_ends_round_at_once_witness :
  let p1 := newPlayerState (afterLetters (interactiveSetup 4 (cstr "dog") (cstr "barks"))
                              [ "D"; "O" ]%char) (cstr "Player 1") in
  let p2 := newPlayerState (afterLetters (interactiveSetup 4 (cstr "dog") (cstr "barks"))
                              [ "Z" ]%char) (cstr "Player 2") in
  let inp := [cstr "G"; cstr "X"] in
  exists (p1' : PlayerState) (out : list Output),
    playerTurn p1 inp = Ret (p1', true) [cstr "X"] out /\
    outcome (state p2) = Unresolved /\
    outcome (state p1') = Won /\
    totalLosses p1' = totalLosses p1 /\
    multiplayerRound_fuel 1 p1 p2 inp = Ret (p1', p2) [cstr "X"] out.
Proof.
  cbv zeta. eexists _, _.
  split; [vm_compute; reflexivity|]. split; [reflexivity|].
  refine (proj1 (win_ends_round_at_once 0 _ _ _) _ _ _ _).
  vm_compute. reflexivity.
Defined.

(** The claim as stated fails when the other player has already lost.
    Word DOG, four incorrect guesses allowed: player 1 guesses Z, player 2
    bets on the word CAT and loses, player 1 then guesses the word DOG.  The
    round ends with player 1's round won and player 2's round lost, the loss
    recorded; the line that follows is not read. *)
Lemma winner_beside_lost_player :
  exists (p1 p2 q1 q2 : PlayerState) (out : list Output),
    multiplayerStart 4 small_catalog 0 = Some (p1, p2) /\
    multiplayerRound p1 p2
      (map cstr [ "Z"; "1"; "CAT"; "1"; "DOG"; "X" ]%string) = Ret (q1, q2) [cstr "X"] out /\
    outcome (state p2) = Unresolved /\ totalLosses p2 = 0 /\
    outcome (state q1) = Won /\
    outcome (state q2) = Lost /\ totalLosses q2 = 1.
Proof.
  eexists _, _, _, _, _. split; [reflexivity|].
  split; [vm_compute; reflexivity|].
  repeat split.
Qed.

(** The scenario of the spec.  Word DOG, four incorrect guesses allowed:
    player 1 guesses D, O, G, player 2 guesses Z and then Z again.  The round
    ends after the G: player 2's round is unresolved with one incorrect
    guess, no loss is recorded, and the line that follows is not read. *)
Lemma short_circuit_scenario :
  exists (p1 p2 q1 q2 : PlayerState) (out : list Output),
    multiplayerStart 4 small_catalog 0 = Some (p1, p2) /\
    multiplayerRound p1 p2
      (map cstr [ "D"; "Z"; "O"; "Z"; "G"; "X" ]%string) = Ret (q1, q2) [cstr "X"] out /\
    outcome (state q1) = Won /\ totalWins q1 = 1 /\
    outcome (state q2) = Unresolved /\ incorrectGuesses (state q2) = 1 /\
    totalLosses q2 = 0.
Proof.
  eexists _, _, _, _, _. split; [reflexivity|].
  split; [vm_compute; reflexivity|].
  repeat split.
Qed.

(** A round that starts with no word guessed never ends with both. *)
Lemma round_has_one_winner (fuel : nat) :
  forall (p1 p2 q1 q2 : PlayerState) (inp rest : list str) (out : list Output),
    wordGuessed (state p1) = false -> wordGuessed (state p2) = false ->
    multiplayerRound_fuel fuel p1 p2 inp = Ret (q1, q2) rest out ->
    (wordGuessed (state q1) && wordGuessed (state q2))%bool = false.
Proof.
  induction fuel as [|fuel IH]; intros p1 p2 q1 q2 inp rest out Hw1 Hw2 H;
    [discriminate|].
  cbn [multiplayerRound_fuel] in H.
  apply bind_Ret in H. destruct H as ([[p1' p2'] ga] & rest0 & out0 & out1 & Hc & Hk & _).
  assert (Hinv : ga = false /\ (wordGuessed (state p1') && wordGuessed (state p2'))%bool = false
                 \/ wordGuessed (state p1') = false /\ wordGuessed (state p2') = false).
  { unfold turnCycle in Hc. apply bind_Ret in Hc.
    destruct Hc as ([t1 b1] & r1 & o1 & o1' & Ht1 & Hk1 & _). cbn [fst snd] in Hk1.
    destruct (playerTurn_result _ _ _ _ _ _ Ht1) as (_ & Hf1 & _).
    destruct b1.
    - unfold ret in Hk1. injection Hk1 as <- <- <- _ _. left.
      split; [reflexivity|]. rewrite Hw2. apply andb_false_r.
    - assert (Et1 : wordGuessed (state t1) = false).
      { destruct (Hf1 eq_refl) as [E | [_ E]]; congruence. }
      apply bind_Ret in Hk1.
      destruct Hk1 as ([t2 b2] & r2 & o2 & o2' & Ht2 & Hk2 & _). cbn [fst snd] in Hk2.
      destruct (playerTurn_result _ _ _ _ _ _ Ht2) as (_ & Hf2 & _).
      destruct b2.
      + unfold ret in Hk2. injection Hk2 as <- <- <- _ _. left.
        split; [reflexivity|]. now rewrite Et1.
      + assert (Et2 : wordGuessed (state t2) = false).
        { destruct (Hf2 eq_refl) as [E | [_ E]]; congruence. }
        unfold ret in Hk2. injection Hk2 as <- <- _ _ _. right. now split. }
  destruct Hinv as [[-> Hand] | [E1 E2]].
  - unfold ret in Hk. injection Hk as <- <- _ _. exact Hand.
  - destruct ga.
    + now apply (IH _ _ _ _ _ _ _ E1 E2 Hk).
    + unfold ret in Hk. injection Hk as <- <- _ _. rewrite E1. reflexivity.
Qed.

(** ** The step budgets are enough

    Every iteration of a game loop reads at least one line, so a loop given
    one more step than there are lines never runs out of steps: [gameLoop]
    and [multiplayerRound] return, or stop for lack of input. *)

Lemma emit_Timeout {A : Type} (pre : list Output) (r : Res A) :
  emit pre r = Timeout -> r = Timeout.
Proof. destruct r; simpl; congruence. Qed.

Lemma bind_Timeout {A B : Type} (m : IO A) (k : A -> IO B) (inp : list str) :
  bind m k inp = Timeout ->
  m inp = Timeout \/
  exists (a : A) (rest : list str) (out : list Output),
    m inp = Ret a rest out /\ k a rest = Timeout.
Proof.
  unfold bind. destruct (m inp) as [a rest out | | |]; try discriminate.
  - intros H. apply emit_Timeout in H. right. exists a, rest, out. auto.
  - intros _. now left.
Qed.

Lemma consumes_bind {A B : Type} (n1 n2 : nat) (m : IO A) (k : A -> IO B) :
  consumes n1 m -> (forall a, consumes n2 (k a)) -> consumes (n1 + n2) (bind m k).
Proof.
  intros Hm Hk inp. split.
  - intros H. apply bind_Timeout in H.
    destruct H as [H | (a & rest & out & _ & H)].
    + now apply (proj1 (Hm inp)).
    + now apply (proj1 (Hk a rest)).
  - intros b rest out H. apply bind_Ret in H.
    destruct H as (a & rest0 & out0 & out1 & H1 & H2 & _).
    apply (proj2 (Hm inp)) in H1. apply (proj2 (Hk a rest0)) in H2. lia.
Qed.

Lemma consumes_ret {A : Type} (a : A) : consumes 0 (ret a).
Proof.
  intros inp. split; [discriminate|].
  intros a' rest out H. injection H as _ <- _. lia.
Qed.

Lemma consumes_print (o : Output) : consumes 0 (print o).
Proof.
  intros inp. split; [discriminate|].
  intros a' rest out H. injection H as _ <- _. lia.
Qed.

Lemma consumes_lift {A : Type} (c : Cout A) : consumes 0 (lift c).
Proof.
  intros inp. split; [discriminate|].
  intros a' rest out H. injection H as _ <- _. lia.
Qed.

Lemma consumes_getline : consumes 0 getline.
Proof.
  intros [|l inp]; (split; [discriminate|]);
    intros a' rest out H; injection H as _ <- _; simpl; lia.
Qed.

Lemma consumes_getValidatedInput (prompt v : str) : consumes 1 (getValidatedInput prompt v).
Proof.
  intros inp. unfold getValidatedInput.
  assert (H : getValidatedInput_loop v inp <> Timeout /\
              forall c rest out, getValidatedInput_loop v inp = Ret c rest out ->
                                 (List.length rest + 1 <= List.length inp)%nat).
  { induction inp as [|l inp [IHt IHr]]; [split; [discriminate|]; intros; discriminate|].
    cbn [getValidatedInput_loop].
    destruct (isdigit (front l) && contains v (front l))%bool.
    { split; [discriminate|]. intros c rest out H. injection H as _ <- _. simpl. lia. }
    destruct ((List.length l =? 1)%nat &&
              (contains v (toupper (front l)) || char_eqb (front l) "1"))%bool.
    { split; [discriminate|]. intros c rest out H. injection H as _ <- _. simpl. lia. }
    split.
    - intros H. apply emit_Timeout in H. contradiction.
    - intros c rest out H.
      destruct (getValidatedInput_loop v inp) as [c' rest' out' | | |] eqn:E;
        try discriminate.
      cbn [emit] in H. injection H as _ <- _.
      specialize (IHr _ _ _ eq_refl). simpl. lia. }
  destruct H as [Ht Hr]. split.
  - intros H. apply emit_Timeout in H. contradiction.
  - intros c rest out H.
    destruct (getValidatedInput_loop v inp) as [c' rest' out' | | |] eqn:E;
      try discriminate.
    cbn [emit] in H. injection H as _ <- _. now apply (Hr c' rest' out').
Qed.

Lemma consumes_processPlayerGuess (s : GameState) : consumes 1 (processPlayerGuess s).
Proof.
  unfold processPlayerGuess.
  apply (consumes_bind 1 0); [apply consumes_getValidatedInput|].
  intros guess. destruct (char_eqb guess "1").
  - apply (consumes_bind 0 0); [apply consumes_print|]. intros _.
    apply (consumes_bind 0 0); [apply consumes_getline|]. intros fullGuess.
    apply consumes_lift.
  - apply consumes_lift.
Qed.

Lemma gameLoop_fuel_total (fuel : nat) :
  forall (s : GameState) (inp : list str),
    (List.length inp < fuel)%nat -> gameLoop_fuel fuel s inp <> Timeout.
Proof.
  induction fuel as [|fuel IH]; intros s inp Hlen; [lia|].
  cbn [gameLoop_fuel]. destruct (active s); [|discriminate].
  intros H. apply bind_Timeout in H.
  destruct H as [H | (a & rest & out & H1 & H)]; [discriminate|].
  injection H1 as _ <- _.
  apply bind_Timeout in H.
  destruct H as [H | (r & rest & out' & H1 & H)].
  { now apply (proj1 (consumes_processPlayerGuess s inp)). }
  apply (proj2 (consumes_processPlayerGuess s inp)) in H1.
  apply bind_Timeout in H.
  destruct H as [H | (u & rest' & out'' & H2 & H)].
  { destruct (negb (fst r)); discriminate. }
  assert (rest' = rest) by (destruct (negb (fst r)); now injection H2 as _ <- _).
  subst rest'. apply (IH (snd r) rest); [lia | exact H].
Qed.

Lemma gameLoop_total (s : GameState) (inp : list str) : gameLoop s inp <> Timeout.
Proof. apply gameLoop_fuel_total. lia. Qed.

Lemma playerTurn_reads (p : PlayerState) (inp : list str) :
  playerTurn p inp <> Timeout /\
  forall p' b rest out,
    playerTurn p inp = Ret (p', b) rest out ->
    (List.length rest <= List.length inp)%nat /\
    (active (state p) = true -> (List.length rest < List.length inp)%nat) /\
    (active (state p) = false -> p' = p).
Proof.
  destruct (active (state p)) eqn:Ha.
  - rewrite (playerTurn_play p inp Ha).
    destruct (consumes_processPlayerGuess (state p) inp) as [Ht Hr].
    destruct (processPlayerGuess (state p) inp) as [r rest0 out0 | | |];
      try (split; [discriminate | intros; discriminate]).
    2:{ congruence. }
    specialize (Hr _ _ _ eq_refl). cbv zeta.
    destruct (wordGuessed (snd r));
      [|destruct (maxGuesses (snd r) <=? incorrectGuesses (snd r))];
      (split; [discriminate|]; intros p' b rest out H; injection H as _ _ <- _;
       repeat split; try lia; discriminate).
  - rewrite (playerTurn_skip p inp Ha). split; [discriminate|].
    intros p' b rest out H. injection H as <- _ <- _.
    repeat split; try lia; discriminate.
Qed.

Lemma turnCycle_reads (p1 p2 : PlayerState) (inp : list str) :
  turnCycle p1 p2 inp <> Timeout /\
  forall q1 q2 rest out,
    turnCycle p1 p2 inp = Ret (q1, q2, true) rest out ->
    (List.length rest < List.length inp)%nat.
Proof.
  unfold turnCycle. split.
  - intros H. apply bind_Timeout in H.
    destruct H as [H | ([t1 b1] & r1 & o1 & H1 & H)].
    { now apply (proj1 (playerTurn_reads p1 inp)). }
    cbn [fst snd] in H. destruct b1; [discriminate|].
    apply bind_Timeout in H.
    destruct H as [H | ([t2 b2] & r2 & o2 & H2 & H)].
    { now apply (proj1 (playerTurn_reads p2 r1)). }
    cbn [fst snd] in H. destruct b2; discriminate.
  - intros q1 q2 rest out H. apply bind_Ret in H.
    destruct H as ([t1 b1] & r1 & o1 & o1' & H1 & H & _). cbn [fst snd] in H.
    destruct (proj2 (playerTurn_reads p1 inp) _ _ _ _ H1) as (Hle1 & Hlt1 & Hsame1).
    destruct b1; [discriminate|].
    apply bind_Ret in H.
    destruct H as ([t2 b2] & r2 & o2 & o2' & H2 & H & _). cbn [fst snd] in H.
    destruct (proj2 (playerTurn_reads p2 r1) _ _ _ _ H2) as (Hle2 & Hlt2 & Hsame2).
    destruct b2; [discriminate|].
    unfold ret in H. injection H as <- <- Hga <- _. cbn [andb] in Hga.
    destruct (active (state p1)) eqn:Ha1; [specialize (Hlt1 eq_refl); lia|].
    destruct (active (state p2)) eqn:Ha2; [specialize (Hlt2 eq_refl); lia|].
    rewrite (Hsame1 eq_refl), (Hsame2 eq_refl), Ha1, Ha2 in Hga. discriminate.
Qed.

Lemma multiplayerRound_fuel_total (fuel : nat) :
  forall (p1 p2 : PlayerState) (inp : list str),
    (List.length inp < fuel)%nat -> multiplayerRound_fuel fuel p1 p2 inp <> Timeout.
Proof.
  induction fuel as [|fuel IH]; intros p1 p2 inp Hlen; [lia|].
  cbn [multiplayerRound_fuel]. intros H. apply bind_Timeout in H.
  destruct H as [H | ([[q1 q2] ga] & rest & out & H1 & H)].
  { now apply (proj1 (turnCycle_reads p1 p2 inp)). }
  destruct ga; [|discriminate].
  apply (proj2 (turnCycle_reads p1 p2 inp)) in H1.
  apply (IH q1 q2 rest); [lia | exact H].
Qed.

Lemma multiplayerRound_total (p1 p2 : PlayerState) (inp : list str) :
  multiplayerRound p1 p2 inp <> Timeout.
Proof. apply multiplayerRound_fuel_total. lia. Qed.

(** * Further properties *)

(** ** Validated input *)

Lemma getValidatedInput_loop_accepted (v : str) (input : str) (rest : list str) :
  getValidatedInput_loop v (input :: rest) =
    match accepted v input with
    | Some c => Ret c rest []
    | None => emit [InvalidResponse v] (getValidatedInput_loop v rest)
    end.
Proof.
  cbn [getValidatedInput_loop]. unfold accepted.
  destruct (isdigit (front input) && contains v (front input))%bool; [reflexivity|].
  destruct ((List.length input =? 1)%nat &&
            (contains v (toupper (front input)) || char_eqb (front input) "1"))%bool;
    reflexivity.
Qed.

Lemma toupper_one (c : ascii) : char_eqb c "1"%char = true -> toupper c = "1"%char.
Proof.
  intros H. apply Ascii.eqb_eq in H. subst c. reflexivity.
Qed.

(** A character that a line is accepted with is listed in the valid options
    or is the character 1. *)
Lemma accepted_valid (v : str) (input : str) (c : ascii) :
  accepted v input = Some c -> In c v \/ c = "1"%char.
Proof.
  unfold accepted.
  destruct (isdigit (front input) && contains v (front input))%bool eqn:E1.
  - intros H. injection H as <-. apply andb_true_iff in E1. destruct E1 as [_ E1].
    left. now apply contains_In.
  - destruct ((List.length input =? 1)%nat &&
              (contains v (toupper (front input)) || char_eqb (front input) "1"))%bool
      eqn:E2; [|discriminate].
    intros H. injection H as <-. apply andb_true_iff in E2. destruct E2 as [_ E2].
    apply orb_true_iff in E2. destruct E2 as [E2 | E2].
    + left. now apply contains_In.
    + right. now apply toupper_one.
Qed.

(** What [getValidatedInput] returns was read off one line of the input: the
    lines before it were rejected, one message each, and the lines after it
    are left. *)
Lemma getValidatedInput_loop_inv (v : str) (inp : list str) :
  forall (c : ascii) (rest : list str) (out : list Output),
    getValidatedInput_loop v inp = Ret c rest out ->
    exists (bad : list str) (good : str),
      inp = bad ++ good :: rest /\
      Forall (fun l => accepted v l = None) bad /\
      accepted v good = Some c /\
      out = repeat (InvalidResponse v) (List.length bad).
Proof.
  induction inp as [|input inp IH]; intros c rest out H; [discriminate|].
  rewrite getValidatedInput_loop_accepted in H.
  destruct (accepted v input) as [c'|] eqn:E.
  - injection H as <- <- <-. exists [], input. repeat split; auto.
  - destruct (getValidatedInput_loop v inp) as [c' rest' out' | | |] eqn:E'; try discriminate.
    cbn [emit] in H. injection H as <- <- <-.
    destruct (IH _ _ _ eq_refl) as (bad & good & -> & Hbad & Hgood & ->).
    exists (input :: bad), good. repeat split; auto.
Qed.

(** X1.  The character that [getValidatedInput] returns is one of the valid
    options or the character 1, and at least one line was read for it. *)
Theorem validated_input_is_valid
    (prompt v : str) (inp rest : list str) (c : ascii) (out : list Output) :
  getValidatedInput prompt v inp = Ret c rest out ->
  (In c v \/ c = "1"%char) /\ (List.length rest < List.length inp)%nat.
Proof.
  unfold getValidatedInput. intros H.
  destruct (getValidatedInput_loop v inp) as [c' rest' out' | | |] eqn:E; try discriminate.
  cbn [emit] in H. injection H as <- <- _.
  destruct (getValidatedInput_loop_inv v inp _ _ _ E) as (bad & good & -> & _ & Hg & _).
  split; [now apply (accepted_valid v good)|].
  rewrite length_app. simpl. lia.
Qed.

Lemma validated_input_is_valid_witness :
  getValidatedInput guess_prompt ALPHABET [cstr "ab"; cstr "?"; cstr "q"; cstr "z"]
    = Ret "Q"%char [cstr "z"]
        [Prompt guess_prompt; InvalidResponse ALPHABET; InvalidResponse ALPHABET] /\
  (In "Q"%char ALPHABET \/ "Q"%char = "1"%char) /\
  (List.length [cstr "z"] < List.length [cstr "ab"; cstr "?"; cstr "q"; cstr "z"])%nat.
Proof.
  split; [reflexivity|].
  apply (validated_input_is_valid guess_prompt ALPHABET
           [cstr "ab"; cstr "?"; cstr "q"; cstr "z"] [cstr "z"] "Q"%char
           [Prompt guess_prompt; InvalidResponse ALPHABET; InvalidResponse ALPHABET]).
  reflexivity.
Defined.

(** X2.  [getValidatedInput] asks again until a line is accepted: after any
    number of rejected lines, each answered by one message, it returns the
    character of the first accepted line and leaves the lines after it
    unread; when every line is rejected it never returns. *)
Theorem validated_input_skips_rejected_lines
    (prompt v : str) (bad : list str) (good : str) (rest : list str) (c : ascii) :
  Forall (fun l => accepted v l = None) bad ->
  accepted v good = Some c ->
  getValidatedInput prompt v (bad ++ good :: rest)
    = Ret c rest (Prompt prompt :: repeat (InvalidResponse v) (List.length bad)) /\
  getValidatedInput prompt v bad
    = Starved (Prompt prompt :: repeat (InvalidResponse v) (List.length bad)).
Proof.
  intros Hbad Hgood. unfold getValidatedInput.
  assert (H1 : getValidatedInput_loop v (bad ++ good :: rest)
               = Ret c rest (repeat (InvalidResponse v) (List.length bad))).
  { induction Hbad as [|l bad Hl Hbad IH]; simpl app.
    - rewrite getValidatedInput_loop_accepted, Hgood. reflexivity.
    - rewrite getValidatedInput_loop_accepted, Hl, IH. reflexivity. }
  assert (H2 : getValidatedInput_loop v bad
               = Starved (repeat (InvalidResponse v) (List.length bad))).
  { clear H1. induction Hbad as [|l bad Hl Hbad IH]; [reflexivity|].
    rewrite getValidatedInput_loop_accepted, Hl, IH. reflexivity. }
  rewrite H1, H2. split; reflexivity.
Qed.

Lemma validated_input_skips_rejected_lines_witness :
  let bad := [cstr "ab"; cstr ""; cstr "5"] in
  Forall (fun l => accepted ALPHABET l = None) bad /\
  accepted ALPHABET (cstr "q") = Some "Q"%char /\
  getValidatedInput guess_prompt ALPHABET (bad ++ cstr "q" :: [cstr "z"])
    = Ret "Q"%char [cstr "z"]
        (Prompt guess_prompt :: repeat (InvalidResponse ALPHABET) (List.length bad)) /\
  getValidatedInput guess_prompt ALPHABET bad
    = Starved (Prompt guess_prompt :: repeat (InvalidResponse ALPHABET) (List.length bad)).
Proof.
  assert (Hb : Forall (fun l => accepted ALPHABET l = None) [cstr "ab"; cstr ""; cstr "5"])
    by (repeat constructor).
  split; [exact Hb|]. split; [reflexivity|].
  exact (validated_input_skips_rejected_lines guess_prompt ALPHABET
           [cstr "ab"; cstr ""; cstr "5"] (cstr "q") [cstr "z"] "Q"%char Hb eq_refl).
Defined.

Lemma getValidatedInput_inv (prompt v : str) (inp rest : list str) (c : ascii)
    (out : list Output) :
  getValidatedInput prompt v inp = Ret c rest out ->
  exists (bad : list str) (good : str),
    inp = bad ++ good :: rest /\
    Forall (fun l => accepted v l = None) bad /\
    accepted v good = Some c /\
    out = Prompt prompt :: repeat (InvalidResponse v) (List.length bad).
Proof.
  unfold getValidatedInput. intros H.
  destruct (getValidatedInput_loop v inp) as [c' rest' out' | | |] eqn:E; try discriminate.
  cbn [emit] in H. injection H as <- <- <-.
  destruct (getValidatedInput_loop_inv v inp _ _ _ E) as (bad & good & H1 & H2 & H3 & ->).
  exists bad, good. auto.
Qed.

Lemma not_in_repeat_invalid (v : str) (n : nat) (s : str) :
  ~ In (Text s) (repeat (InvalidResponse v) n).
Proof. intros H. apply repeat_spec in H. discriminate. Qed.

(** ** Menus *)

(** X3.  [selectDifficultyLevel] returns 8, 4 or 2, as the accepted line
    starts with 1, 2 or 3; the branch that falls back to the default level
    is never taken, since no other character passes the validation. *)
Theorem difficulty_is_one_of_three
    (inp rest : list str) (m : Z) (out : list Output) :
  selectDifficultyLevel inp = Ret m rest out ->
  exists (bad : list str) (good : str),
    inp = bad ++ good :: rest /\
    out = Prompt difficulty_prompt
            :: repeat (InvalidResponse (cstr "123")) (List.length bad) /\
    (front good = "1"%char /\ m = 8 \/
     front good = "2"%char /\ m = 4 \/
     front good = "3"%char /\ m = 2) /\
    ~ In invalid_level_msg out.
Proof.
  unfold selectDifficultyLevel. intros H. apply bind_Ret in H.
  destruct H as (c & rest0 & out0 & out1 & Hget & Hk & ->).
  destruct (getValidatedInput_inv _ _ _ _ _ _ Hget) as (bad & good & -> & _ & Hacc & ->).
  assert (Hc : c = front good /\ (c = "1" \/ c = "2" \/ c = "3")%char).
  { unfold accepted in Hacc.
    destruct (isdigit (front good) && contains (cstr "123") (front good))%bool eqn:E1.
    - injection Hacc as <-. split; [reflexivity|].
      apply andb_true_iff in E1. destruct E1 as [_ E1]. apply contains_In in E1.
      simpl in E1. intuition.
    - destruct ((List.length good =? 1)%nat &&
                (contains (cstr "123") (toupper (front good))
                 || char_eqb (front good) "1"))%bool eqn:E2; [|discriminate].
      injection Hacc as <-. apply andb_true_iff in E2. destruct E2 as [_ E2].
      apply orb_true_iff in E2. exfalso.
      destruct E2 as [E2 | E2].
      + apply andb_false_iff in E1.
        apply contains_In in E2. simpl in E2.
        assert (Ef : front good = "1"%char \/ front good = "2"%char \/ front good = "3"%char).
        { destruct (front good) as [[] [] [] [] [] [] [] []]; simpl in E2;
            intuition discriminate. }
        destruct Ef as [Ef | [Ef | Ef]]; rewrite Ef in E1; destruct E1; discriminate.
      + apply Ascii.eqb_eq in E2. rewrite E2 in E1. discriminate. }
  destruct Hc as [-> Hc].
  exists bad, good.
  destruct Hc as [Hc | [Hc | Hc]]; rewrite Hc in Hk; cbn in Hk; injection Hk as <- <- <-;
    rewrite app_nil_r; (split; [reflexivity|]); (split; [reflexivity|]);
    (split; [auto|]); intros [H | H]; try discriminate;
    now apply not_in_repeat_invalid in H.
Qed.

Lemma difficulty_is_one_of_three_witness :
  selectDifficultyLevel [cstr "7"; cstr "2nd"; cstr "x"]
    = Ret 4 [cstr "x"] [Prompt difficulty_prompt; InvalidResponse (cstr "123")] /\
  exists (bad : list str) (good : str),
    [cstr "7"; cstr "2nd"; cstr "x"] = bad ++ good :: [cstr "x"] /\
    [Prompt difficulty_prompt; InvalidResponse (cstr "123")]
      = Prompt difficulty_prompt
          :: repeat (InvalidResponse (cstr "123")) (List.length bad) /\
    (front good = "1"%char /\ 4 = 8 \/
     front good = "2"%char /\ 4 = 4 \/
     front good = "3"%char /\ 4 = 2) /\
    ~ In invalid_level_msg [Prompt difficulty_prompt; InvalidResponse (cstr "123")].
Proof.
  split; [reflexivity|].
  apply (difficulty_is_one_of_three [cstr "7"; cstr "2nd"; cstr "x"] [cstr "x"] 4
           [Prompt difficulty_prompt; InvalidResponse (cstr "123")]).
  reflexivity.
Defined.

Lemma toupper_digit (c : ascii) : isdigit (toupper c) = true -> toupper c = c.
Proof.
  destruct c as [[] [] [] [] [] [] [] []]; vm_compute; intros H;
    first [reflexivity | discriminate].
Qed.

(** With options that are all digits, an accepted line is accepted with its
    own first character. *)
Lemma accepted_digit_options (v : str) (good : str) (c : ascii) :
  (forall x, In x v -> isdigit x = true) ->
  accepted v good = Some c ->
  c = front good /\ (In c v \/ c = "1"%char).
Proof.
  intros Hv Hacc. split; [|now apply (accepted_valid v good)].
  unfold accepted in Hacc.
  destruct (isdigit (front good) && contains v (front good))%bool eqn:E1.
  - now injection Hacc as <-.
  - destruct ((List.length good =? 1)%nat &&
              (contains v (toupper (front good)) || char_eqb (front good) "1"))%bool
      eqn:E2; [|discriminate].
    injection Hacc as <-. apply andb_true_iff in E2. destruct E2 as [_ E2].
    apply orb_true_iff in E2. destruct E2 as [E2 | E2].
    + apply contains_In in E2. apply toupper_digit. now apply Hv.
    + apply Ascii.eqb_eq in E2. now rewrite E2.
Qed.

(** X4.  [modeMenu] returns the mode whose digit, 0 to 4, starts the accepted
    line; the branch that falls back to single-player mode is never taken. *)
Theorem mode_menu_never_defaults
    (inp rest : list str) (mode : GameMode) (out : list Output) :
  modeMenu inp = Ret mode rest out ->
  exists (bad : list str) (good : str),
    inp = bad ++ good :: rest /\
    (front good = "0"%char /\ mode = EXIT_GAME \/
     front good = "1"%char /\ mode = SINGLE_PLAYER \/
     front good = "2"%char /\ mode = TWO_PLAYER \/
     front good = "3"%char /\ mode = INTERACTIVE_TWO_PLAYER \/
     front good = "4"%char /\ mode = MANAGE_WORDLIST) /\
    ~ In invalid_mode_msg out.
Proof.
  unfold modeMenu. intros H. apply bind_Ret in H.
  destruct H as ([] & rest0 & out0 & out1 & Hp & H & ->).
  unfold print in Hp. injection Hp as <- <-.
  apply bind_Ret in H. destruct H as (c & rest1 & out2 & out3 & Hget & Hk & ->).
  destruct (getValidatedInput_inv _ _ _ _ _ _ Hget) as (bad & good & -> & _ & Hacc & ->).
  apply accepted_digit_options in Hacc.
  2:{ intros x Hx. simpl in Hx.
      repeat (destruct Hx as [<- | Hx]; [reflexivity|]). contradiction. }
  destruct Hacc as [-> Hin].
  assert (Hc : (front good = "0" \/ front good = "1" \/ front good = "2"
                \/ front good = "3" \/ front good = "4")%char).
  { simpl in Hin. intuition. }
  exists bad, good.
  destruct Hc as [Hc | [Hc | [Hc | [Hc | Hc]]]]; rewrite Hc in Hk; cbn in Hk;
    injection Hk as <- <- <-; rewrite app_nil_r;
    (split; [reflexivity|]); (split; [intuition|]);
    intros [H | [H | H]]; try discriminate;
    now apply not_in_repeat_invalid in H.
Qed.

Lemma mode_menu_never_defaults_witness :
  modeMenu [cstr "9"; cstr "4"; cstr "3"]
    = Ret MANAGE_WORDLIST [cstr "3"]
        [Text (cstr "Welcome to Hangman!"); Prompt menu_prompt;
         InvalidResponse (cstr "01234")] /\
  exists (bad : list str) (good : str),
    [cstr "9"; cstr "4"; cstr "3"] = bad ++ good :: [cstr "3"] /\
    (front good = "0"%char /\ MANAGE_WORDLIST = EXIT_GAME \/
     front good = "1"%char /\ MANAGE_WORDLIST = SINGLE_PLAYER \/
     front good = "2"%char /\ MANAGE_WORDLIST = TWO_PLAYER \/
     front good = "3"%char /\ MANAGE_WORDLIST = INTERACTIVE_TWO_PLAYER \/
     front good = "4"%char /\ MANAGE_WORDLIST = MANAGE_WORDLIST) /\
    ~ In invalid_mode_msg
         [Text (cstr "Welcome to Hangman!"); Prompt menu_prompt;
          InvalidResponse (cstr "01234")].
Proof.
  split; [reflexivity|].
  apply (mode_menu_never_defaults [cstr "9"; cstr "4"; cstr "3"] [cstr "3"]
           MANAGE_WORDLIST
           [Text (cstr "Welcome to Hangman!"); Prompt menu_prompt;
            InvalidResponse (cstr "01234")]).
  reflexivity.
Defined.

(** ** The gallows *)



(** With a negative count or a maximum that is not positive nothing is
    drawn; with a count whose eightfold does not fit an [int] the index can
    fall below zero, outside the array of stages. *)
Lemma gallows_guard (i m : Z) : i < 0 \/ m <= 0 -> drawGallows i m = [GallowsInvalid].
Proof.
  intros H. unfold drawGallows.
  destruct (Z.ltb_spec i 0); [reflexivity|].
  destruct (Z.leb_spec m 0); [reflexivity | lia].
Qed.

Lemma gallows_overflow : drawGallows 268435456 1 = [GallowsStage (-2147483648)].
Proof. reflexivity. Qed.

(** ** One guess *)

(** What [processPlayerGuess] did when it returns: a letter guess with a
    letter of the alphabet, or a full-word guess with the line typed. *)
Lemma processPlayerGuess_inv (s : GameState) (inp rest : list str)
    (r : bool * GameState) (out : list Output) :
  processPlayerGuess s inp = Ret r rest out ->
  (exists (c : ascii) (out0 : list Output),
     In c ALPHABET /\ r = fst (handleCharacterGuess s c) /\
     out = out0 ++ snd (handleCharacterGuess s c) /\
     Forall (fun o => o = Prompt guess_prompt \/ o = InvalidResponse ALPHABET) out0) \/
  (exists (line : str) (out0 : list Output),
     r = fst (fullWordGuess s line) /\
     out = out0 ++ snd (fullWordGuess s line) /\
     Forall (fun o => o = Prompt guess_prompt \/ o = InvalidResponse ALPHABET
                      \/ o = Text (cstr "Type your guess for the word.")) out0).
Proof.
  unfold processPlayerGuess. intros H. apply bind_Ret in H.
  destruct H as (c & rest0 & out0 & out1 & Hget & Hk & ->).
  destruct (getValidatedInput_inv _ _ _ _ _ _ Hget) as (bad & good & _ & _ & Hacc & ->).
  assert (Hout0 : Forall (fun o => o = Prompt guess_prompt \/ o = InvalidResponse ALPHABET)
                    (Prompt guess_prompt
                       :: repeat (InvalidResponse ALPHABET) (List.length bad))).
  { constructor; [now left|]. apply Forall_forall. intros o Ho.
    apply repeat_spec in Ho. now right. }
  apply accepted_valid in Hacc. destruct Hacc as [Hin | ->].
  - rewrite (alphabet_letter_not_one c Hin) in Hk. unfold lift in Hk.
    injection Hk as <- <- <-. left. exists c. eexists. repeat split; eauto.
  - cbn [char_eqb Ascii.eqb] in Hk. change (char_eqb "1" "1") with true in Hk.
    cbv iota in Hk. apply bind_Ret in Hk.
    destruct Hk as ([] & rest1 & o1 & o2 & Hp & Hk & ->).
    unfold print in Hp. injection Hp as <- <-.
    apply bind_Ret in Hk. destruct Hk as (line & rest2 & o3 & o4 & Hgl & Hk & ->).
    assert (o3 = []) by (unfold getline in Hgl; destruct rest0; now injection Hgl as _ _ <-).
    subst o3. unfold lift in Hk. injection Hk as <- <- <-.
    right. exists line. eexists. split; [reflexivity|]. split.
    + rewrite app_assoc. reflexivity.
    + apply Forall_app. split.
      * eapply Forall_impl; [|exact Hout0]. intros o [Ho | Ho]; auto.
      * constructor; [now right; right | constructor].
Qed.

(** What a letter guess leaves alone, and by how much it moves the count of
    incorrect guesses. *)
Lemma handleCharacterGuess_step (s : GameState) (c : ascii) :
  let s' := snd (fst (handleCharacterGuess s c)) in
  chosenWord s' = chosenWord s /\ chosenHint s' = chosenHint s /\
  maxGuesses s' = maxGuesses s /\
  wonRounds s' = wonRounds s /\ lostRounds s' = lostRounds s /\
  (incorrectGuesses s' = incorrectGuesses s \/
   incorrectGuesses s' = Int.incr (incorrectGuesses s) /\ wordGuessed s' = wordGuessed s) /\
  (wordGuessed s = true -> wordGuessed s' = true).
Proof.
  cbv zeta. unfold handleCharacterGuess, checkWordGuessed.
  destruct (contains (guessedLetters s) c); cbn [fst snd]; [repeat split; auto|].
  cbn [chosenWord set_guessedLetters].
  destruct (contains (chosenWord s) c); cbn [negb fst snd].
  - match goal with |- context [if ?b then _ else _] => destruct b end;
      cbn [fst snd]; repeat split; auto.
  - repeat split; auto.
Qed.

Lemma wordGuess_step (s : GameState) (w : str) :
  let s' := snd (fst (wordGuess s w)) in
  chosenWord s' = chosenWord s /\ chosenHint s' = chosenHint s /\
  maxGuesses s' = maxGuesses s /\
  wonRounds s' = wonRounds s /\ lostRounds s' = lostRounds s /\
  guessedLetters s' = guessedLetters s /\
  (w = chosenWord s /\ wordGuessed s' = true /\ incorrectGuesses s' = incorrectGuesses s
   \/ w <> chosenWord s /\ wordGuessed s' = wordGuessed s
      /\ incorrectGuesses s' = maxGuesses s).
Proof.
  cbv zeta. unfold wordGuess. destruct (str_eqb w (chosenWord s)) eqn:E; cbn.
  - apply str_eqb_eq in E. repeat split; auto.
  - apply str_eqb_neq in E. repeat split; auto.
Qed.

Lemma processPlayerGuess_keeps_invariant (s0 s : GameState) (inp rest : list str)
    (r : bool * GameState) (out : list Output) :
  0 <= incorrectGuesses s0 -> maxGuesses s0 <= Int.INT_MAX ->
  roundInvariant s0 s -> active s = true ->
  processPlayerGuess s inp = Ret r rest out ->
  roundInvariant s0 (snd r).
Proof.
  intros H0 Hmax (Hw & Hh & Hm & Hwon & Hlost & Hinc & Hlv & Hnd) Ha H.
  unfold active in Ha. apply andb_true_iff in Ha. destruct Ha as [Hlt _].
  apply Z.ltb_lt in Hlt.
  apply processPlayerGuess_inv in H.
  destruct H as [(c & out0 & Hc & -> & _) | (line & out0 & -> & _)].
  - destruct (handleCharacterGuess_step s c) as (E1 & E2 & E3 & E4 & E5 & E6 & _).
    fold (afterLetter s c) in *.
    assert (Ei : Int.incr (incorrectGuesses s) = incorrectGuesses s + 1)
      by (apply Int_incr_small; unfold Int.INT_MIN; lia).
    unfold roundInvariant. rewrite E1, E2, E3, E4, E5.
    repeat split; try assumption; try (destruct E6 as [-> | [-> _]]; lia).
    + unfold lettersValid. rewrite afterLetter_guessed.
      destruct (contains (guessedLetters s) c); [exact Hlv|].
      apply Forall_app. split; [exact Hlv | now constructor].
    + now apply afterLetter_NoDup.
  - unfold fullWordGuess.
    destruct (wordGuess_step s (convertToUpper line)) as (E1 & E2 & E3 & E4 & E5 & E6 & E7).
    unfold roundInvariant, lettersValid. rewrite E1, E2, E3, E4, E5, E6.
    repeat split; try assumption;
      destruct E7 as [(_ & _ & ->) | (_ & _ & ->)]; lia.
Qed.

(** ** The game loop *)

(** A property that every guess of an open round keeps holds when the loop
    returns, and the round is then over. *)
Lemma gameLoop_fuel_invariant (P : GameState -> Prop) :
  (forall s inp r rest out,
     P s -> active s = true -> processPlayerGuess s inp = Ret r rest out -> P (snd r)) ->
  forall (fuel : nat) (s : GameState) (inp : list str) (s' : GameState)
         (rest : list str) (out : list Output),
    P s -> gameLoop_fuel fuel s inp = Ret s' rest out -> P s' /\ active s' = false.
Proof.
  intros Hstep. induction fuel as [|fuel IH]; intros s inp s' rest out HP H;
    [discriminate|].
  cbn [gameLoop_fuel] in H. destruct (active s) eqn:Ha.
  - apply bind_Ret in H. destruct H as ([] & r0 & o0 & o1 & Hl & Hk & _).
    unfold lift in Hl. injection Hl as <- _.
    apply bind_Ret in Hk. destruct Hk as (r & r1 & o2 & o3 & Hp & Hk & _).
    apply bind_Ret in Hk. destruct Hk as ([] & r2 & o4 & o5 & Hq & Hk & _).
    apply (IH (snd r) r2 s' rest o5); [|exact Hk].
    now apply (Hstep s inp r r1 o2).
  - unfold ret in H. injection H as <- _ _. auto.
Qed.

Lemma alphabet_length : List.length ALPHABET = 26%nat.
Proof. reflexivity. Qed.

(** X6.  The game loop of the single-player and interactive modes keeps the
    round within its bounds.  Started with a count of incorrect guesses
    between 0 and the maximum and with distinct letters of the alphabet as
    guessed letters, it returns only when the round is over, won or lost;
    the word, the hint, the maximum and the round counters are untouched;
    the count never exceeds the maximum and equals it when the round is
    lost; the guessed letters are still distinct letters of the alphabet, 26
    at most. *)
Theorem game_loop_ends_round_within_bounds
    (s s' : GameState) (inp rest : list str) (out : list Output) :
  0 <= incorrectGuesses s <= maxGuesses s -> maxGuesses s <= Int.INT_MAX ->
  lettersValid s -> NoDup (guessedLetters s) ->
  gameLoop s inp = Ret s' rest out ->
  (outcome s' = Won \/ outcome s' = Lost /\ incorrectGuesses s' = maxGuesses s') /\
  roundInvariant s s' /\
  (List.length (guessedLetters s') <= 26)%nat.
Proof.
  intros Hinc Hmax Hlv Hnd H. unfold gameLoop in H.
  assert (Hstep : forall s1 inp1 r rest1 out1,
             roundInvariant s s1 -> active s1 = true ->
             processPlayerGuess s1 inp1 = Ret r rest1 out1 -> roundInvariant s (snd r)).
  { intros s1 inp1 r rest1 out1 HP Hact Hg.
    apply (processPlayerGuess_keeps_invariant s s1 inp1 rest1 r out1); auto; lia. }
  assert (Hstart : roundInvariant s s).
  { unfold roundInvariant. repeat split; auto; lia. }
  destruct (gameLoop_fuel_invariant (roundInvariant s) Hstep _ _ _ _ _ _ Hstart H)
    as [Hinv Ha].
  split; [|split; [exact Hinv|]].
  - destruct Hinv as (_ & _ & Hm & _ & _ & Hi & _).
    unfold outcome. unfold active in Ha.
    destruct (wordGuessed s'); [now left|]. right.
    rewrite andb_true_r in Ha. apply Z.ltb_ge in Ha.
    destruct (Z.leb_spec (maxGuesses s') (incorrectGuesses s')); [|lia].
    split; [reflexivity | lia].
  - destruct Hinv as (_ & _ & _ & _ & _ & _ & Hlv' & Hnd').
    rewrite <- alphabet_length. apply NoDup_incl_length; [exact Hnd'|].
    intros c Hc. unfold lettersValid in Hlv'. rewrite Forall_forall in Hlv'. auto.
Qed.

Lemma game_loop_ends_round_within_bounds_witness :
  exists (s' : GameState) (out : list Output),
    gameLoop fresh_cat [cstr "c"; cstr "z"; cstr "1"; cstr "cat"; cstr "x"]
      = Ret s' [cstr "x"] out /\
    (outcome s' = Won \/ outcome s' = Lost /\ incorrectGuesses s' = maxGuesses s') /\
    roundInvariant fresh_cat s' /\
    (List.length (guessedLetters s') <= 26)%nat.
Proof.
  eexists _, _. split; [vm_compute; reflexivity|].
  refine (game_loop_ends_round_within_bounds fresh_cat _
            [cstr "c"; cstr "z"; cstr "1"; cstr "cat"; cstr "x"] [cstr "x"] _ _ _ _ _ _).
  - simpl. lia.
  - simpl. unfold Int.INT_MAX. lia.
  - constructor.
  - constructor.
  - vm_compute. reflexivity.
Defined.

(** ** The report of a single-player round *)

Lemma processPlayerGuess_keeps_counters (s : GameState) (inp rest : list str)
    (r : bool * GameState) (out : list Output) :
  processPlayerGuess s inp = Ret r rest out ->
  wonRounds (snd r) = wonRounds s /\ lostRounds (snd r) = lostRounds s.
Proof.
  intros H. apply processPlayerGuess_inv in H.
  destruct H as [(c & out0 & _ & -> & _) | (line & out0 & -> & _)].
  - destruct (handleCharacterGuess_step s c) as (_ & _ & _ & E4 & E5 & _). auto.
  - destruct (wordGuess_step s (convertToUpper line)) as (_ & _ & _ & E4 & E5 & _). auto.
Qed.

(** A round played from a state with no round counted is reported as one
    round. *)
Lemma round_report (s s' : GameState) (inp rest : list str) (out : list Output) :
  wonRounds s = 0 -> lostRounds s = 0 ->
  gameLoop s inp = Ret s' rest out ->
  oneRoundReport (fst (endGameDisplay s')).
Proof.
  intros Hw Hl H. unfold gameLoop in H.
  assert (Hstep : forall s1 inp1 r rest1 out1,
             (wonRounds s1 = 0 /\ lostRounds s1 = 0) -> active s1 = true ->
             processPlayerGuess s1 inp1 = Ret r rest1 out1 ->
             wonRounds (snd r) = 0 /\ lostRounds (snd r) = 0).
  { intros s1 inp1 r rest1 out1 [H1 H2] _ Hg.
    destruct (processPlayerGuess_keeps_counters _ _ _ _ _ Hg) as [E1 E2].
    split; congruence. }
  destruct (gameLoop_fuel_invariant _ Hstep _ _ _ _ _ _ (conj Hw Hl) H) as [[Hw' Hl'] Ha].
  clear H Hstep. unfold active in Ha.
  destruct s' as [cw gl ch ig mg wg wr lr tr wrate lrate].
  cbn [wonRounds lostRounds incorrectGuesses maxGuesses wordGuessed] in *. subst wr lr.
  unfold oneRoundReport, endGameDisplay, endGame_tally, outcome.
  cbn [fst wordGuessed incorrectGuesses maxGuesses].
  destruct wg.
  - left. cbn. repeat split; reflexivity.
  - rewrite andb_true_r in Ha. apply Z.ltb_ge in Ha.
    destruct (Z.leb_spec mg ig) as [Hle | Hgt]; [|lia].
    right. cbn. destruct (Z.leb_spec mg ig); [|lia]. repeat split; reflexivity.
Qed.

(** X7.  In the single-player and the interactive mode every round is
    reported on a state of its own: whatever was played before, the report
    at the end of a round shows exactly one round, a win with a win rate of
    100 or a loss with a loss rate of 100.  The counters never add up over
    the rounds of a session. *)
Theorem round_report_counts_one_round
    (m : Z) (wordList : list WordItem) (r : nat) (inp rest : list str)
    (s : GameState) (out : list Output) :
  singleplayerRound m wordList r inp = Ret s rest out \/
  interactiveRound m inp = Ret s rest out ->
  oneRoundReport s.
Proof.
  intros [H | H].
  - unfold singleplayerRound in H.
    destruct (singleplayerSetup m wordList r) as [s0|] eqn:E; [|discriminate].
    assert (Hc : wonRounds s0 = 0 /\ lostRounds s0 = 0).
    { unfold singleplayerSetup in E.
      destruct (draw r (List.length wordList)); [|discriminate].
      destruct (at_index wordList z); [|discriminate].
      injection E as <-. split; reflexivity. }
    apply bind_Ret in H. destruct H as ([] & r0 & o0 & o1 & _ & H & _).
    apply bind_Ret in H. destruct H as (s' & r1 & o2 & o3 & Hloop & H & _).
    unfold lift in H. injection H as <- _ _.
    destruct Hc as [Hw Hl]. now apply (round_report s0 s' r0 r1 o2).
  - unfold interactiveRound in H.
    apply bind_Ret in H. destruct H as ([] & r0 & o0 & o1 & _ & H & _).
    apply bind_Ret in H. destruct H as ([] & r1 & o2 & o3 & _ & H & _).
    apply bind_Ret in H. destruct H as (w & r2 & o4 & o5 & _ & H & _).
    apply bind_Ret in H. destruct H as ([] & r3 & o6 & o7 & _ & H & _).
    apply bind_Ret in H. destruct H as (h & r4 & o8 & o9 & _ & H & _).
    apply bind_Ret in H. destruct H as ([] & r5 & o10 & o11 & _ & H & _).
    apply bind_Ret in H. destruct H as (s' & r6 & o12 & o13 & Hloop & H & _).
    unfold lift in H. injection H as <- _ _.
    eapply round_report; [| |exact Hloop]; reflexivity.
Qed.

Lemma round_report_counts_one_round_witness :
  exists (s : GameState) (out : list Output),
    singleplayerRound 2 small_catalog 1 [cstr "c"; cstr "q"; cstr "z"; cstr "n"]
      = Ret s [cstr "n"] out /\
    oneRoundReport s.
Proof.
  eexists _, _. split; [vm_compute; reflexivity|].
  refine (round_report_counts_one_round 2 small_catalog 1
            [cstr "c"; cstr "q"; cstr "z"; cstr "n"] [cstr "n"] _ _ (or_introl _)).
  vm_compute. reflexivity.
Defined.

(** ** Invariants of the two-player round *)

(** What a turn did when it returns. *)
Lemma playerTurn_inv (p p' : PlayerState) (b : bool) (inp rest : list str)
    (out : list Output) :
  playerTurn p inp = Ret (p', b) rest out ->
  (active (state p) = false /\ p' = p /\ b = false /\ rest = inp /\ out = []) \/
  (active (state p) = true /\
   exists (r : bool * GameState) (guessOut : list Output),
     processPlayerGuess (state p) inp = Ret r rest guessOut /\
     b = wordGuessed (snd r) /\
     (active (snd r) = false /\
      p' = fst (multiplayerEndGameDisplay (set_state p (snd r))) /\
      out = turnOutput p guessOut (snd r)
              ++ snd (multiplayerEndGameDisplay (set_state p (snd r)))
      \/
      active (snd r) = true /\ p' = set_state p (snd r) /\
      out = turnOutput p guessOut (snd r))).
Proof.
  destruct (active (state p)) eqn:Ha.
  - rewrite (playerTurn_play p inp Ha).
    destruct (processPlayerGuess (state p) inp) as [r rest0 guessOut | | |];
      try discriminate.
    cbv zeta. intros H. right. split; [reflexivity|]. exists r, guessOut.
    unfold active.
    destruct (wordGuessed (snd r)) eqn:Ew.
    + injection H as <- <- <- <-. split; [reflexivity|]. split; [reflexivity|].
      left. rewrite andb_false_r. auto.
    + destruct (Z.leb_spec (maxGuesses (snd r)) (incorrectGuesses (snd r))).
      * injection H as <- <- <- <-. split; [reflexivity|]. split; [reflexivity|].
        left. destruct (Z.ltb_spec (incorrectGuesses (snd r)) (maxGuesses (snd r)));
          [lia | auto].
      * injection H as <- <- <- <-. split; [reflexivity|]. split; [reflexivity|].
        right. destruct (Z.ltb_spec (incorrectGuesses (snd r)) (maxGuesses (snd r)));
          [auto | lia].
  - rewrite (playerTurn_skip p inp Ha). intros H. injection H as <- <- <- <-.
    left. auto.
Qed.

(** Properties that every turn keeps, one for each player, and a property of
    everything a turn prints, hold when the round returns; the round returns
    only with a word guessed or with no player left to play. *)
Lemma multiplayerRound_fuel_invariant
    (P1 P2 : PlayerState -> Prop) (Q : Output -> Prop) :
  (forall p inp p' b rest out,
     P1 p -> playerTurn p inp = Ret (p', b) rest out -> P1 p' /\ Forall Q out) ->
  (forall p inp p' b rest out,
     P2 p -> playerTurn p inp = Ret (p', b) rest out -> P2 p' /\ Forall Q out) ->
  forall (fuel : nat) (p1 p2 q1 q2 : PlayerState) (inp rest : list str)
         (out : list Output),
    P1 p1 -> P2 p2 ->
    multiplayerRound_fuel fuel p1 p2 inp = Ret (q1, q2) rest out ->
    P1 q1 /\ P2 q2 /\ Forall Q out /\
    (wordGuessed (state q1) = true \/ wordGuessed (state q2) = true \/
     active (state q1) = false /\ active (state q2) = false).
Proof.
  intros H1 H2. induction fuel as [|fuel IH];
    intros p1 p2 q1 q2 inp rest out HP1 HP2 H; [discriminate|].
  cbn [multiplayerRound_fuel] in H. apply bind_Ret in H.
  destruct H as ([[t1 t2] ga] & rest0 & out0 & out1 & Hc & Hk & ->).
  assert (Hcycle : P1 t1 /\ P2 t2 /\ Forall Q out0 /\
                   (ga = false ->
                    wordGuessed (state t1) = true \/ wordGuessed (state t2) = true \/
                    active (state t1) = false /\ active (state t2) = false)).
  { unfold turnCycle in Hc. apply bind_Ret in Hc.
    destruct Hc as ([u1 b1] & r1 & o1 & o1' & Ht1 & Hk1 & ->). cbn [fst snd] in Hk1.
    destruct (H1 _ _ _ _ _ _ HP1 Ht1) as [HP1' HQ1].
    destruct (playerTurn_result _ _ _ _ _ _ Ht1) as (Hb1 & _ & _).
    destruct b1.
    - unfold ret in Hk1. injection Hk1 as <- <- <- <- <-.
      rewrite app_nil_r. repeat split; auto.
      intros _. left. now destruct (Hb1 eq_refl) as (_ & Hw & _).
    - apply bind_Ret in Hk1.
      destruct Hk1 as ([u2 b2] & r2 & o2 & o2' & Ht2 & Hk2 & ->). cbn [fst snd] in Hk2.
      destruct (H2 _ _ _ _ _ _ HP2 Ht2) as [HP2' HQ2].
      destruct (playerTurn_result _ _ _ _ _ _ Ht2) as (Hb2 & _ & _).
      destruct b2.
      + unfold ret in Hk2. injection Hk2 as <- <- <- <- <-.
        rewrite app_nil_r. repeat split; auto; [now apply Forall_app|].
        intros _. right. left. now destruct (Hb2 eq_refl) as (_ & Hw & _).
      + unfold ret in Hk2. injection Hk2 as <- <- <- <- <-.
        rewrite app_nil_r. repeat split; auto; [now apply Forall_app|].
        cbn [andb]. intros Hga. apply orb_false_iff in Hga. right. right. exact Hga. }
  destruct Hcycle as (HT1 & HT2 & HQ & Hend).
  destruct ga.
  - destruct (IH _ _ _ _ _ _ _ HT1 HT2 Hk) as (Hq1 & Hq2 & HQ' & Hend').
    repeat split; auto. now apply Forall_app.
  - unfold ret in Hk. injection Hk as <- <- <- <-.
    rewrite app_nil_r. repeat split; auto.
Qed.

(** X8.  A two-player round that starts with no word guessed returns only
    when one player has guessed the word, the other then not having guessed
    it, or when both players have lost.  It never returns with a player who
    could still play unless the other has won. *)
Theorem two_player_round_ends_won_or_both_lost
    (p1 p2 q1 q2 : PlayerState) (inp rest : list str) (out : list Output) :
  wordGuessed (state p1) = false -> wordGuessed (state p2) = false ->
  multiplayerRound p1 p2 inp = Ret (q1, q2) rest out ->
  outcome (state q1) = Won /\ wordGuessed (state q2) = false \/
  outcome (state q2) = Won /\ wordGuessed (state q1) = false \/
  outcome (state q1) = Lost /\ outcome (state q2) = Lost.
Proof.
  intros Hw1 Hw2 H. unfold multiplayerRound in H.
  pose proof (round_has_one_winner _ _ _ _ _ _ _ _ Hw1 Hw2 H) as Hone.
  destruct (multiplayerRound_fuel_invariant (fun _ => True) (fun _ => True) (fun _ => True))
    with (5 := H) as (_ & _ & _ & Hend); auto.
  { intros. split; [exact I | apply Forall_forall; auto]. }
  { intros. split; [exact I | apply Forall_forall; auto]. }
  apply andb_false_iff in Hone.
  destruct Hend as [Hq1 | [Hq2 | [Ha1 Ha2]]].
  - left. split; [now apply outcome_Won|]. destruct Hone; congruence.
  - right. left. split; [now apply outcome_Won|]. destruct Hone; congruence.
  - destruct (wordGuessed (state q1)) eqn:E1.
    { left. split; [now apply outcome_Won|]. destruct Hone; congruence. }
    destruct (wordGuessed (state q2)) eqn:E2.
    { right. left. split; [now apply outcome_Won | reflexivity]. }
    right. right. unfold active in Ha1, Ha2. rewrite E1 in Ha1. rewrite E2 in Ha2.
    rewrite andb_true_r in Ha1, Ha2. apply Z.ltb_ge in Ha1, Ha2.
    split; apply outcome_Lost; auto.
Qed.

Lemma dog_players_start : multiplayerStart 4 small_catalog 0 = Some (dog_player1, dog_player2).
Proof. reflexivity. Qed.

Lemma two_player_round_ends_won_or_both_lost_witness :
  exists (q1 q2 : PlayerState) (out : list Output),
    multiplayerRound dog_player1 dog_player2
      (map cstr [ "D"; "Z"; "O"; "1"; "CAT"; "G"; "X" ]%string)
      = Ret (q1, q2) [cstr "X"] out /\
    (outcome (state q1) = Won /\ wordGuessed (state q2) = false \/
     outcome (state q2) = Won /\ wordGuessed (state q1) = false \/
     outcome (state q1) = Lost /\ outcome (state q2) = Lost).
Proof.
  eexists _, _, _. split; [vm_compute; reflexivity|].
  refine (two_player_round_ends_won_or_both_lost dog_player1 dog_player2 _ _
            (map cstr [ "D"; "Z"; "O"; "1"; "CAT"; "G"; "X" ]%string) [cstr "X"] _ _ _ _).
  - reflexivity.
  - reflexivity.
  - vm_compute. reflexivity.
Defined.

Lemma drawGallows_harmless (i m : Z) : Forall notInvalidState (drawGallows i m).
Proof.
  unfold drawGallows.
  destruct ((i <? 0) || (m <=? 0))%bool; repeat constructor.
Qed.

Lemma processPlayerGuess_harmless (s : GameState) (inp rest : list str)
    (r : bool * GameState) (out : list Output) :
  processPlayerGuess s inp = Ret r rest out -> Forall notInvalidState out.
Proof.
  intros H. apply processPlayerGuess_inv in H.
  destruct H as [(c & out0 & _ & _ & -> & Ho) | (line & out0 & _ & -> & Ho)];
    apply Forall_app; split.
  - eapply Forall_impl; [|exact Ho]. intros o [-> | ->]; exact I.
  - unfold handleCharacterGuess, checkWordGuessed.
    destruct (contains (guessedLetters s) c); [repeat constructor|].
    destruct (negb _); repeat constructor.
  - eapply Forall_impl; [|exact Ho]. intros o [-> | [-> | ->]]; exact I.
  - unfold fullWordGuess, wordGuess. destruct (str_eqb _ _); repeat constructor.
Qed.

(** A guess in an open round moves the count of incorrect guesses up, and
    not beyond the maximum. *)
Lemma processPlayerGuess_count (s : GameState) (inp rest : list str)
    (r : bool * GameState) (out : list Output) :
  active s = true -> 0 <= incorrectGuesses s -> maxGuesses s <= Int.INT_MAX ->
  processPlayerGuess s inp = Ret r rest out ->
  maxGuesses (snd r) = maxGuesses s /\
  incorrectGuesses s <= incorrectGuesses (snd r) <= maxGuesses s.
Proof.
  intros Ha H0 Hmax H.
  unfold active in Ha. apply andb_true_iff in Ha. destruct Ha as [Hlt _].
  apply Z.ltb_lt in Hlt.
  apply processPlayerGuess_inv in H.
  destruct H as [(c & out0 & _ & -> & _) | (line & out0 & -> & _)].
  - destruct (handleCharacterGuess_step s c) as (_ & _ & E3 & _ & _ & E6 & _).
    assert (Ei : Int.incr (incorrectGuesses s) = incorrectGuesses s + 1)
      by (apply Int_incr_small; unfold Int.INT_MIN; lia).
    split; [exact E3|]. destruct E6 as [-> | [-> _]]; lia.
  - unfold fullWordGuess.
    destruct (wordGuess_step s (convertToUpper line)) as (_ & _ & E3 & _ & _ & _ & E7).
    split; [exact E3|]. destruct E7 as [(_ & _ & ->) | (_ & _ & ->)]; lia.
Qed.

Lemma playerTurn_keeps_tally (p0 p p' : PlayerState) (b : bool) (inp rest : list str)
    (out : list Output) :
  tallyMatches p0 p /\ 0 <= incorrectGuesses (state p)
    /\ maxGuesses (state p) <= Int.INT_MAX ->
  playerTurn p inp = Ret (p', b) rest out ->
  (tallyMatches p0 p' /\ 0 <= incorrectGuesses (state p')
     /\ maxGuesses (state p') <= Int.INT_MAX) /\
  Forall notInvalidState out.
Proof.
  intros (Ht & H0 & Hmax) H. apply playerTurn_inv in H.
  destruct H as [(_ & -> & _ & _ & ->) | (Ha & r & guessOut & Hg & _ & Hcase)].
  { split; [auto | constructor]. }
  destruct (processPlayerGuess_count _ _ _ _ _ Ha H0 Hmax Hg) as [Em Hinc].
  assert (Hu : outcome (state p) = Unresolved) by now apply active_Unresolved.
  unfold tallyMatches in Ht. rewrite Hu in Ht. destruct Ht as [Hwins Hlosses].
  assert (Hpre : Forall notInvalidState (turnOutput p guessOut (snd r))).
  { unfold turnOutput. constructor; [exact I|].
    apply Forall_app. split.
    - unfold displayGameState. cbn [snd]. apply Forall_app. split.
      + apply drawGallows_harmless.
      + repeat constructor.
    - apply Forall_app. split; [now apply (processPlayerGuess_harmless _ _ _ _ _ Hg)|].
      repeat constructor. }
  destruct Hcase as [(Hna & -> & ->) | (Hact & -> & ->)].
  - unfold multiplayerEndGameDisplay. cbn [state set_state totalWins totalLosses].
    unfold active in Hna.
    destruct (wordGuessed (snd r)) eqn:Ew.
    + cbn [fst snd state set_totalWins totalWins totalLosses playerName].
      split.
      * unfold tallyMatches, outcome.
        cbn [state set_state set_totalWins totalWins totalLosses].
        rewrite Ew. repeat split; try congruence; lia.
      * apply Forall_app. split; [exact Hpre | repeat constructor].
    + rewrite andb_true_r in Hna. apply Z.ltb_ge in Hna.
      assert (Eeq : incorrectGuesses (snd r) = maxGuesses (snd r)) by lia.
      rewrite Eeq, Z.eqb_refl.
      cbn [fst snd state set_totalLosses totalWins totalLosses playerName].
      split.
      * unfold tallyMatches, outcome.
        cbn [state set_state set_totalLosses totalWins totalLosses].
        rewrite Ew, Eeq, Z.leb_refl. repeat split; try congruence; lia.
      * apply Forall_app. split; [exact Hpre|].
        apply Forall_app. split; [|repeat constructor].
        apply Forall_app. split; [apply drawGallows_harmless | repeat constructor].
  - split; [|exact Hpre].
    assert (Hu' : outcome (snd r) = Unresolved) by now apply active_Unresolved.
    unfold tallyMatches. cbn [state set_state totalWins totalLosses]. rewrite Hu'.
    repeat split; auto; lia.
Qed.

(** X9.  After a two-player round between two players who could play, the
    tallies of each player have moved by what that player's round came to:
    one more win if it is won, one more loss if it is lost, in which case the
    count of incorrect guesses equals the maximum, and nothing if it is still
    open.  The message for an invalid game state is never printed. *)
Theorem two_player_round_tallies_match
    (p1 p2 q1 q2 : PlayerState) (inp rest : list str) (out : list Output) :
  playable p1 -> playable p2 ->
  multiplayerRound p1 p2 inp = Ret (q1, q2) rest out ->
  tallyMatches p1 q1 /\ tallyMatches p2 q2 /\ Forall notInvalidState out.
Proof.
  intros (Hu1 & H01 & Hm1) (Hu2 & H02 & Hm2) H. unfold multiplayerRound in H.
  assert (Hs : forall p, outcome (state p) = Unresolved -> tallyMatches p p).
  { intros p Hu. unfold tallyMatches. rewrite Hu. auto. }
  destruct (multiplayerRound_fuel_invariant
              (fun p => tallyMatches p1 p /\ 0 <= incorrectGuesses (state p)
                        /\ maxGuesses (state p) <= Int.INT_MAX)
              (fun p => tallyMatches p2 p /\ 0 <= incorrectGuesses (state p)
                        /\ maxGuesses (state p) <= Int.INT_MAX)
              notInvalidState
              (fun p inp p' b rest out => playerTurn_keeps_tally p1 p p' b inp rest out)
              (fun p inp p' b rest out => playerTurn_keeps_tally p2 p p' b inp rest out)
              (S (List.length inp)) p1 p2 q1 q2 inp rest out)
    as ((T1 & _) & (T2 & _) & HQ & _); auto.
Qed.

Lemma two_player_round_tallies_match_witness :
  exists (q1 q2 : PlayerState) (out : list Output),
    multiplayerRound dog_player1 dog_player2
      (map cstr [ "D"; "Z"; "O"; "1"; "CAT"; "G"; "X" ]%string)
      = Ret (q1, q2) [cstr "X"] out /\
    tallyMatches dog_player1 q1 /\ tallyMatches dog_player2 q2 /\
    Forall notInvalidState out.
Proof.
  eexists _, _, _. split; [vm_compute; reflexivity|].
  refine (two_player_round_tallies_match dog_player1 dog_player2 _ _
            (map cstr [ "D"; "Z"; "O"; "1"; "CAT"; "G"; "X" ]%string) [cstr "X"] _ _ _ _).
  - repeat split; [simpl; lia | simpl; unfold Int.INT_MAX; lia].
  - repeat split; [simpl; lia | simpl; unfold Int.INT_MAX; lia].
  - vm_compute. reflexivity.
Defined.

(** ** Words that letters cannot complete *)

Lemma lower_not_in_alphabet (ch : ascii) : islower ch = true -> ~ In ch ALPHABET.
Proof.
  intros Hl Hin. unfold ALPHABET in Hin. simpl in Hin.
  repeat (destruct Hin as [<- | Hin]; [discriminate Hl|]). contradiction.
Qed.

Lemma has_lower_not_upper (w line : str) :
  existsb islower w = true -> convertToUpper line <> w.
Proof.
  intros Hl E. rewrite <- E, convertToUpper_no_lower in Hl. discriminate.
Qed.

(** With a character outside the alphabet in the word, a letter of the
    alphabet never completes the word. *)
Lemma letter_cannot_complete (s : GameState) (ch c : ascii) :
  In ch (chosenWord s) -> ~ In ch ALPHABET -> lettersValid s -> In c ALPHABET ->
  wordGuessed (snd (fst (handleCharacterGuess s c))) = wordGuessed s /\
  lettersValid (snd (fst (handleCharacterGuess s c))).
Proof.
  intros Hch Hnot Hlv Hc.
  assert (Hlv' : lettersValid (snd (fst (handleCharacterGuess s c)))).
  { fold (afterLetter s c). unfold lettersValid. rewrite afterLetter_guessed.
    destruct (contains (guessedLetters s) c); [exact Hlv|].
    apply Forall_app. split; [exact Hlv | now constructor]. }
  split; [|exact Hlv'].
  unfold handleCharacterGuess, checkWordGuessed.
  destruct (contains (guessedLetters s) c); cbn [fst snd]; [reflexivity|].
  cbn [chosenWord guessedLetters set_guessedLetters].
  destruct (contains (chosenWord s) c); cbn [negb fst snd]; [|reflexivity].
  destruct (forallb (contains (guessedLetters s ++ [c])) (chosenWord s)) eqn:E;
    [|reflexivity].
  exfalso. apply Hnot.
  rewrite forallb_contains in E. specialize (E ch Hch).
  apply in_app_or in E. destruct E as [E | [<- | []]]; [|exact Hc].
  unfold lettersValid in Hlv. rewrite Forall_forall in Hlv. now apply Hlv.
Qed.

Lemma gameLoop_fuel_invariant_or (P : GameState -> Prop) (msg : Output) :
  (forall s inp r rest out,
     P s -> active s = true -> processPlayerGuess s inp = Ret r rest out ->
     P (snd r) \/ In msg out) ->
  forall (fuel : nat) (s : GameState) (inp : list str) (s' : GameState)
         (rest : list str) (out : list Output),
    P s -> gameLoop_fuel fuel s inp = Ret s' rest out -> P s' \/ In msg out.
Proof.
  intros Hstep. induction fuel as [|fuel IH]; intros s inp s' rest out HP H;
    [discriminate|].
  cbn [gameLoop_fuel] in H. destruct (active s) eqn:Ha.
  - apply bind_Ret in H. destruct H as ([] & r0 & o0 & o1 & Hl & Hk & ->).
    unfold lift in Hl. injection Hl as <- _.
    apply bind_Ret in Hk. destruct Hk as (r & r1 & o2 & o3 & Hp & Hk & ->).
    apply bind_Ret in Hk. destruct Hk as ([] & r2 & o4 & o5 & Hq & Hk & ->).
    destruct (Hstep s inp r r1 o2 HP Ha Hp) as [HP' | Hin].
    + destruct (IH (snd r) r2 s' rest o5 HP' Hk) as [Hs' | Hin]; [now left|].
      right. apply in_or_app. right. apply in_or_app. right.
      apply in_or_app. now right.
    + right. apply in_or_app. right. apply in_or_app. now left.
  - unfold ret in H. injection H as <- _ _. now left.
Qed.

(** X10.  A word that holds a character outside the alphabet, a blank or a
    digit for instance, cannot be completed letter by letter: when the game
    loop returns with the round won, the word was guessed as a whole. *)
Theorem word_with_other_character_needs_word_guess
    (s s' : GameState) (ch : ascii) (inp rest : list str) (out : list Output) :
  In ch (chosenWord s) -> ~ In ch ALPHABET ->
  lettersValid s -> wordGuessed s = false ->
  gameLoop s inp = Ret s' rest out ->
  outcome s' = Won ->
  In (WordCorrectMsg (chosenWord s)) out.
Proof.
  intros Hch Hnot Hlv Hw H Hwon. unfold gameLoop in H.
  assert (Hstep : forall t inp1 r rest1 out1,
             (wordGuessed t = false /\ lettersValid t /\ chosenWord t = chosenWord s) ->
             active t = true -> processPlayerGuess t inp1 = Ret r rest1 out1 ->
             (wordGuessed (snd r) = false /\ lettersValid (snd r)
              /\ chosenWord (snd r) = chosenWord s)
             \/ In (WordCorrectMsg (chosenWord s)) out1).
  { intros t inp1 r rest1 out1 (Htw & Htl & Htc) _ Hg.
    apply processPlayerGuess_inv in Hg.
    destruct Hg as [(c & out0 & Hc & -> & _) | (line & out0 & -> & -> & _)].
    - left. rewrite <- Htc in Hch.
      destruct (letter_cannot_complete t ch c Hch Hnot Htl Hc) as [E1 E2].
      destruct (handleCharacterGuess_step t c) as (E3 & _).
      repeat split; congruence.
    - unfold fullWordGuess, wordGuess.
      destruct (str_eqb (convertToUpper line) (chosenWord t)); cbn [fst snd].
      + right. apply in_or_app. right. left. now rewrite Htc.
      + left. repeat split; auto. }
  destruct (gameLoop_fuel_invariant_or _ _ Hstep _ _ _ _ _ _
              (conj Hw (conj Hlv eq_refl)) H) as [(Hw' & _) | Hin]; [|exact Hin].
  apply outcome_Won in Hwon. congruence.
Qed.

Lemma word_with_other_character_needs_word_guess_witness :
  let s := interactiveSetup 8 (cstr "ice cream") (cstr "dessert") in
  exists (s' : GameState) (out : list Output),
    gameLoop s (map cstr [ "i"; "c"; "e"; "r"; "a"; "m"; "1"; "Ice Cream"; "x" ]%string)
      = Ret s' [cstr "x"] out /\
    guessedLetters s' = cstr "ICERAM" /\
    In (WordCorrectMsg (chosenWord s)) out.
Proof.
  cbv zeta. eexists _, _. split; [vm_compute; reflexivity|]. split; [reflexivity|].
  refine (word_with_other_character_needs_word_guess
            (interactiveSetup 8 (cstr "ice cream") (cstr "dessert")) _ " "%char
            (map cstr [ "i"; "c"; "e"; "r"; "a"; "m"; "1"; "Ice Cream"; "x" ]%string)
            [cstr "x"] _ _ _ _ _ _ _).
  - vm_compute. auto 10.
  - unfold ALPHABET. simpl. intuition discriminate.
  - constructor.
  - reflexivity.
  - vm_compute. reflexivity.
  - reflexivity.
Defined.

Lemma playerTurn_keeps_stuck (p p' : PlayerState) (b : bool) (inp rest : list str)
    (out : list Output) :
  stuckOnLowerCase p ->
  playerTurn p inp = Ret (p', b) rest out ->
  stuckOnLowerCase p' /\ Forall (fun _ => True) out.
Proof.
  intros (Hw & Hlv & Hlow) H. split; [|apply Forall_forall; auto].
  apply playerTurn_inv in H.
  destruct H as [(_ & -> & _) | (_ & r & guessOut & Hg & _ & Hcase)];
    [repeat split; auto|].
  assert (Hst : state p' = snd r).
  { destruct Hcase as [(_ & -> & _) | (_ & -> & _)]; [|reflexivity].
    now destruct (multiplayerEndGameDisplay_state (set_state p (snd r))). }
  unfold stuckOnLowerCase. rewrite Hst.
  apply existsb_exists in Hlow. destruct Hlow as (ch & Hch & Hl).
  apply processPlayerGuess_inv in Hg.
  destruct Hg as [(c & out0 & Hc & -> & _) | (line & out0 & -> & _)].
  - destruct (letter_cannot_complete (state p) ch c Hch
                (lower_not_in_alphabet ch Hl) Hlv Hc) as [E1 E2].
    destruct (handleCharacterGuess_step (state p) c) as (E3 & _).
    repeat split; [congruence | exact E2|].
    rewrite E3. apply existsb_exists. eauto.
  - unfold fullWordGuess.
    destruct (wordGuess_step (state p) (convertToUpper line))
      as (E1 & _ & _ & _ & _ & E6 & E7).
    assert (Hne : convertToUpper line <> chosenWord (state p)).
    { apply has_lower_not_upper. apply existsb_exists. eauto. }
    destruct E7 as [(E & _) | (_ & E7 & _)]; [contradiction|].
    unfold lettersValid. rewrite E1, E6, E7.
    repeat split; auto. apply existsb_exists. eauto.
Qed.

(** X11.  A two-player round on a word that holds a lower-case letter, which
    is what the two-player setup gives for a lower-case entry of the list,
    cannot be won: every guess is converted to upper case, so no letter and
    no full-word guess matches, and the round returns only with both players
    lost. *)
Theorem lower_case_word_cannot_be_won
    (p1 p2 q1 q2 : PlayerState) (inp rest : list str) (out : list Output) :
  stuckOnLowerCase p1 -> stuckOnLowerCase p2 ->
  multiplayerRound p1 p2 inp = Ret (q1, q2) rest out ->
  outcome (state q1) = Lost /\ outcome (state q2) = Lost.
Proof.
  intros H1 H2 H. unfold multiplayerRound in H.
  destruct (multiplayerRound_fuel_invariant stuckOnLowerCase stuckOnLowerCase
              (fun _ => True)
              (fun p inp p' b rest out => playerTurn_keeps_stuck p p' b inp rest out)
              (fun p inp p' b rest out => playerTurn_keeps_stuck p p' b inp rest out)
              (S (List.length inp)) p1 p2 q1 q2 inp rest out H1 H2 H)
    as ((Hw1 & _) & (Hw2 & _) & _ & Hend).
  destruct Hend as [E | [E | [Ha1 Ha2]]]; try congruence.
  unfold active in Ha1, Ha2. rewrite Hw1 in Ha1. rewrite Hw2 in Ha2.
  rewrite andb_true_r in Ha1, Ha2. apply Z.ltb_ge in Ha1, Ha2.
  split; apply outcome_Lost; auto.
Qed.

Lemma cat_lower_players_start :
  multiplayerStart 2 (readIntoWordItem [] [cstr "cat,a pet"]) 0
    = Some (cat_lower_player1, cat_lower_player2).
Proof. reflexivity. Qed.

Lemma lower_case_word_cannot_be_won_witness :
  exists (q1 q2 : PlayerState) (out : list Output),
    multiplayerRound cat_lower_player1 cat_lower_player2
      (map cstr [ "c"; "1"; "cat"; "1"; "cat"; "x" ]%string)
      = Ret (q1, q2) [cstr "x"] out /\
    outcome (state q1) = Lost /\ outcome (state q2) = Lost.
Proof.
  eexists _, _, _. split; [vm_compute; reflexivity|].
  refine (lower_case_word_cannot_be_won cat_lower_player1 cat_lower_player2 _ _
            (map cstr [ "c"; "1"; "cat"; "1"; "cat"; "x" ]%string) [cstr "x"] _ _ _ _).
  - repeat split. constructor.
  - repeat split. constructor.
  - vm_compute. reflexivity.
Defined.

(** ** The word list read from lines *)

Lemma split_at_comma_Some (line w h : str) :
  split_at_comma line = Some (w, h) ->
  line = w ++ ","%char :: h /\ ~ In ","%char w.
Proof.
  revert w h. induction line as [|c line IH]; intros w h H; [discriminate|].
  cbn [split_at_comma] in H. destruct (char_eqb c ","%char) eqn:E.
  - injection H as <- <-. apply Ascii.eqb_eq in E. subst c. split; [reflexivity | intros []].
  - destruct (split_at_comma line) as [[w' h']|]; [|discriminate].
    injection H as <- <-. destruct (IH w' h' eq_refl) as [-> Hn].
    split; [reflexivity|]. intros [Hc | Hin]; [|contradiction].
    subst c. unfold char_eqb in E. rewrite Ascii.eqb_refl in E. discriminate.
Qed.

Lemma split_at_comma_None (line : str) :
  split_at_comma line = None -> contains line ","%char = false.
Proof.
  induction line as [|c line IH]; intros H; [reflexivity|].
  cbn [split_at_comma] in H. unfold contains. cbn [existsb].
  fold (contains line ","%char).
  unfold char_eqb at 1. rewrite Ascii.eqb_sym. fold (char_eqb c ","%char).
  destruct (char_eqb c ","%char); [discriminate|].
  destruct (split_at_comma line) as [[w' h']|]; [discriminate|]. now apply IH.
Qed.

Lemma split_at_comma_app (w h : str) :
  ~ In ","%char w -> split_at_comma (w ++ ","%char :: h) = Some (w, h).
Proof.
  induction w as [|c w IH]; intros Hn; [reflexivity|].
  cbn [app split_at_comma].
  destruct (char_eqb c ","%char) eqn:E.
  - apply Ascii.eqb_eq in E. subst c. exfalso. apply Hn. now left.
  - rewrite IH; [reflexivity|]. intros Hin. apply Hn. now right.
Qed.

Lemma readIntoWordItem_acc (lines : list str) :
  forall wordList : list WordItem,
    readIntoWordItem wordList lines = wordList ++ readIntoWordItem [] lines.
Proof.
  induction lines as [|line lines IH]; intros wl; cbn [readIntoWordItem].
  - now rewrite app_nil_r.
  - destruct (split_at_comma line) as [[w h]|].
    + rewrite (IH (wl ++ [mkWordItem w h])), (IH ([] ++ [mkWordItem w h])).
      now rewrite <- app_assoc.
    + apply IH.
Qed.

Lemma readIntoWordItem_app (a b : list str) (wordList : list WordItem) :
  readIntoWordItem wordList (a ++ b) = readIntoWordItem (readIntoWordItem wordList a) b.
Proof.
  revert wordList. induction a as [|line a IH]; intros wl; [reflexivity|].
  cbn [app readIntoWordItem]. destruct (split_at_comma line) as [[w h]|]; apply IH.
Qed.

(** X12.  [readIntoWordItem] adds to the list it is given one entry for every
    line that holds a comma, in the order of the lines, and nothing for the
    other lines.  An entry is its line cut at the first comma: the word
    holds no comma, and word, comma and hint put together give the line
    back. *)
Theorem word_list_is_the_lines_with_a_comma
    (wordList : list WordItem) (lines : list str) :
  readIntoWordItem wordList lines = wordList ++ readIntoWordItem [] lines /\
  map entry_line (readIntoWordItem [] lines)
    = filter (fun line => contains line ","%char) lines /\
  Forall (fun item => contains (word item) ","%char = false)
         (readIntoWordItem [] lines).
Proof.
  split; [apply readIntoWordItem_acc|].
  induction lines as [|line lines [IH1 IH2]]; [split; [reflexivity | constructor]|].
  cbn [readIntoWordItem filter].
  destruct (split_at_comma line) as [[w h]|] eqn:E.
  - destruct (split_at_comma_Some _ _ _ E) as [-> Hn].
    rewrite readIntoWordItem_acc.
    assert (Hc : contains (w ++ ","%char :: h) ","%char = true).
    { apply contains_In, in_or_app. right. now left. }
    rewrite Hc. cbn [app map]. split.
    + unfold entry_line at 1. cbn [word hint]. now rewrite IH1.
    + constructor; [|exact IH2]. cbn [word]. now apply contains_false.
  - rewrite (split_at_comma_None _ E). split; assumption.
Qed.

(** ** The word file *)

Lemma file_lines_no_newline (l : str) :
  ~ In newline l -> l <> [] -> file_lines l = [l].
Proof.
  induction l as [|c l IH]; intros Hn Hne; [congruence|].
  cbn [file_lines]. destruct (char_eqb c newline) eqn:E.
  - apply Ascii.eqb_eq in E. subst c. exfalso. apply Hn. now left.
  - destruct l as [|d l]; [reflexivity|].
    rewrite IH; [reflexivity | | discriminate].
    intros Hin. apply Hn. now right.
Qed.

Lemma file_lines_newline_end (f : str) : file_lines (f ++ [newline]) <> [].
Proof.
  induction f as [|c f IH]; [discriminate|].
  cbn [app file_lines]. destruct (char_eqb c newline); [discriminate|].
  destruct (file_lines (f ++ [newline])); [contradiction | discriminate].
Qed.

Lemma file_lines_append_line (f l : str) :
  ~ In newline l -> l <> [] ->
  file_lines (f ++ newline :: l) = file_lines (f ++ [newline]) ++ [l].
Proof.
  intros Hn Hne. induction f as [|c f IH].
  - cbn [app file_lines]. unfold char_eqb. rewrite Ascii.eqb_refl.
    now rewrite (file_lines_no_newline l Hn Hne).
  - cbn [app file_lines]. destruct (char_eqb c newline); [now rewrite IH|].
    rewrite IH. pose proof (file_lines_newline_end f) as Hx.
    destruct (file_lines (f ++ [newline])); [contradiction | reflexivity].
Qed.

Lemma file_lines_trailing_newline (f : str) :
  file_lines (f ++ [newline]) = file_lines f \/
  file_lines (f ++ [newline]) = file_lines f ++ [[]].
Proof.
  induction f as [|c f IH].
  - right. cbn [app file_lines]. unfold char_eqb. now rewrite Ascii.eqb_refl.
  - cbn [app file_lines]. destruct (char_eqb c newline).
    + destruct IH as [-> | ->]; [now left | now right].
    + destruct IH as [-> | ->]; [now left|].
      destruct (file_lines f); [now left | now right].
Qed.

Lemma readIntoWordItem_trailing_newline (wordList : list WordItem) (f : str) :
  readIntoWordItem wordList (file_lines (f ++ [newline]))
    = readIntoWordItem wordList (file_lines f).
Proof.
  destruct (file_lines_trailing_newline f) as [-> | ->]; [reflexivity|].
  now rewrite readIntoWordItem_app.
Qed.

Lemma toupper_comma (c : ascii) : toupper c = ","%char -> c = ","%char.
Proof.
  destruct c as [[] [] [] [] [] [] [] []]; vm_compute; intros H;
    first [reflexivity | discriminate].
Qed.

Lemma toupper_newline (c : ascii) : toupper c = newline -> c = newline.
Proof.
  destruct c as [[] [] [] [] [] [] [] []]; vm_compute; intros H;
    first [reflexivity | discriminate].
Qed.

Lemma convertToUpper_no_comma (w : str) :
  ~ In ","%char w -> ~ In ","%char (convertToUpper w).
Proof.
  intros Hn Hin. apply in_map_iff in Hin. destruct Hin as (c & Hc & Hin).
  apply toupper_comma in Hc. subst c. contradiction.
Qed.

Lemma convertToUpper_no_newline (w : str) :
  ~ In newline w -> ~ In newline (convertToUpper w).
Proof.
  intros Hn Hin. apply in_map_iff in Hin. destruct Hin as (c & Hc & Hin).
  apply toupper_newline in Hc. subst c. contradiction.
Qed.

(** X13.  A word that is added is read back.  When the file can be opened for
    appending and the typed word holds no comma, [appendWord] followed by
    [readIntoWordItem] gives the entries that were read before and, after
    them, the new word and hint in upper case; this holds whether or not the
    file ended with a newline, and for a file that did not exist. *)
Theorem appended_word_is_read_back
    (f : FileState) (content w h : str) (rest : list str) (wordList : list WordItem) :
  open_for_append f = Some content ->
  ~ In ","%char w -> ~ In newline w -> ~ In newline h ->
  exists (f' : FileState) (out : list Output),
    appendWord f (w :: h :: rest) = Ret f' rest out /\
    f' = Present (content ++ newline :: appendWord_line w h) /\
    fst (readIntoWordItem_file wordList f')
      = fst (readIntoWordItem_file wordList f)
          ++ [mkWordItem (convertToUpper w) (convertToUpper h)].
Proof.
  intros Ho Hc Hnw Hnh. unfold appendWord. rewrite Ho.
  eexists _, _. split; [reflexivity|]. split; [reflexivity|].
  unfold readIntoWordItem_file at 1. cbn [open_for_read fst app].
  assert (Hline : ~ In newline (appendWord_line w h)).
  { unfold appendWord_line. intros Hin. apply in_app_or in Hin.
    destruct Hin as [Hin | Hin]; [now apply (convertToUpper_no_newline w)|].
    cbn [app] in Hin. destruct Hin as [Hin | Hin]; [discriminate|].
    now apply (convertToUpper_no_newline h). }
  assert (Hne : appendWord_line w h <> []).
  { unfold appendWord_line. destruct (convertToUpper w); discriminate. }
  rewrite (file_lines_append_line content _ Hline Hne), readIntoWordItem_app.
  rewrite readIntoWordItem_trailing_newline.
  assert (Hold : readIntoWordItem wordList (file_lines content)
                 = fst (readIntoWordItem_file wordList f)).
  { destruct f; cbn in Ho; try discriminate; injection Ho as <-; reflexivity. }
  rewrite Hold. cbn [readIntoWordItem]. unfold appendWord_line. cbn [app].
  rewrite split_at_comma_app; [reflexivity|]. now apply convertToUpper_no_comma.
Qed.

Lemma appended_word_is_read_back_witness :
  exists (f' : FileState) (out : list Output),
    appendWord (Present (cstr "DOG,BARKS")) [cstr "zebra"; cstr "African animal"; cstr "3"]
      = Ret f' [cstr "3"] out /\
    f' = Present (cstr "DOG,BARKS" ++ newline :: appendWord_line (cstr "zebra")
                                                  (cstr "African animal")) /\
    fst (readIntoWordItem_file [] f')
      = fst (readIntoWordItem_file [] (Present (cstr "DOG,BARKS")))
          ++ [mkWordItem (convertToUpper (cstr "zebra"))
                         (convertToUpper (cstr "African animal"))].
Proof.
  apply (appended_word_is_read_back (Present (cstr "DOG,BARKS")) (cstr "DOG,BARKS")
           (cstr "zebra") (cstr "African animal") [cstr "3"] []).
  - reflexivity.
  - simpl. intuition discriminate.
  - simpl. intuition discriminate.
  - simpl. intuition discriminate.
Defined.

(** A comma in the typed word breaks the round trip: the entry read back is
    cut at that comma. *)
Lemma appended_word_with_comma :
  fst (readIntoWordItem_file []
         (Present (newline :: appendWord_line (cstr "a,b") (cstr "hint"))))
    = [mkWordItem (cstr "A") (cstr "B,HINT")].
Proof. reflexivity. Qed.

(** ** What the program does to the word file *)

Lemma upperCased_app (a b : str) : upperCased a -> upperCased b -> upperCased (a ++ b).
Proof.
  unfold upperCased. intros Ha Hb. now rewrite existsb_app, Ha, Hb.
Qed.

Lemma file_grows_refl (f : FileState) : file_grows f f.
Proof. now left. Qed.

Lemma file_grows_trans (f f' f'' : FileState) :
  file_grows f f' -> file_grows f' f'' -> file_grows f f''.
Proof.
  intros [-> | (c & a & Ho & -> & Hu)] H2; [exact H2|].
  destruct H2 as [-> | (c' & a' & Ho' & -> & Hu')].
  - right. exists c, a. auto.
  - cbn in Ho'. injection Ho' as <-. right. exists c, (a ++ a').
    rewrite app_assoc. repeat split; auto. now apply upperCased_app.
Qed.

Lemma appendWord_grows (f f' : FileState) (inp rest : list str) (out : list Output) :
  appendWord f inp = Ret f' rest out -> file_grows f f'.
Proof.
  unfold appendWord. destruct (open_for_append f) as [content|] eqn:Ho.
  - intros H.
    apply bind_Ret in H. destruct H as ([] & r0 & o0 & o1 & _ & H & _).
    apply bind_Ret in H. destruct H as (w & r1 & o2 & o3 & _ & H & _).
    apply bind_Ret in H. destruct H as ([] & r2 & o4 & o5 & _ & H & _).
    apply bind_Ret in H. destruct H as (h & r3 & o6 & o7 & _ & H & _).
    apply bind_Ret in H. destruct H as ([] & r4 & o8 & o9 & _ & H & _).
    unfold ret in H. injection H as <- _ _.
    right. exists content, ([newline] ++ appendWord_line w h).
    repeat split; auto.
    unfold appendWord_line.
    apply (upperCased_app [newline]); [reflexivity|].
    apply upperCased_app; [apply convertToUpper_no_lower|].
    apply (upperCased_app [","%char]); [reflexivity | apply convertToUpper_no_lower].
  - intros H. apply bind_Ret in H. destruct H as ([] & r0 & o0 & o1 & _ & H & _).
    unfold ret in H. injection H as <- _ _. apply file_grows_refl.
Qed.

Lemma manageWordList_fuel_grows (fuel : nat) :
  forall (f f' : FileState) (inp rest : list str) (out : list Output),
    manageWordList_fuel fuel f inp = Ret f' rest out -> file_grows f f'.
Proof.
  induction fuel as [|fuel IH]; intros f f' inp rest out H; [discriminate|].
  cbn [manageWordList_fuel] in H.
  apply bind_Ret in H. destruct H as ([] & r0 & o0 & o1 & _ & H & _).
  apply bind_Ret in H. destruct H as (choice & r1 & o2 & o3 & _ & H & _).
  apply bind_Ret in H. destruct H as ([f1 go] & r2 & o4 & o5 & Hr & H & _).
  apply bind_Ret in H. destruct H as ([] & r3 & o6 & o7 & _ & H & _).
  cbn [fst snd] in H.
  assert (Hg : file_grows f f1).
  { destruct (char_eqb choice "1").
    - apply bind_Ret in Hr. destruct Hr as ([] & ? & ? & ? & _ & Hr & _).
      unfold ret in Hr. injection Hr as <- _ _ _. apply file_grows_refl.
    - destruct (char_eqb choice "2").
      + apply bind_Ret in Hr. destruct Hr as (fa & ? & ? & ? & Ha & Hr & _).
        unfold ret in Hr. injection Hr as <- _ _ _. now apply appendWord_grows in Ha.
      + destruct (char_eqb choice "3").
        * unfold ret in Hr. injection Hr as <- _ _ _. apply file_grows_refl.
        * apply bind_Ret in Hr. destruct Hr as ([] & ? & ? & ? & _ & Hr & _).
          unfold ret in Hr. injection Hr as <- _ _ _. apply file_grows_refl. }
  destruct go.
  - apply (file_grows_trans f f1 f'); [exact Hg|]. now apply (IH _ _ _ _ _ H).
  - unfold ret in H. injection H as <- _ _. exact Hg.
Qed.

Lemma runMode_grows (wordList : list WordItem) (rand : nat -> nat) (playAgain : bool)
    (mode : GameMode) (f f' : FileState) (inp rest : list str) (out : list Output) :
  runMode wordList rand playAgain mode f inp = Ret f' rest out -> file_grows f f'.
Proof.
  destruct mode; cbn [runMode]; intros H.
  - unfold ret in H. injection H as <- _ _. apply file_grows_refl.
  - apply bind_Ret in H. destruct H as ([] & ? & ? & ? & _ & H & _).
    unfold ret in H. injection H as <- _ _. apply file_grows_refl.
  - apply bind_Ret in H. destruct H as ([] & ? & ? & ? & _ & H & _).
    unfold ret in H. injection H as <- _ _. apply file_grows_refl.
  - apply bind_Ret in H. destruct H as ([] & ? & ? & ? & _ & H & _).
    unfold ret in H. injection H as <- _ _. apply file_grows_refl.
  - unfold manageWordList in H. now apply manageWordList_fuel_grows in H.
Qed.

Lemma playGame_fuel_grows (wordList : list WordItem) (rand : nat -> nat -> nat)
    (playAgain : nat -> bool) (fuel : nat) :
  forall (k : nat) (mode : GameMode) (f f' : FileState) (inp rest : list str)
         (out : list Output),
    playGame_fuel fuel wordList rand playAgain k mode f inp = Ret f' rest out ->
    file_grows f f'.
Proof.
  induction fuel as [|fuel IH]; intros k mode f f' inp rest out H; [discriminate|].
  cbn [playGame_fuel] in H.
  assert (Hloop : forall m, m = mode ->
            (f1 <- runMode wordList (rand k) (playAgain k) m f ;;
             mode' <- modeMenu ;;
             playGame_fuel fuel wordList rand playAgain (S k) mode' f1)%io inp
              = Ret f' rest out -> file_grows f f').
  { intros m _ Hm. apply bind_Ret in Hm. destruct Hm as (f1 & ? & ? & ? & Hr & Hm & _).
    apply bind_Ret in Hm. destruct Hm as (mode' & ? & ? & ? & _ & Hm & _).
    apply (file_grows_trans f f1 f'); [now apply runMode_grows in Hr|].
    now apply (IH _ _ _ _ _ _ _ Hm). }
  destruct mode; try (now apply (Hloop _ eq_refl)).
  apply bind_Ret in H. destruct H as ([] & ? & ? & ? & _ & H & _).
  unfold ret in H. injection H as <- _ _. apply file_grows_refl.
Qed.

(** X14.  Whatever is typed during a run of the program, the word file is
    only ever appended to: when [main] returns, the file is as it was, or it
    holds what it held (nothing, if it did not exist) followed by appended
    text, and the appended text holds no lower-case letter. *)
Theorem program_only_appends_to_word_file
    (rand : nat -> nat -> nat) (playAgain : nat -> bool)
    (f f' : FileState) (inp rest : list str) (out : list Output) :
  main rand playAgain f inp = Ret f' rest out -> file_grows f f'.
Proof.
  unfold main. intros H.
  apply bind_Ret in H. destruct H as (wl & ? & ? & ? & _ & H & _).
  unfold playGame in H.
  apply bind_Ret in H. destruct H as (mode & ? & ? & ? & _ & H & _).
  now apply playGame_fuel_grows in H.
Qed.

Lemma program_only_appends_to_word_file_witness :
  exists out : list Output,
    main (fun _ _ => 0%nat) (fun _ => false) (Present (cstr "DOG,BARKS"))
      (map cstr [ "4"; "2"; "zebra"; "African animal"; ""; "3"; "0"; "x" ]%string)
      = Ret (Present (cstr "DOG,BARKS" ++ newline :: cstr "ZEBRA,AFRICAN ANIMAL"))
            [cstr "x"] out /\
    file_grows (Present (cstr "DOG,BARKS"))
      (Present (cstr "DOG,BARKS" ++ newline :: cstr "ZEBRA,AFRICAN ANIMAL")).
Proof.
  eexists. split; [vm_compute; reflexivity|].
  refine (program_only_appends_to_word_file (fun _ _ => 0%nat) (fun _ => false) _ _
            (map cstr [ "4"; "2"; "zebra"; "African animal"; ""; "3"; "0"; "x" ]%string)
            [cstr "x"] _ _).
  vm_compute. reflexivity.
Defined.

(** ** An empty word list *)

Lemma getValidatedInput_accepted (prompt v : str) (line : str) (rest : list str)
    (c : ascii) :
  accepted v line = Some c ->
  getValidatedInput prompt v (line :: rest) = Ret c rest [Prompt prompt].
Proof.
  intros H. unfold getValidatedInput.
  now rewrite getValidatedInput_loop_accepted, H.
Qed.

Lemma selectDifficultyLevel_accepted (line : str) (rest : list str) (c : ascii) :
  accepted (cstr "123") line = Some c ->
  exists (m : Z) (out : list Output),
    selectDifficultyLevel (line :: rest) = Ret m rest out.
Proof.
  intros H. unfold selectDifficultyLevel, bind.
  rewrite (getValidatedInput_accepted _ _ _ rest _ H).
  destruct (char_eqb c "1"); [eexists _, _; reflexivity|].
  destruct (char_eqb c "2"); [eexists _, _; reflexivity|].
  destruct (char_eqb c "3"); eexists _, _; reflexivity.
Qed.

Lemma playSingleplayer_empty (rand : nat -> nat) (line : str) (rest : list str)
    (c : ascii) :
  accepted (cstr "123") line = Some c ->
  exists out : list Output, playSingleplayer [] rand (line :: rest) = Undefined out.
Proof.
  intros H. destruct (selectDifficultyLevel_accepted line rest c H) as (m & out & E).
  unfold playSingleplayer, bind at 1, print. unfold bind at 1.
  unfold setupDifficulty. rewrite E. eexists. reflexivity.
Qed.

Lemma playMultiplayer_empty (rand : nat -> nat) (playAgain : bool) (line : str)
    (rest : list str) (c : ascii) :
  accepted (cstr "123") line = Some c ->
  exists out : list Output,
    playMultiplayer [] rand playAgain (line :: rest) = Undefined out.
Proof.
  intros H. destruct (selectDifficultyLevel_accepted line rest c H) as (m & out & E).
  unfold playMultiplayer, bind at 1. unfold setupDifficulty. rewrite E.
  eexists. reflexivity.
Qed.

Lemma modeMenu_accepted (line : str) (rest : list str) (c : ascii) :
  accepted (cstr "01234") line = Some c ->
  (c = "1"%char -> modeMenu (line :: rest)
     = Ret SINGLE_PLAYER rest [Text (cstr "Welcome to Hangman!"); Prompt menu_prompt]) /\
  (c = "2"%char -> modeMenu (line :: rest)
     = Ret TWO_PLAYER rest [Text (cstr "Welcome to Hangman!"); Prompt menu_prompt]).
Proof.
  intros H.
  split; intros ->; unfold modeMenu, bind at 1, print; unfold bind at 1;
    rewrite (getValidatedInput_accepted _ _ _ rest _ H); reflexivity.
Qed.

(** X15.  With no entry in the word list, because the word file cannot be
    read or holds no line with a comma, the single-player and the two-player
    mode divide by zero when they draw a word: choosing mode 1 or 2 and then
    any difficulty ends the run there, before any round is played. *)
Theorem empty_word_list_breaks_the_games
    (rand : nat -> nat -> nat) (playAgain : nat -> bool) (f : FileState)
    (mode_line level_line : str) (rest : list str) (c : ascii) :
  fst (readIntoWordItem_file [] f) = [] ->
  accepted (cstr "01234") mode_line = Some "1"%char \/
  accepted (cstr "01234") mode_line = Some "2"%char ->
  accepted (cstr "123") level_line = Some c ->
  exists out : list Output,
    main rand playAgain f (mode_line :: level_line :: rest) = Undefined out.
Proof.
  intros Hwl Hmode Hlevel. unfold main, bind at 1, lift. rewrite Hwl.
  unfold playGame, bind at 1.
  destruct Hmode as [Hm | Hm].
  - destruct (modeMenu_accepted mode_line (level_line :: rest) _ Hm) as [E _].
    rewrite (E eq_refl). cbn [emit playGame_fuel List.length runMode].
    destruct (playSingleplayer_empty (rand 0%nat) level_line rest c Hlevel) as (o & Eo).
    unfold bind at 1. unfold bind at 1. rewrite Eo. eexists. reflexivity.
  - destruct (modeMenu_accepted mode_line (level_line :: rest) _ Hm) as [_ E].
    rewrite (E eq_refl). cbn [emit playGame_fuel List.length runMode].
    destruct (playMultiplayer_empty (rand 0%nat) (playAgain 0%nat) level_line rest c Hlevel)
      as (o & Eo).
    unfold bind at 1. unfold bind at 1. rewrite Eo. eexists. reflexivity.
Qed.

Lemma empty_word_list_breaks_the_games_witness :
  exists out : list Output,
    main (fun _ _ => 5%nat) (fun _ => false) Absent
      (cstr "1" :: cstr "3" :: [cstr "a"]) = Undefined out.
Proof.
  apply (empty_word_list_breaks_the_games (fun _ _ => 5%nat) (fun _ => false) Absent
           (cstr "1") (cstr "3") [cstr "a"] "3"%char).
  - reflexivity.
  - left. reflexivity.
  - reflexivity.
Defined.

(** ** The prompt to play again *)






(** ** Setting up and winning a round *)

(** X17.  For a non-empty word list and any draw, the single-player setup
    gives a round start on the entry at position [r mod size]: the word and
    the hint are those of the entry in upper case, nothing is guessed, no
    incorrect guess is counted and the maximum is the chosen level. *)
Theorem single_player_setup_starts_round
    (maxG : Z) (wordList : list WordItem) (r : nat) :
  wordList <> [] ->
  Z.of_nat (List.length wordList) <= Int.INT_MAX ->
  exists (s : GameState) (item : WordItem),
    singleplayerSetup maxG wordList r = Some s /\
    nth_error wordList (r mod List.length wordList) = Some item /\
    chosenWord s = convertToUpper (word item) /\
    chosenHint s = convertToUpper (hint item) /\
    upperCased (chosenWord s) /\ upperCased (chosenHint s) /\
    roundStart s /\ maxGuesses s = maxG /\
    wonRounds s = 0 /\ lostRounds s = 0.
Proof.
  intros Hne Hlen.
  destruct (draw_at_index wordList r Hne Hlen) as (i & item & Hd & Ha & Hn & _).
  unfold singleplayerSetup. rewrite Hd, Ha.
  eexists _, item. split; [reflexivity|]. cbn.
  repeat split; auto; apply convertToUpper_no_lower.
Qed.

Lemma single_player_setup_starts_round_witness :
  exists (s : GameState) (item : WordItem),
    singleplayerSetup 4 small_catalog 7 = Some s /\
    nth_error small_catalog (7 mod List.length small_catalog) = Some item /\
    chosenWord s = convertToUpper (word item) /\
    chosenHint s = convertToUpper (hint item) /\
    upperCased (chosenWord s) /\ upperCased (chosenHint s) /\
    roundStart s /\ maxGuesses s = 4 /\
    wonRounds s = 0 /\ lostRounds s = 0.
Proof.
  apply (single_player_setup_starts_round 4 small_catalog 7).
  - discriminate.
  - simpl. unfold Int.INT_MAX. lia.
Defined.

(** In an open round, the line 1 followed by the word in any letter case
    ends the game loop at once with the word guessed. *)
Lemma gameLoop_word_win (s : GameState) (line : str) (rest : list str) :
  active s = true -> convertToUpper line = chosenWord s ->
  gameLoop s (cstr "1" :: line :: rest)
    = Ret (set_wordGuessed s true) rest
        (snd (displayGameState s)
           ++ [Prompt guess_prompt; Text (cstr "Type your guess for the word.");
               WordCorrectMsg (chosenWord s)]).
Proof.
  intros Ha He. unfold gameLoop. cbn [List.length gameLoop_fuel]. rewrite Ha.
  unfold bind at 1. unfold lift at 1. cbn [fst snd]. unfold bind at 1.
  rewrite processPlayerGuess_word. unfold fullWordGuess, wordGuess.
  rewrite He. assert (E : str_eqb (chosenWord s) (chosenWord s) = true)
    by now apply str_eqb_eq.
  rewrite E. cbn [fst snd negb]. unfold bind at 1. unfold ret at 1.
  assert (Hna : active (set_wordGuessed s true) = false).
  { unfold active. cbn [wordGuessed set_wordGuessed negb]. apply andb_false_r. }
  rewrite Hna. unfold ret. cbn [emit app]. rewrite ?app_nil_r. reflexivity.
Qed.

(** X18.  In the interactive mode the guesser can win at the first guess by
    typing the word as a whole, in any letter case, whatever case the word
    was entered in: the round is reported won, with no incorrect guess and
    no letter guessed, and the lines that follow are left unread. *)
Theorem interactive_word_guess_wins
    (m : Z) (w h w' : str) (rest : list str) :
  0 < m -> convertToUpper w' = convertToUpper w ->
  exists (s : GameState) (out : list Output),
    interactiveRound m (w :: h :: cstr "1" :: w' :: rest) = Ret s rest out /\
    chosenWord s = convertToUpper w /\
    incorrectGuesses s = 0 /\ guessedLetters s = [] /\
    oneRoundReport s /\ outcome s = Won.
Proof.
  intros Hm He.
  assert (Ha : active (interactiveSetup m w h) = true).
  { unfold active. cbn. destruct (Z.ltb_spec 0 m); [reflexivity | lia]. }
  assert (Hloop := gameLoop_word_win (interactiveSetup m w h) w' rest Ha He).
  unfold interactiveRound.
  unfold bind at 1. unfold print at 1. unfold bind at 1. unfold print at 1.
  unfold bind at 1. unfold getline at 1. unfold bind at 1. unfold print at 1.
  unfold bind at 1. unfold getline at 1. unfold bind at 1. unfold print at 1.
  unfold bind at 1. rewrite Hloop. unfold lift. cbn [emit].
  eexists _, _. split; [reflexivity|].
  cbn. repeat split. left. repeat split.
Qed.

Lemma interactive_word_guess_wins_witness :
  exists (s : GameState) (out : list Output),
    interactiveRound 2 (cstr "Zebra" :: cstr "stripes" :: cstr "1" :: cstr "zEBRA"
                          :: [cstr "n"]) = Ret s [cstr "n"] out /\
    chosenWord s = convertToUpper (cstr "Zebra") /\
    incorrectGuesses s = 0 /\ guessedLetters s = [] /\
    oneRoundReport s /\ outcome s = Won.
Proof.
  apply (interactive_word_guess_wins 2 (cstr "Zebra") (cstr "stripes") (cstr "zEBRA")
           [cstr "n"]).
  - lia.
  - reflexivity.
Defined.

(** ** Letter guesses in any order *)

Lemma newLetters_NoDup (letters : list ascii) :
  forall seen : str,
    NoDup (newLetters seen letters) /\
    (forall c, In c (newLetters seen letters) -> ~ In c seen).
Proof.
  induction letters as [|c l IH]; intros seen; cbn [newLetters].
  - split; [constructor | intros c []].
  - destruct (contains seen c) eqn:E; [apply IH|].
    apply contains_false in E.
    destruct (IH (seen ++ [c])) as [Hnd Hnot].
    split.
    + constructor; [|exact Hnd]. intros Hin. apply (Hnot c Hin).
      apply in_or_app. right. now left.
    + intros d [<- | Hd]; [exact E|].
      intros Hs. apply (Hnot d Hd). apply in_or_app. now left.
Qed.

Lemma afterLetters_general (letters : list ascii) :
  forall s : GameState,
    0 <= incorrectGuesses s ->
    incorrectGuesses s + 256 <= Int.INT_MAX ->
    guessedLetters (afterLetters s letters)
      = guessedLetters s ++ newLetters (guessedLetters s) letters /\
    incorrectGuesses (afterLetters s letters)
      = incorrectGuesses s + Z.of_nat (List.length (wrongLetters s letters)).
Proof.
  assert (Hgen : forall (n : nat) (letters : list ascii) (s : GameState),
            (List.length (wrongLetters s letters) <= n)%nat ->
            0 <= incorrectGuesses s ->
            incorrectGuesses s + Z.of_nat n <= Int.INT_MAX ->
            guessedLetters (afterLetters s letters)
              = guessedLetters s ++ newLetters (guessedLetters s) letters /\
            incorrectGuesses (afterLetters s letters)
              = incorrectGuesses s + Z.of_nat (List.length (wrongLetters s letters))).
  { intros n l. revert n. induction l as [|c l IH]; intros n s Hn H0 Hmax.
    - cbn. rewrite app_nil_r. split; [reflexivity | lia].
    - rewrite afterLetters_cons. unfold wrongLetters in *. cbn [newLetters] in *.
      destruct (contains (guessedLetters s) c) eqn:Eg.
      + apply contains_In in Eg.
        assert (E : afterLetter s c = s)
          by (unfold afterLetter; now rewrite (handle_already s c Eg)).
        rewrite E. now apply (IH n).
      + apply contains_false in Eg.
        destruct (afterLetter_frame s c) as (Ew & _ & _).
        cbn [filter] in *.
        destruct (contains (chosenWord s) c) eqn:Ec; cbn [negb] in *.
        * apply contains_In in Ec.
          destruct (afterLetter_correct s c Ec Eg) as (Egl & Ei & _ & _).
          destruct (IH n (afterLetter s c)) as [H1 H2].
          { now rewrite Ew, Egl. }
          { now rewrite Ei. }
          { now rewrite Ei. }
          rewrite H1, H2, Egl, Ei, Ew, <- app_assoc. split; reflexivity.
        * apply contains_false in Ec.
          assert (E : afterLetter s c =
                      set_incorrectGuesses
                        (set_guessedLetters s (guessedLetters s ++ [c]))
                        (Int.incr (incorrectGuesses s))).
          { unfold afterLetter. now rewrite (handle_incorrect s c Eg Ec). }
          cbn [List.length] in Hn. destruct n as [|n]; [lia|].
          assert (Ei : Int.incr (incorrectGuesses s) = incorrectGuesses s + 1).
          { apply Int_incr_small. unfold Int.INT_MIN. lia. }
          destruct (IH n (afterLetter s c)) as [H1 H2].
          { rewrite E. cbn [chosenWord guessedLetters set_incorrectGuesses
                            set_guessedLetters]. lia. }
          { rewrite E. cbn [incorrectGuesses set_incorrectGuesses]. lia. }
          { rewrite E. cbn [incorrectGuesses set_incorrectGuesses]. lia. }
          rewrite H1, H2. rewrite E.
          cbn [chosenWord guessedLetters incorrectGuesses set_incorrectGuesses
               set_guessedLetters List.length].
          rewrite <- app_assoc. split; [reflexivity | lia]. }
  intros s H0 Hmax. apply (Hgen 256%nat); [|exact H0 | exact Hmax].
  apply NoDup_chars_length. unfold wrongLetters. apply NoDup_filter.
  apply newLetters_NoDup.
Qed.

(** X19.  From a round start, after any sequence of letter guesses, in any
    order, with repeats and with correct letters in between, the guessed
    letters are the distinct letters of the sequence in the order of their
    first guess, and the count of incorrect guesses is the number of
    distinct letters of the sequence that are not in the word. *)
Theorem incorrect_count_is_number_of_wrong_letters
    (s : GameState) (letters : list ascii) :
  roundStart s ->
  guessedLetters (afterLetters s letters) = newLetters [] letters /\
  incorrectGuesses (afterLetters s letters)
    = Z.of_nat (List.length (filter (fun c => negb (contains (chosenWord s) c))
                                    (newLetters [] letters))) /\
  NoDup (newLetters [] letters) /\
  (forall c, In c (newLetters [] letters) <-> In c letters).
Proof.
  intros (Hg & Hi & _).
  destruct (afterLetters_general letters s) as [H1 H2].
  { rewrite Hi. lia. }
  { rewrite Hi. unfold Int.INT_MAX. lia. }
  unfold wrongLetters in H2. rewrite Hg in *. rewrite Hi in H2. cbn [app] in H1.
  split; [exact H1|]. split; [exact H2|].
  split; [apply newLetters_NoDup|].
  intros c.
  assert (Hin : forall l seen, In c (newLetters seen l) <-> In c l /\ ~ In c seen).
  { induction l as [|d l IH]; intros seen; cbn [newLetters].
    - split; [intros [] | intros [[] _]].
    - destruct (contains seen d) eqn:E.
      + apply contains_In in E. rewrite IH. split.
        * intros [Hl Hs]. split; [now right | exact Hs].
        * intros [[<- | Hl] Hs]; [contradiction | now split].
      + apply contains_false in E. split.
        * intros [<- | Hc]; [split; [now left | exact E]|].
          apply IH in Hc. destruct Hc as [Hl Hs]. split; [now right|].
          intros Hx. apply Hs. apply in_or_app. now left.
        * intros [[<- | Hl] Hs]; [now left|].
          destruct (ascii_dec d c) as [-> | Hne]; [now left|].
          right. apply IH. split; [exact Hl|].
          intros Hx. apply in_app_or in Hx. destruct Hx as [Hx | [Hx | []]];
            [contradiction | congruence]. }
  rewrite Hin. split; [intros [H _]; exact H | intros H; split; [exact H | intros []]].
Qed.

Lemma incorrect_count_is_number_of_wrong_letters_witness :
  roundStart fresh_cat /\
  newLetters [] [ "Z"; "C"; "Z"; "Q"; "A"; "C"; "Q" ]%char
    = [ "Z"; "C"; "Q"; "A" ]%char /\
  incorrectGuesses
    (afterLetters fresh_cat [ "Z"; "C"; "Z"; "Q"; "A"; "C"; "Q" ]%char) = 2.
Proof.
  assert (Hs : roundStart fresh_cat) by (repeat split).
  split; [exact Hs|]. split; [reflexivity|].
  destruct (incorrect_count_is_number_of_wrong_letters fresh_cat
              [ "Z"; "C"; "Z"; "Q"; "A"; "C"; "Q" ]%char Hs) as (_ & H & _).
  rewrite H. reflexivity.
Defined.

(** ** A word list with an entry *)













Section WordListWithAnEntry.

Variable wordList : list WordItem.
Hypothesis wordList_entry : wordList <> [].
Hypothesis wordList_fits : Z.of_nat (List.length wordList) <= Int.INT_MAX.






















End WordListWithAnEntry.


